(** * Kalah search strategies: a shallow embedding and its properties

    The development follows the Python sources file by file:
    - [KalahGame.py]      the board, legal moves, sowing, capture, extra turn;
    - [Kalahevaluate.py]  the static evaluator;
    - [KalahMinimax.py]   depth-bounded alpha-beta search;
    - [KalahMCTS.py]      tree nodes, expansion, backpropagation, SHOT/SHUSS;
    - [NRPA.py]           the softmax policy and its adaptation;
    - [UNMINIMAX.py]      best-first minimax over a transposition table.

    Conventions.  Python integers are [Z]; a player is the integer 0 or 1;
    the sentinel move [None] is [None : option Z].  The board is a Python list
    of fourteen integers, modelled as [list Z]; every index the program uses on
    a fourteen-slot board lies between -1 and 13, so that [board_get] never
    meets Python's [IndexError] on a well-formed state.  Heuristic scores are
    kept in tenths: the weights 1.0, 0.7 and 0.2 of the evaluator become the
    integers 10, 7 and 2, which keeps every comparison of scores exact.  Where
    the program adds scores up and tests the sign of the sum, for the PUCT
    prior, rounding decides the test; there the scores are the binary64
    numbers that the program computes ([evaluate_float]). *)

From Stdlib Require Import ZArith QArith Reals Floats Lia Lra List Bool Permutation.
From stdpp Require Import base option list gmap.

Local Open Scope Z_scope.

(* ===================================================================== *)
(** * KalahGame.py *)
(* ===================================================================== *)

Record KalahGame : Type := mkGame {
  board : list Z;
  current_player : Z;
  last_pit : option Z
}.

(** [KalahGame.__init__] *)
Definition new_game : KalahGame :=
  mkGame (replicate 6 4 ++ [0] ++ replicate 6 4 ++ [0]) 0 None.

(** [sum(xs)] on a list of integers. *)
Definition zsum (xs : list Z) : Z := foldr Z.add 0 xs.

(** [b[i]]: a negative index counts from the end of the list. *)
Definition board_get (b : list Z) (i : Z) : Z :=
  let j := if i <? 0 then i + Z.of_nat (length b) else i in
  if j <? 0 then 0 else default 0 (b !! Z.to_nat j).

(** [b[i] = v] for the non-negative indices the program writes to. *)
Definition board_set (b : list Z) (i : Z) (v : Z) : list Z :=
  <[Z.to_nat i := v]> b.

(** [from_board_to_state]: the hashable key [(tuple(board), current_player)]. *)
Definition state_key : Type := (list Z * Z)%type.

Definition from_board_to_state (game : KalahGame) : state_key :=
  (board game, current_player game).

(** [valid_moves]: the non-empty pits of [player], or the sentinel alone. *)
Definition valid_moves (game : KalahGame) (player : Z) : list (option Z) :=
  let start := player * 7 in
  let moves := List.filter (fun i => 0 <? board_get (board game) i) (seqZ start 6) in
  match moves with
  | [] => [None]
  | _ => map Some moves
  end.

(** The sowing loop of [perform_move]:
<<
    while stones > 0:
        index = (index + 1) % 14
        if index == skip: continue
        self.board[index] += 1
        stones -= 1
>>
    One unit of fuel is one test of the loop condition followed by one pass
    through the body.  The function returns the loop variables when the loop
    exits or the fuel is spent; [sow_loop_exits] shows that [2 * stones] units
    always reach the exit. *)
Fixpoint sow_loop (fuel : nat) (b : list Z) (index stones skip : Z)
  : list Z * Z * Z :=
  match fuel with
  | O => (b, index, stones)
  | S fuel' =>
      if 0 <? stones then
        let index := (index + 1) mod 14 in
        if index =? skip then sow_loop fuel' b index stones skip
        else sow_loop fuel' (board_set b index (board_get b index + 1))
                      index (stones - 1) skip
      else (b, index, stones)
  end.

(** The capture rule, applied to the board after sowing. *)
Definition capture (b : list Z) (index player : Z) : list Z :=
  if (0 <=? index) && (index <? 6) && (player =? 0)
     && (board_get b index =? 1) && (0 <? board_get b (12 - index))
  then
    let b := board_set b 6 (board_get b 6 + (board_get b index + board_get b (12 - index))) in
    board_set (board_set b index 0) (12 - index) 0
  else if (7 <=? index) && (index <? 13) && (player =? 1)
     && (board_get b index =? 1) && (0 <? board_get b (12 - index))
  then
    let b := board_set b 13 (board_get b 13 + (board_get b index + board_get b (12 - index))) in
    board_set (board_set b index 0) (12 - index) 0
  else b.

(** [perform_move(move, player)]; the object is updated in place, here the
    updated object is returned. *)
Definition perform_move (game : KalahGame) (move : option Z) (player : Z)
  : KalahGame :=
  match move with
  | None => game
  | Some index =>
      let stones := board_get (board game) index in
      let b := board_set (board game) index 0 in
      let '(b, index, _) :=
        sow_loop (Z.to_nat (2 * stones)) b index stones
                 (if player =? 1 then 6 else 13) in
      let b := capture b index player in
      mkGame b
             (if index =? (if player =? 0 then 6 else 13)
              then current_player game else 1 - player)
             (Some index)
  end.

(** [is_on_player_side]; comparing [None] with an integer raises
    [TypeError], rendered as [None]. *)
Definition is_on_player_side (ending_pit : option Z) (player : Z) : option bool :=
  match ending_pit with
  | None => None
  | Some e =>
      Some (if player =? 0 then (0 <=? e) && (e <=? 6)
            else (7 <=? e) && (e <=? 13))
  end.

Definition get_seeds (game : KalahGame) (ending_pit : Z) : Z :=
  board_get (board game) ending_pit.

(** [get_opposite_pit]; the guard [ending_pit == 6 and ending_pit == 13] is
    as the source has it. *)
Definition get_opposite_pit (ending_pit : Z) : option Z :=
  if (ending_pit =? 6) && (ending_pit =? 13) then None
  else Some (12 - ending_pit).

Definition get_store (game : KalahGame) (player : Z) : Z :=
  if player =? 0 then board_get (board game) 6 else board_get (board game) 13.

(** [is_terminal]: [sum(board[:6]) == 0 or sum(board[7:13]) == 0]. *)
Definition is_terminal (game : KalahGame) : bool :=
  (zsum (take 6 (board game)) =? 0)
  || (zsum (take 6 (drop 7 (board game))) =? 0).

(** [result]: [sum(board[:7]) - sum(board[7:14])]. *)
Definition result (game : KalahGame) : Z :=
  zsum (take 7 (board game)) - zsum (take 7 (drop 7 (board game))).

(** A well-formed state: fourteen non-negative slots and player 0 or 1. *)
Definition wf_game (game : KalahGame) : Prop :=
  length (board game) = 14%nat
  /\ Forall (fun x => 0 <= x) (board game)
  /\ (current_player game = 0 \/ current_player game = 1).

(** States that play can reach from the initial position. *)
Inductive reachable : KalahGame -> Prop :=
| reachable_init : reachable new_game
| reachable_move game move :
    reachable game ->
    move ∈ valid_moves game (current_player game) ->
    reachable (perform_move game move (current_player game)).

(* ===================================================================== *)
(** * Kalahevaluate.py *)
(* ===================================================================== *)

(** [count_extra_moves]: the moves of [player] after which the player to move
    is still [player]. *)
Definition count_extra_moves (game : KalahGame) (player : Z) : Z :=
  foldl (fun extra_moves move =>
           let new_game := perform_move game move player in
           if current_player new_game =? player then extra_moves + 1
           else extra_moves)
        0 (valid_moves game player).

(** One pass through the body of the loop of [count_potential_captures];
    [None] is the [TypeError] of a comparison or an index that is [None]. *)
Definition potential_capture (game : KalahGame) (player : Z) (move : option Z)
  : option bool :=
  let new_game := perform_move game move player in
  let ending_pit := last_pit new_game in
  side ← is_on_player_side ending_pit player;
  e ← ending_pit;
  if side && (get_seeds new_game e =? 1) then
    opposite_pit ← get_opposite_pit e;
    Some (0 <? get_seeds new_game opposite_pit)
  else Some false.

Fixpoint count_potential_captures_from (game : KalahGame) (player : Z)
  (moves : list (option Z)) (potential_captures : Z) : option Z :=
  match moves with
  | [] => Some potential_captures
  | move :: moves =>
      hit ← potential_capture game player move;
      count_potential_captures_from game player moves
        (if hit : bool then potential_captures + 1 else potential_captures)
  end.

Definition count_potential_captures (game : KalahGame) (player : Z) : option Z :=
  count_potential_captures_from game player (valid_moves game player) 0.

(** [evaluate] with the default weights, in tenths. *)
Definition evaluate (game : KalahGame) (player : Z) : option Z :=
  let opponent := 1 - player in
  let store_diff := get_store game player - get_store game opponent in
  let extra_moves_player := count_extra_moves game player in
  let extra_moves_opponent := count_extra_moves game opponent in
  let extra_moves_diff := extra_moves_player - extra_moves_opponent in
  captures_player ← count_potential_captures game player;
  captures_opponent ← count_potential_captures game opponent;
  let capture_diff := captures_player - captures_opponent in
  Some (10 * store_diff + 7 * extra_moves_diff + 2 * capture_diff).

(** The conversion of a Python integer that meets a float in a product: the
    nearest binary64 number, ties to even; it is exact for integers below
    2^53 in size.  Beyond the range of binary64 (about 1.8e308) it is an
    infinity, where Python raises [OverflowError]. *)
Definition float_of_Z (z : Z) : float :=
  SF2Prim (binary_normalize prec emax z 0 false).

(** The default weights 1.0, 0.7 and 0.2, as binary64 reads these
    decimals. *)
Definition weight1 : float := 1%float.
Definition weight2 : float := 0x1.6666666666666p-1%float.
Definition weight3 : float := 0x1.999999999999ap-3%float.

(** [evaluate] with the default weights and the arithmetic of its last line
    in binary64, as the program computes it:
    [weight1 * store_diff + weight2 * extra_moves_diff + weight3 * capture_diff],
    from left to right. *)
Definition evaluate_float (game : KalahGame) (player : Z) : option float :=
  let opponent := 1 - player in
  let store_diff := get_store game player - get_store game opponent in
  let extra_moves_player := count_extra_moves game player in
  let extra_moves_opponent := count_extra_moves game opponent in
  let extra_moves_diff := extra_moves_player - extra_moves_opponent in
  captures_player ← count_potential_captures game player;
  captures_opponent ← count_potential_captures game opponent;
  let capture_diff := captures_player - captures_opponent in
  Some (weight1 * float_of_Z store_diff
        + weight2 * float_of_Z extra_moves_diff
        + weight3 * float_of_Z capture_diff)%float.

(* ===================================================================== *)
(** * KalahMinimax.py *)
(* ===================================================================== *)

(** Scores with the two infinities of [float('inf')]. *)
Inductive ext : Type := NegInf | Fin (z : Z) | PosInf.

Definition ext_ltb (a b : ext) : bool :=
  match a, b with
  | NegInf, NegInf => false
  | NegInf, _ => true
  | Fin x, Fin y => x <? y
  | Fin _, PosInf => true
  | _, _ => false
  end.

Definition ext_leb (a b : ext) : bool := negb (ext_ltb b a).

(** [max(a, b)] and [min(a, b)]: the first argument wins a tie. *)
Definition ext_max (a b : ext) : ext := if ext_ltb a b then b else a.
Definition ext_min (a b : ext) : ext := if ext_ltb b a then b else a.

Module KalahMinimax.

Definition search_result : Type := (ext * option Z)%type.

(** The leaf case: [return evaluate(game, minimax_player), None]. *)
Definition leaf (game : KalahGame) (minimax_player : Z) : option search_result :=
  score ← evaluate game minimax_player;
  Some (Fin score, None).

(** The loop of the maximizing branch; [rec] is the recursive call one ply
    down, [moves] the moves still to be tried. *)
Fixpoint max_loop (rec : KalahGame -> ext -> ext -> option search_result)
  (game : KalahGame) (current_player : Z) (moves : list (option Z))
  (alpha beta max_eval : ext) (best_move : option Z) : option search_result :=
  match moves with
  | [] => Some (max_eval, best_move)
  | move :: moves =>
      let new_game := perform_move game move current_player in
      r ← rec new_game alpha beta;
      let eval_score := fst r in
      let '(max_eval, best_move) :=
        if ext_ltb max_eval eval_score then (eval_score, move)
        else (max_eval, best_move) in
      let alpha := ext_max alpha eval_score in
      if ext_leb beta alpha then Some (max_eval, best_move)
      else max_loop rec game current_player moves alpha beta max_eval best_move
  end.

(** The loop of the minimizing branch. *)
Fixpoint min_loop (rec : KalahGame -> ext -> ext -> option search_result)
  (game : KalahGame) (current_player : Z) (moves : list (option Z))
  (alpha beta min_eval : ext) (best_move : option Z) : option search_result :=
  match moves with
  | [] => Some (min_eval, best_move)
  | move :: moves =>
      let new_game := perform_move game move current_player in
      r ← rec new_game alpha beta;
      let eval_score := fst r in
      let '(min_eval, best_move) :=
        if ext_ltb eval_score min_eval then (eval_score, move)
        else (min_eval, best_move) in
      let beta := ext_min beta eval_score in
      if ext_leb beta alpha then Some (min_eval, best_move)
      else min_loop rec game current_player moves alpha beta min_eval best_move
  end.

(** [minimax(game, depth, alpha, beta, minimax_player)] for [depth >= 0]. *)
Fixpoint minimax (game : KalahGame) (depth : nat) (alpha beta : ext)
  (minimax_player : Z) {struct depth} : option search_result :=
  match depth with
  | O => leaf game minimax_player
  | S depth' =>
      if is_terminal game then leaf game minimax_player
      else
        let current_player := current_player game in
        if current_player =? minimax_player then
          max_loop (fun g a b => minimax g depth' a b minimax_player)
                   game current_player (valid_moves game current_player)
                   alpha beta NegInf None
        else
          min_loop (fun g a b => minimax g depth' a b minimax_player)
                   game current_player (valid_moves game current_player)
                   alpha beta PosInf None
  end.

Definition minimax_move (game : KalahGame) (depth : nat) : option (option Z) :=
  r ← minimax game depth NegInf PosInf (current_player game);
  Some (snd r).

(** The reference search of the specification: the same recursion over the
    same moves with the same evaluator at the leaves, but every child is
    searched and no window is kept. *)
Fixpoint children_scores (rec : KalahGame -> option ext)
  (game : KalahGame) (current_player : Z) (moves : list (option Z))
  : option (list ext) :=
  match moves with
  | [] => Some []
  | move :: moves =>
      v ← rec (perform_move game move current_player);
      vs ← children_scores rec game current_player moves;
      Some (v :: vs)
  end.

Fixpoint brute_force_minimax (game : KalahGame) (depth : nat)
  (minimax_player : Z) {struct depth} : option ext :=
  match depth with
  | O => score ← evaluate game minimax_player; Some (Fin score)
  | S depth' =>
      if is_terminal game then
        score ← evaluate game minimax_player; Some (Fin score)
      else
        let current_player := current_player game in
        vs ← children_scores (fun g => brute_force_minimax g depth' minimax_player)
                             game current_player
                             (valid_moves game current_player);
        Some (if current_player =? minimax_player
              then foldl ext_max NegInf vs
              else foldl ext_min PosInf vs)
  end.

End KalahMinimax.

(* ===================================================================== *)
(** * KalahMCTS.py *)
(* ===================================================================== *)

(** Tree nodes refer to one another (a child to its parent, a parent to its
    children) and are updated in place.  The nodes of one search live in an
    arena, a list in order of creation, and a reference to a node is its index
    in that list; a node is created with a reference to a parent that already
    exists.  Rewards are the integers 1, -1 and 0, so the accumulated [value]
    is kept as an integer; the PUCT [prior], a quotient of two scores, is the
    binary64 number that the program computes.  The score that [best_child] maximizes (square roots and
    logarithms of the statistics) and the random generator behind [rollout]
    are taken as given: the first as an arbitrary real-valued function, the
    second as a store with the function that draws the next index from it. *)

Record MCTSNode : Type := mkNode {
  game_state : state_key;
  parent : option nat;
  move : option Z;
  children : list nat;
  visits : Z;
  value : Z;
  untried_moves : list (option Z);
  player : Z;
  rave_visits : gmap (option Z) Z;
  rave_value : gmap (option Z) Z;
  prior : float
}.

(** A function of the program that loops until a game has ended is run on
    fuel.  It returns, or it raises, or the fuel is spent before it has done
    either. *)
Inductive loop_result (A : Type) : Type :=
| Finished (a : A)
| Failed
| Unfinished.

Arguments Finished {A} a.
Arguments Failed {A}.
Arguments Unfinished {A}.

Definition bind_loop {A B : Type} (x : loop_result A) (k : A -> loop_result B)
  : loop_result B :=
  match x with
  | Finished a => k a
  | Failed => Failed
  | Unfinished => Unfinished
  end.

Section Random.

(** The random generator: its state, and [randbelow], which draws an index
    below [n] from it. *)
Variable W : Type.
Variable randbelow : W -> nat -> nat * W.

(** [random.choice(seq)], that is [seq[randbelow(len(seq))]]; [None] is the
    [IndexError] of an empty sequence. *)
Definition random_choice {A : Type} (w : W) (seq : list A) : option A * W :=
  let '(i, w) := randbelow w (length seq) in (seq !! i, w).

End Random.

Module MCTSNode.

(** [MCTSNode.get_game_copy]: a fresh game from the stored state; its
    [last_pit] is the [None] of [KalahGame.__init__]. *)
Definition get_game_copy_of (st : state_key) : KalahGame :=
  mkGame (fst st) (snd st) None.

Definition get_game_copy (self : MCTSNode) : KalahGame :=
  get_game_copy_of (game_state self).

Definition get_valid_moves_of (st : state_key) : list (option Z) :=
  let game := get_game_copy_of st in
  valid_moves game (current_player game).

(** [MCTSNode.__init__(game_state, parent, move, player)] *)
Definition init (st : state_key) (parent : option nat) (move : option Z)
  (player : Z) : MCTSNode :=
  mkNode st parent move [] 0 0 (get_valid_moves_of st) player ∅ ∅ 1%float.

Definition is_fully_expanded (self : MCTSNode) : bool :=
  (length (untried_moves self) =? 0)%nat.

(** [d[k] += x] on a [defaultdict] whose default is zero. *)
Definition dd_add (d : gmap (option Z) Z) (k : option Z) (x : Z)
  : gmap (option Z) Z :=
  <[k := default 0 (d !! k) + x]> d.

(** The updates [backpropagate] makes to the node itself. *)
Definition record_reward (self : MCTSNode) (reward : Z)
  (visited_moves : list (option Z)) (use_rave : bool) : MCTSNode :=
  let rv := if use_rave
            then foldl (fun d m => dd_add d m 1) (rave_visits self) visited_moves
            else rave_visits self in
  let rq := if use_rave
            then foldl (fun d m => dd_add d m reward) (rave_value self) visited_moves
            else rave_value self in
  mkNode (game_state self) (parent self) (move self) (children self)
         (visits self + 1) (value self + reward)
         (untried_moves self) (player self) rv rq (prior self).

(** [backpropagate(reward, visited_moves, use_rave)] on the node at index
    [self].  One unit of fuel is one call; a reference outside the arena
    gives [None]. *)
Fixpoint backpropagate_fuel (fuel : nat) (tree : list MCTSNode) (self : nat)
  (reward : Z) (visited_moves : list (option Z)) (use_rave : bool)
  : option (list MCTSNode) :=
  match fuel with
  | O => None
  | S fuel =>
      node ← tree !! self;
      let node := record_reward node reward visited_moves use_rave in
      let tree := <[self := node]> tree in
      match parent node with
      | None => Some tree
      | Some p =>
          parent_node ← tree !! p;
          if player parent_node =? player node
          then backpropagate_fuel fuel tree p reward visited_moves use_rave
          else backpropagate_fuel fuel tree p (- reward) visited_moves use_rave
      end
  end.

(** Parents are created before their children, so the chain of calls from
    the node at index [self] is at most [self + 1] long. *)
Definition backpropagate (tree : list MCTSNode) (self : nat) (reward : Z)
  (visited_moves : list (option Z)) (use_rave : bool) : option (list MCTSNode) :=
  backpropagate_fuel (S self) tree self reward visited_moves use_rave.

(** The loop of [expand] that scores every move of the state reached:
    [move_scores[m] = score; total_score += score], on binary64 scores. *)
Fixpoint score_moves (game : KalahGame) (moves : list (option Z))
  (move_scores : gmap (option Z) float) (total_score : float)
  : option (gmap (option Z) float * float) :=
  match moves with
  | [] => Some (move_scores, total_score)
  | m :: moves =>
      let temp_game := perform_move game m (current_player game) in
      score ← evaluate_float temp_game (current_player game);
      score_moves game moves (<[m := score]> move_scores)
                  (total_score + score)%float
  end.

(** The prior given to the new child when PUCT is enabled; [game] is the
    game after the expanded move has been played on it.  The test
    [total_score > 0] is the comparison of binary64, false on a sum that is
    not a number; [1 / len(...)] divides two integers, the second of them at
    most 6, which gives the binary64 quotient of the two. *)
Definition puct_prior (game : KalahGame) (move : option Z) : option float :=
  r ← score_moves game (valid_moves game (current_player game)) ∅ 0%float;
  let '(move_scores, total_score) := r in
  if (0 <? total_score)%float
  then Some (default 0%float (move_scores !! move) / total_score)%float
  else Some (1 / float_of_Z (Z.of_nat
               (length (valid_moves game (current_player game)))))%float.

Definition set_prior (self : MCTSNode) (p : float) : MCTSNode :=
  mkNode (game_state self) (parent self) (move self) (children self)
         (visits self) (value self) (untried_moves self) (player self)
         (rave_visits self) (rave_value self) p.

Definition set_untried_children (self : MCTSNode)
  (untried : list (option Z)) (children : list nat) : MCTSNode :=
  mkNode (game_state self) (parent self) (move self) children
         (visits self) (value self) untried (player self)
         (rave_visits self) (rave_value self) (prior self).

(** [expand(use_puct)] on the node at index [self]: the arena with the new
    child appended, and the child's index. *)
Definition expand (tree : list MCTSNode) (self : nat) (use_puct : bool)
  : option (list MCTSNode * nat) :=
  node ← tree !! self;
  let game := get_game_copy node in
  let untried := match untried_moves node with
                 | [] => valid_moves game (current_player game)
                 | _ => untried_moves node
                 end in
  move ← last untried;
  let untried := removelast untried in
  let game := perform_move game move (current_player game) in
  let new_state := from_board_to_state game in
  let child := init new_state (Some self) move (current_player game) in
  child ← (if use_puct
           then p ← puct_prior game move; Some (set_prior child p)
           else Some child);
  let id := length tree in
  let node := set_untried_children node untried (children node ++ [id]) in
  Some (<[self := node]> tree ++ [child], id).

Section BestChild.

(** The score of a child, as the inner function [score] of [best_child]
    computes it from the statistics of the child, of the node and, for GRAVE,
    of the node's ancestors. *)
Variable score : list MCTSNode -> nat -> nat -> R.

(** [best_child]: [max(self.children, key = score)], the first child with
    the largest score; [None] is the [ValueError] of [max] on a node that has
    no child. *)
Definition best_child (tree : list MCTSNode) (self : nat) : option nat :=
  node ← tree !! self;
  match children node with
  | [] => None
  | c :: cs =>
      Some (foldl (fun best c' =>
                     if Rlt_dec (score tree self best) (score tree self c')
                     then c' else best)
                  c cs)
  end.

End BestChild.

Section Rollout.

Variable W : Type.
Variable randbelow : W -> nat -> nat * W.

(** The loop of [rollout]; one unit of fuel is one pass through its body. *)
Fixpoint rollout_loop (fuel : nat) (w : W) (game : KalahGame)
  (visited_moves : list (option Z))
  : loop_result (W * KalahGame * list (option Z)) :=
  if is_terminal game then Finished (w, game, visited_moves)
  else
    match fuel with
    | O => Unfinished
    | S fuel =>
        let '(move, w) :=
          random_choice W randbelow w (valid_moves game (current_player game)) in
        match move with
        | None => Failed
        | Some move =>
            rollout_loop fuel w (perform_move game move (current_player game))
                         (visited_moves ++ [move])
        end
    end.

(** [rollout()]: the reward, 1, -1 or 0, and the moves played. *)
Definition rollout (fuel : nat) (w : W) (self : MCTSNode)
  : loop_result (W * (Z * list (option Z))) :=
  bind_loop (rollout_loop fuel w (get_game_copy self) []) (fun r =>
  let '(w, game, visited_moves) := r in
  let result := result game in
  let reward := if 0 <? result then 1 else if result <? 0 then -1 else 0 in
  Finished (w, (reward, visited_moves))).

End Rollout.

End MCTSNode.

(** [list.sort(key = key, reverse = True)]: a stable sort, largest key first;
    entries with equal keys keep their order. *)
Fixpoint insert_desc {A : Type} (key : A -> Q) (x : A) (l : list A) : list A :=
  match l with
  | [] => [x]
  | y :: l' =>
      if Qle_bool (key y) (key x) then x :: y :: l'
      else y :: insert_desc key x l'
  end.

Definition sort_desc {A : Type} (key : A -> Q) (l : list A) : list A :=
  foldr (insert_desc key) [] l.

Module KalahMCTS.

Section Drivers.

(** One playout below a candidate, [tree_policy] then [rollout] then
    [backpropagate], changes the arena and draws random moves.  It is taken as
    an arbitrary function of the arena and of a store [W] that holds the state
    of the random generator; its flag is the [use_rave] handed to
    [backpropagate]. *)
Variable W : Type.
Variable playout : bool -> W -> list MCTSNode -> nat -> W * list MCTSNode.

(** The loop that creates one child node per legal move of the root. *)
Fixpoint make_children (tree : list MCTSNode) (root_node : nat)
  (root : MCTSNode) (moves : list (option Z))
  (move_nodes : list (option Z * nat))
  : list MCTSNode * list (option Z * nat) :=
  match moves with
  | [] => (tree, move_nodes)
  | move :: moves =>
      let g_copy := MCTSNode.get_game_copy root in
      let g_copy := perform_move g_copy move (current_player g_copy) in
      let new_state := from_board_to_state g_copy in
      let child := MCTSNode.init new_state (Some root_node) move
                                 (current_player g_copy) in
      make_children (tree ++ [child]) root_node root moves
                    (move_nodes ++ [(move, length tree)])
  end.

(** [for _ in range(n): playout] on one node. *)
Fixpoint simulate_node (use_rave : bool) (n : nat) (w : W)
  (tree : list MCTSNode) (node : nat) : W * list MCTSNode :=
  match n with
  | O => (w, tree)
  | S n =>
      let '(w, tree) := playout use_rave w tree node in
      simulate_node use_rave n w tree node
  end.

(** [for _, node in move_nodes: for _ in range(n): playout]. *)
Fixpoint simulate_all (use_rave : bool) (n : nat) (w : W)
  (tree : list MCTSNode) (move_nodes : list (option Z * nat))
  : W * list MCTSNode :=
  match move_nodes with
  | [] => (w, tree)
  | (_, node) :: move_nodes =>
      let '(w, tree) := simulate_node use_rave n w tree node in
      simulate_all use_rave n w tree move_nodes
  end.

(** [node.value / (node.visits + 1e-4)] *)
Definition mean_value (tree : list MCTSNode) (node : nat) : Q :=
  match tree !! node with
  | Some n => Qdiv (inject_Z (value n)) (Qplus (inject_Z (visits n)) (1 # 10000))
  | None => 0%Q
  end.

(** The halving loop of [run_shot]; one unit of fuel is one round. *)
Fixpoint shot_loop (fuel : nat) (w : W) (tree : list MCTSNode)
  (k total_k budget : Z) (move_nodes : list (option Z * nat))
  : option (list (option Z * nat)) :=
  if 1 <? k then
    match fuel with
    | O => None
    | S fuel =>
        let simulations_per_node := budget / (k * Z.log2 (total_k + 1)) in
        let '(w, tree) :=
          simulate_all false (Z.to_nat simulations_per_node) w tree move_nodes in
        let move_nodes :=
          sort_desc (fun x => mean_value tree (snd x)) move_nodes in
        let k := k / 2 in
        let move_nodes := take (Z.to_nat (Z.max 1 k)) move_nodes in
        shot_loop fuel w tree k total_k budget move_nodes
    end
  else Some move_nodes.

(** [run_shot(root_node, budget)] with at most [fuel] halving rounds. *)
Definition run_shot (fuel : nat) (w : W) (tree : list MCTSNode)
  (root_node : nat) (budget : Z) : option (option Z) :=
  root ← tree !! root_node;
  let game := MCTSNode.get_game_copy root in
  let valid_moves := valid_moves game (current_player game) in
  let '(tree, move_nodes) := make_children tree root_node root valid_moves [] in
  let k := Z.of_nat (length move_nodes) in
  if k =? 1 then fst <$> head move_nodes
  else
    let total_k := k in
    move_nodes ← shot_loop fuel w tree k total_k budget move_nodes;
    fst <$> head move_nodes.

(** [shuss_score]: [q + (c or self.shuss_c) * (amaf / p)], read off the root's
    all-moves-as-first tables. *)
Definition shuss_score (tree : list MCTSNode) (root_node : nat)
  (c : option Q) (shuss_c : Q) (node : nat) : Q :=
  match tree !! node, tree !! root_node with
  | Some n, Some root =>
      let q := Qdiv (inject_Z (value n)) (Qplus (inject_Z (visits n)) (1 # 10000)) in
      let amaf := inject_Z (default 0 (rave_value root !! move n)) in
      let p := Qplus (inject_Z (default 0 (rave_visits root !! move n))) (1 # 10000) in
      let c := match c with
               | Some c => if Qeq_bool c 0 then shuss_c else c
               | None => shuss_c
               end in
      Qplus q (Qmult c (Qdiv amaf p))
  | _, _ => 0%Q
  end.

Fixpoint shuss_loop (fuel : nat) (w : W) (tree : list MCTSNode)
  (root_node : nat) (c : option Q) (shuss_c : Q)
  (k total_k b : Z) (move_nodes : list (option Z * nat))
  : option (list (option Z * nat)) :=
  if 1 <? k then
    match fuel with
    | O => None
    | S fuel =>
        let sims_per_node := b / (k * Z.log2 (total_k + 1)) in
        let '(w, tree) :=
          simulate_all true (Z.to_nat sims_per_node) w tree move_nodes in
        let move_nodes :=
          sort_desc (fun x => shuss_score tree root_node c shuss_c (snd x))
                    move_nodes in
        let k := k / 2 in
        let move_nodes := take (Z.to_nat (Z.max 1 k)) move_nodes in
        shuss_loop fuel w tree root_node c shuss_c k total_k b move_nodes
    end
  else Some move_nodes.

(** [run_shuss(root_node, budget, c)] with at most [fuel] halving rounds. *)
Definition run_shuss (fuel : nat) (w : W) (tree : list MCTSNode)
  (root_node : nat) (budget : Z) (c : option Q) (shuss_c : Q)
  : option (option Z) :=
  root ← tree !! root_node;
  let game := MCTSNode.get_game_copy root in
  let valid_moves := valid_moves game (current_player game) in
  let '(tree, move_nodes) := make_children tree root_node root valid_moves [] in
  let k := Z.of_nat (length move_nodes) in
  let total_k := k in
  if k =? 1 then fst <$> head move_nodes
  else
    let b := budget in
    move_nodes ← shuss_loop fuel w tree root_node c shuss_c k total_k b move_nodes;
    fst <$> head move_nodes.

End Drivers.

Section TreeSearch.

Variable W : Type.
Variable randbelow : W -> nat -> nat * W.

(** The score that [best_child] maximizes inside [tree_policy], and the one
    it maximizes at the end of [best_move], where the GRAVE threshold of the
    searcher is passed on. *)
Variable score : list MCTSNode -> nat -> nat -> R.
Variable root_score : list MCTSNode -> nat -> nat -> R.

Definition terminal_state (node : MCTSNode) : bool :=
  is_terminal (MCTSNode.get_game_copy node).

(** [tree_policy(node)]; one unit of fuel is one pass through the body of
    its loop.  A reference outside the arena fails. *)
Fixpoint tree_policy (fuel : nat) (use_puct : bool) (tree : list MCTSNode)
  (node : nat) : loop_result (list MCTSNode * nat) :=
  match tree !! node with
  | None => Failed
  | Some n =>
      if terminal_state n then Finished (tree, node)
      else
        match fuel with
        | O => Unfinished
        | S fuel =>
            if negb (MCTSNode.is_fully_expanded n) then
              match MCTSNode.expand tree node use_puct with
              | Some r => Finished r
              | None => Failed
              end
            else
              match MCTSNode.best_child score tree node with
              | Some child => tree_policy fuel use_puct tree child
              | None => Failed
              end
        end
  end.

(** One pass through the body of the loop of [best_move]: [tree_policy] from
    the root, [rollout] from the node reached, [backpropagate] from it. *)
Definition search_iteration (fuel : nat) (use_puct use_rave : bool) (w : W)
  (tree : list MCTSNode) (root : nat) : loop_result (W * list MCTSNode) :=
  bind_loop (tree_policy fuel use_puct tree root) (fun r =>
  let '(tree, node) := r in
  match tree !! node with
  | None => Failed
  | Some n =>
      bind_loop (MCTSNode.rollout W randbelow fuel w n) (fun r =>
      let '(w, (reward, visited_moves)) := r in
      match MCTSNode.backpropagate tree node reward visited_moves use_rave with
      | Some tree => Finished (w, tree)
      | None => Failed
      end)
  end).

Fixpoint search_loop (iterations fuel : nat) (use_puct use_rave : bool)
  (w : W) (tree : list MCTSNode) (root : nat)
  : loop_result (W * list MCTSNode) :=
  match iterations with
  | O => Finished (w, tree)
  | S iterations =>
      bind_loop (search_iteration fuel use_puct use_rave w tree root) (fun r =>
      search_loop iterations fuel use_puct use_rave (fst r) (snd r) root)
  end.

(** [best_move(game)] when neither [use_shot] nor [use_shuss] is set: a
    fresh root, [iterations] passes, and the move of the best child of the
    root.  The root is the node at index 0 of a fresh arena. *)
Definition best_move (iterations fuel : nat) (use_rave use_grave use_puct : bool)
  (w : W) (game : KalahGame) : loop_result (option Z) :=
  let root := MCTSNode.init (from_board_to_state game) None None
                            (current_player game) in
  bind_loop (search_loop iterations fuel use_puct (use_rave || use_grave)
                         w [root] 0%nat) (fun r =>
  match MCTSNode.best_child root_score (snd r) 0%nat with
  | None => Failed
  | Some child =>
      match snd r !! child with
      | None => Failed
      | Some n => Finished (move n)
      end
  end).

End TreeSearch.

End KalahMCTS.

(* ===================================================================== *)
(** * NRPA.py *)
(* ===================================================================== *)

(** Policy weights and probabilities are Python floats.  They are taken here
    as real numbers with exact arithmetic and the real exponential: rounding
    is not part of the embedding. *)

Module NRPA.

(** The policy: a [dict] from [(state, move)] to a weight. *)
Definition policy_key : Type := (state_key * option Z)%type.

(** [policy.get(key, 0)] *)
Definition policy_get (policy : gmap policy_key R) (key : policy_key) : R :=
  default 0%R (policy !! key).

(** [sum(xs)] on floats: a left fold from zero. *)
Definition rsum (xs : list R) : R := foldl Rplus 0%R xs.

(** [softmax_probs(policy, game, moves)]; [max] of an empty list raises
    [ValueError], rendered as [None]. *)
Definition softmax_probs (policy : gmap policy_key R) (game : KalahGame)
  (moves : list (option Z)) : option (list R) :=
  let state := from_board_to_state game in
  let weights := map (fun move => policy_get policy (state, move)) moves in
  match weights with
  | [] => None
  | w :: ws =>
      let max_weight := foldl Rmax w ws in
      let exp_weights := map (fun w => exp (w - max_weight)) weights in
      let total := rsum exp_weights in
      if Req_dec_T total 0
      then Some (replicate (length moves) (1 / INR (length moves))%R)
      else Some (map (fun w => (w / total)%R) exp_weights)
  end.

(** The inner loop of [adapt], [for i, m in enumerate(valid_moves)], with
    [probs] the probabilities from index [i] on. *)
Fixpoint adapt_moves (policy : gmap policy_key R) (state : state_key)
  (move : option Z) (valid_moves : list (option Z)) (probs : list R)
  : gmap policy_key R :=
  match valid_moves, probs with
  | m :: valid_moves, p :: probs =>
      let key := (state, m) in
      let w := policy_get policy key in
      let policy :=
        if decide (m = move) then <[key := (w + 1)%R]> policy
        else <[key := (w - p)%R]> policy in
      adapt_moves policy state move valid_moves probs
  | _, _ => policy
  end.

(** One pass through the body of the outer loop of [adapt]. *)
Definition adapt_pair (policy : gmap policy_key R) (move : option Z)
  (state : state_key) : option (gmap policy_key R) :=
  let moves := mkGame (fst state) (snd state) None in
  let valid_moves := valid_moves moves (current_player moves) in
  probs ← softmax_probs policy moves valid_moves;
  Some (adapt_moves policy state move valid_moves probs).

(** [adapt(policy, sequence)] *)
Fixpoint adapt (policy : gmap policy_key R)
  (sequence : list (option Z * state_key)) : option (gmap policy_key R) :=
  match sequence with
  | [] => Some policy
  | (move, state) :: sequence =>
      policy ← adapt_pair policy move state;
      adapt policy sequence
  end.

(** The update as the specification words it: the chosen move gains 1, and
    every legal move, the chosen one included, loses its probability. *)
Fixpoint adapt_moves_as_specified (policy : gmap policy_key R)
  (state : state_key) (move : option Z) (valid_moves : list (option Z))
  (probs : list R) : gmap policy_key R :=
  match valid_moves, probs with
  | m :: valid_moves, p :: probs =>
      let key := (state, m) in
      let w := policy_get policy key in
      let policy :=
        if decide (m = move) then <[key := (w + 1 - p)%R]> policy
        else <[key := (w - p)%R]> policy in
      adapt_moves_as_specified policy state move valid_moves probs
  | _, _ => policy
  end.

Definition adapt_pair_as_specified (policy : gmap policy_key R)
  (move : option Z) (state : state_key) : option (gmap policy_key R) :=
  let moves := mkGame (fst state) (snd state) None in
  let valid_moves := valid_moves moves (current_player moves) in
  probs ← softmax_probs policy moves valid_moves;
  Some (adapt_moves_as_specified policy state move valid_moves probs).

Section Rollouts.

(** The random generator: its state, and the index that
    [random.choices(moves, weights = move_probs)] draws from it. *)
Variable W : Type.
Variable weighted_index : W -> list R -> nat * W.

(** The loop of [nrpa_rollout]; one unit of fuel is one pass through its
    body.  A failure is the [ValueError] of [softmax_probs] or an index
    outside [moves]. *)
Fixpoint nrpa_rollout_loop (fuel : nat) (w : W) (policy : gmap policy_key R)
  (game : KalahGame) (sequence : list (option Z * state_key))
  : loop_result (W * KalahGame * list (option Z * state_key)) :=
  if is_terminal game then Finished (w, game, sequence)
  else
    match fuel with
    | O => Unfinished
    | S fuel =>
        let moves := valid_moves game (current_player game) in
        match softmax_probs policy game moves with
        | None => Failed
        | Some move_probs =>
            let '(i, w) := weighted_index w move_probs in
            match moves !! i with
            | None => Failed
            | Some move =>
                nrpa_rollout_loop fuel w policy
                  (perform_move game move (current_player game))
                  (sequence ++ [(move, from_board_to_state game)])
            end
        end
    end.

(** [nrpa_rollout(root, policy)]: the sequence played and its reward. *)
Definition nrpa_rollout (fuel : nat) (w : W) (root : MCTSNode)
  (policy : gmap policy_key R)
  : loop_result (W * (list (option Z * state_key) * ext)) :=
  bind_loop (nrpa_rollout_loop fuel w policy (MCTSNode.get_game_copy root) [])
    (fun r =>
  let '(w, game, sequence) := r in
  let result := result game in
  let reward := if 0 <? result then 1 else if result <? 0 then -1 else 0 in
  Finished (w, (sequence, Fin reward))).

(** The loop of [nrpa] at a level above 0; [rec] is the call one level down,
    which is handed a copy of the policy. *)
Fixpoint nrpa_loop
  (rec : W -> gmap policy_key R
         -> loop_result (W * (list (option Z * state_key) * ext)))
  (iterations : nat) (w : W) (policy : gmap policy_key R)
  (best_seq : list (option Z * state_key)) (best_score : ext)
  : loop_result (W * (list (option Z * state_key) * ext)) :=
  match iterations with
  | O => Finished (w, (best_seq, best_score))
  | S iterations =>
      bind_loop (rec w policy) (fun r =>
      let '(w, (sequence, score)) := r in
      let '(best_score, best_seq) :=
        if ext_ltb best_score score then (score, sequence)
        else (best_score, best_seq) in
      match adapt policy best_seq with
      | None => Failed
      | Some policy => nrpa_loop rec iterations w policy best_seq best_score
      end)
  end.

(** [nrpa(level, policy, iterations, root)]; [fuel] bounds the length of
    each rollout. *)
Fixpoint nrpa (level : nat) (fuel : nat) (w : W) (policy : gmap policy_key R)
  (iterations : nat) (root : MCTSNode)
  : loop_result (W * (list (option Z * state_key) * ext)) :=
  match level with
  | O => nrpa_rollout fuel w root policy
  | S level =>
      nrpa_loop (fun w policy => nrpa level fuel w policy iterations root)
                iterations w policy [] NegInf
  end.

End Rollouts.

End NRPA.

(* ===================================================================== *)
(** * UNMINIMAX.py *)
(* ===================================================================== *)

(** A call either returns a value or raises.  [RecursionDepth] stands for a
    chain of recursive calls longer than the fuel that was allowed. *)
Inductive error : Type := KeyError | ValueError | TypeError | RecursionDepth.

Inductive outcome (A : Type) : Type :=
| Return (a : A)
| Raise (e : error).

Arguments Return {A} a.
Arguments Raise {A} e.

Definition bind_outcome {A B : Type} (x : outcome A) (k : A -> outcome B)
  : outcome B :=
  match x with
  | Return a => k a
  | Raise e => Raise e
  end.

Module UBFM.

(** The inner dictionaries keep their keys in order of insertion, which
    decides ties in [max] and [min]: they are association lists.  The table
    [T] maps a state to such a dictionary. *)
Abbreviation actions := (list (option Z * Z)).

(** [d[a] = v]: the value is replaced in place, or the key is appended. *)
Fixpoint actions_set (d : actions) (a : option Z) (v : Z) : actions :=
  match d with
  | [] => [(a, v)]
  | (a', v') :: d' =>
      if decide (a' = a) then (a, v) :: d' else (a', v') :: actions_set d' a v
  end.

(** [d[a]] *)
Fixpoint actions_get (d : actions) (a : option Z) : outcome Z :=
  match d with
  | [] => Raise KeyError
  | (a', v') :: d' => if decide (a' = a) then Return v' else actions_get d' a
  end.

(** [max(actions, key = ...)] and [min(actions, key = ...)]: the first entry
    with the largest (smallest) value. *)
Definition better (player : Z) (best x : option Z * Z) : option Z * Z :=
  if player =? 0 then (if snd best <? snd x then x else best)
  else (if snd x <? snd best then x else best).

Section Search.

(** [self.eval], the evaluation function the searcher was built with;
    [None] is an exception raised by it. *)
Variable eval : KalahGame -> Z -> option Z.

Definition call_eval (state : KalahGame) (player : Z) : outcome Z :=
  match eval state player with
  | Some v => Return v
  | None => Raise TypeError
  end.

(** [best_action(state_key, player)] *)
Definition best_action (T : gmap state_key actions) (key : state_key)
  (player : Z) : outcome (option Z) :=
  match T !! key with
  | None => Raise KeyError
  | Some d =>
      match d with
      | [] => Raise ValueError
      | x :: d' => Return (fst (foldl (better player) x d'))
      end
  end.

(** The loop that fills the entry of a state met for the first time. *)
Fixpoint init_actions (state : KalahGame) (player : Z)
  (moves : list (option Z)) (d : actions) : outcome actions :=
  match moves with
  | [] => Return d
  | action :: moves =>
      let s_prime := perform_move state action (current_player state) in
      bind_outcome (call_eval s_prime player) (fun v =>
      init_actions state player moves (actions_set d action v))
  end.

(** [self.T[state_key][best_a]] at the end of an iteration. *)
Definition best_value (T : gmap state_key actions) (key : state_key)
  (player : Z) : outcome Z :=
  bind_outcome (best_action T key player) (fun best_a =>
  match T !! key with
  | None => Raise KeyError
  | Some d => actions_get d best_a
  end).

(** [unbounded_minimax_iteration(state, player)]; one unit of fuel is one
    call. *)
Fixpoint unbounded_minimax_iteration (fuel : nat) (T : gmap state_key actions)
  (state : KalahGame) (player : Z) : outcome (gmap state_key actions * Z) :=
  match fuel with
  | O => Raise RecursionDepth
  | S fuel =>
      if is_terminal state then
        bind_outcome (call_eval state player) (fun v => Return (T, v))
      else
        let key := from_board_to_state state in
        bind_outcome
          (match T !! key with
           | None =>
               bind_outcome
                 (init_actions state player
                    (valid_moves state (current_player state)) [])
                 (fun d => Return (<[key := d]> T))
           | Some _ =>
               bind_outcome (best_action T key player) (fun best_a =>
               let s_prime := perform_move state best_a (current_player state) in
               bind_outcome
                 (unbounded_minimax_iteration fuel T s_prime player)
                 (fun r =>
                    match fst r !! key with
                    | None => Raise KeyError
                    | Some d =>
                        Return (<[key := actions_set d best_a (snd r)]> (fst r))
                    end))
           end)
          (fun T => bind_outcome (best_value T key player) (fun v =>
                    Return (T, v)))
  end.

(** The loop of [run]: [passes] is the number of times the clock lets the
    body run before the time limit is reached. *)
Fixpoint run_loop (passes fuel : nat) (T : gmap state_key actions)
  (root_game : KalahGame) (player : Z) : outcome (gmap state_key actions) :=
  match passes with
  | O => Return T
  | S passes =>
      bind_outcome (unbounded_minimax_iteration fuel T root_game player)
        (fun r => run_loop passes fuel (fst r) root_game player)
  end.

(** [run(root_game, player, time_limit_seconds)] *)
Definition run (passes fuel : nat) (T : gmap state_key actions)
  (root_game : KalahGame) (player : Z) : outcome (option Z) :=
  bind_outcome (run_loop passes fuel T root_game player) (fun T =>
  let root_key := from_board_to_state root_game in
  best_action T root_key player).

End Search.

End UBFM.

(* ===================================================================== *)
(** * NMCS.py *)
(* ===================================================================== *)

(** The values of nested search are the rewards 1, -1 and 0, divided by the
    depth when [discounting] is set, and the two infinities: rational numbers
    with the infinities added.  The quotient is exact here; the program
    rounds it to a float. *)
Inductive qext : Type := QNegInf | QFin (q : Q) | QPosInf.

Definition qext_ltb (a b : qext) : bool :=
  match a, b with
  | QNegInf, QNegInf => false
  | QNegInf, _ => true
  | QFin x, QFin y => negb (Qle_bool y x)
  | QFin _, QPosInf => true
  | _, _ => false
  end.

Definition qext_leb (a b : qext) : bool := negb (qext_ltb b a).

(** [val == q] for a finite [q]. *)
Definition qext_eqb (a : qext) (q : Q) : bool :=
  match a with
  | QFin x => Qeq_bool x q
  | _ => false
  end.

Module NMCS.

(** [evaluate_terminal(game, discounting, depth)]; [None] is the
    [ZeroDivisionError] of a depth that is zero. *)
Definition evaluate_terminal (game : KalahGame) (discounting : bool)
  (depth : Z) : option Q :=
  let result := result game in
  let value := if 0 <? result then 1 else if result <? 0 then -1 else 0 in
  if discounting then
    if depth =? 0 then None
    else Some (Qdiv (inject_Z value) (inject_Z depth))
  else Some (inject_Z value).

Section Nested.

(** The random generator: its state, and the order in which
    [random.shuffle] leaves a list. *)
Variable W : Type.
Variable shuffle : W -> list (option Z) -> list (option Z) * W.

(** The loop of [nested] over the shuffled moves; [child_value] gives the
    value [val] of the state a move leads to, from the best value so far.
    The dictionary [values], which is written and never read, is left out.
    The last statement of the body is the pruning test, whose [continue]
    leads where the end of the body leads. *)
Fixpoint nested_loop (child_value : W -> KalahGame -> qext -> option (W * qext))
  (game : KalahGame) (player : Z) (bound : option qext)
  (discounting prune_on_depth cut_on_win : bool)
  (moves : list (option Z)) (w : W) (best_move : option Z) (best_value : qext)
  : option (W * (option Z * qext)) :=
  match moves with
  | [] => Some (w, (best_move, best_value))
  | move :: moves =>
      let g_copy := perform_move game move player in
      r ← child_value w g_copy best_value;
      let '(w, val) := r in
      let pruned :=
        prune_on_depth && discounting
        && match bound with
           | Some bound =>
               ((player =? 0) && qext_leb val bound)
               || ((player =? 1) && qext_leb bound val)
           | None => false
           end in
      if ((player =? 0) && qext_ltb best_value val)
         || ((player =? 1) && qext_ltb val best_value)
      then
        if cut_on_win
           && (((player =? 0) && qext_eqb val 1)
               || ((player =? 1) && qext_eqb val (-1)))
        then Some (w, (move, val))
        else if pruned
        then nested_loop child_value game player bound discounting
                         prune_on_depth cut_on_win moves w move val
        else nested_loop child_value game player bound discounting
                         prune_on_depth cut_on_win moves w move val
      else if pruned
      then nested_loop child_value game player bound discounting
                       prune_on_depth cut_on_win moves w best_move best_value
      else nested_loop child_value game player bound discounting
                       prune_on_depth cut_on_win moves w best_move best_value
  end.

(** [nested(game, level, depth, bound, discounting, prune_on_depth,
    cut_on_win)] for [level >= 0]. *)
Fixpoint nested (level : nat) (w : W) (game : KalahGame) (depth : Z)
  (bound : option qext) (discounting prune_on_depth cut_on_win : bool)
  {struct level} : option (W * (option Z * qext)) :=
  if is_terminal game then
    q ← evaluate_terminal game discounting depth;
    Some (w, (None, QFin q))
  else
    let player := current_player game in
    let best_value := if player =? 0 then QNegInf else QPosInf in
    let '(moves, w) := shuffle w (valid_moves game player) in
    nested_loop
      (match level with
       | O => fun w g_copy _ =>
           q ← evaluate_terminal g_copy discounting (depth + 1);
           Some (w, QFin q)
       | S level' => fun w g_copy best_value =>
           r ← nested level' w g_copy (depth + 1)
                      (if prune_on_depth then Some best_value else None)
                      discounting prune_on_depth cut_on_win;
           Some (fst r, snd (snd r))
       end)
      game player bound discounting prune_on_depth cut_on_win
      moves w None best_value.

(** [nmcs(game, level, discounting, prune_on_depth, cut_on_win)] *)
Definition nmcs (level : nat) (w : W) (game : KalahGame)
  (discounting prune_on_depth cut_on_win : bool)
  : option (W * (option Z * qext)) :=
  nested level w game 1 None discounting prune_on_depth cut_on_win.

End Nested.

End NMCS.

(* ===================================================================== *)
(** * tune_evaluate_weights.py *)
(* ===================================================================== *)

(** [evaluate(game, player, weight1, weight2, weight3)] with the weights
    given in tenths, as the scores are. *)
Definition evaluate_weighted (game : KalahGame) (player : Z)
  (weight1 weight2 weight3 : Z) : option Z :=
  let opponent := 1 - player in
  let store_diff := get_store game player - get_store game opponent in
  let extra_moves_player := count_extra_moves game player in
  let extra_moves_opponent := count_extra_moves game opponent in
  let extra_moves_diff := extra_moves_player - extra_moves_opponent in
  captures_player ← count_potential_captures game player;
  captures_opponent ← count_potential_captures game opponent;
  let capture_diff := captures_player - captures_opponent in
  Some (weight1 * store_diff + weight2 * extra_moves_diff
        + weight3 * capture_diff).

(** The loop of [greedy_move]. *)
Fixpoint greedy_loop (game : KalahGame) (curr_player : Z) (w1 w2 w3 : Z)
  (moves : list (option Z)) (best_move : option Z) (best_score : ext)
  : option (option Z) :=
  match moves with
  | [] => Some best_move
  | move :: moves =>
      let temp_game := perform_move game move curr_player in
      score ← evaluate_weighted temp_game curr_player w1 w2 w3;
      if ext_ltb best_score (Fin score)
      then greedy_loop game curr_player w1 w2 w3 moves move (Fin score)
      else greedy_loop game curr_player w1 w2 w3 moves best_move best_score
  end.

(** [greedy_move(game, w1, w2, w3)]; the outer [None] is an exception of the
    evaluator. *)
Definition greedy_move (game : KalahGame) (w1 w2 w3 : Z) : option (option Z) :=
  let curr_player := current_player game in
  greedy_loop game curr_player w1 w2 w3 (valid_moves game curr_player)
              None NegInf.

(* ===================================================================== *)
(** * Vocabulary of the statements *)
(* ===================================================================== *)

(** ** Extended scores and search windows *)

Definition elt (a b : ext) : Prop := ext_ltb a b = true.
Definition ele (a b : ext) : Prop := ext_ltb b a = false.

(** What a search with window [(alpha, beta)] promises about its result [r]
    when the full-width value is [v]: exact inside the window, and on the
    same side of the window outside it. *)
Definition window_sound (alpha beta r v : ext) : Prop :=
  (ext_ltb alpha v = true -> ext_ltb v beta = true -> r = v)
  /\ (ext_ltb alpha v = false -> ext_ltb alpha r = false)
  /\ (ext_ltb v beta = false -> ext_ltb r beta = false).

(** The state of the maximizing loop after some children: [acc] is the
    largest full-width value met so far, [alpha0] the window's lower end on
    entry. *)
Definition max_inv (alpha0 alpha max_eval acc : ext) : Prop :=
  (ext_ltb alpha0 acc = true -> max_eval = acc /\ alpha = acc)
  /\ (ext_ltb alpha0 acc = false ->
      ext_ltb alpha0 max_eval = false /\ alpha = alpha0).

Definition min_inv (beta0 beta min_eval acc : ext) : Prop :=
  (ext_ltb acc beta0 = true -> min_eval = acc /\ beta = acc)
  /\ (ext_ltb acc beta0 = false ->
      ext_ltb min_eval beta0 = false /\ beta = beta0).

Definition is_fin (a : ext) : Prop := exists z, a = Fin z.

(** The recursive call [rec] is sound, against the reference [brec], on the
    child reached by [move]. *)
Definition child_sound
  (rec : KalahGame -> ext -> ext -> option KalahMinimax.search_result)
  (brec : KalahGame -> option ext) (game : KalahGame) (cp : Z)
  (move : option Z) : Prop :=
  forall a b, ext_ltb a b = true ->
    exists r bm v,
      rec (perform_move game move cp) a b = Some (r, bm)
      /\ brec (perform_move game move cp) = Some v
      /\ window_sound a b r v.

(** Every child of [game] is searched soundly, one ply less deep. *)
Definition children_sound (minimax_player : Z) (game : KalahGame)
  (depth : nat) : Prop :=
  forall move, move ∈ valid_moves game (current_player game) ->
  forall a b, ext_ltb a b = true ->
    exists r bm z,
      KalahMinimax.minimax (perform_move game move (current_player game))
                           depth a b minimax_player = Some (r, bm)
      /\ KalahMinimax.brute_force_minimax
           (perform_move game move (current_player game)) depth minimax_player
         = Some (Fin z)
      /\ window_sound a b r (Fin z).

(** ** Search trees *)

(** The parent link of the node at index [i]. *)
Definition parent_of (tree : list MCTSNode) (i : nat) : option nat :=
  node ← tree !! i; parent node.

(** Every parent was created before its children. *)
Definition wf_tree (tree : list MCTSNode) : Prop :=
  forall i p, parent_of tree i = Some p -> (p < i)%nat.

(** The nodes from [start] up to the root. *)
Inductive on_path (tree : list MCTSNode) (start : nat) : nat -> Prop :=
| on_path_start : on_path tree start start
| on_path_parent n p :
    on_path tree start n -> parent_of tree n = Some p -> on_path tree start p.

(** What one call leaves behind: the shape of the tree is kept, nodes off
    the path are untouched, the start node receives [reward], and each parent
    on the path receives what its child received, negated when the two nodes
    belong to different players. *)
Definition backpropagated (tree tree' : list MCTSNode) (self : nat)
  (reward : Z) : Prop :=
  length tree' = length tree
  /\ (forall i n, tree !! i = Some n ->
        exists n', tree' !! i = Some n'
                   /\ parent n' = parent n /\ player n' = player n
                   /\ (~ on_path tree self i -> n' = n))
  /\ (forall n, tree !! self = Some n ->
        exists n', tree' !! self = Some n'
                   /\ value n' = value n + reward
                   /\ visits n' = visits n + 1)
  /\ (forall N P nN nP nN' nP',
        on_path tree self N -> parent_of tree N = Some P ->
        tree !! N = Some nN -> tree !! P = Some nP ->
        tree' !! N = Some nN' -> tree' !! P = Some nP' ->
        value nP' - value nP
        = if player nP =? player nN then value nN' - value nN
          else - (value nN' - value nN)).

(** A three-node path: the root, its child after the extra-turn move from
    pit 2 (same player), and that child's child after pit 5 (other player). *)
Definition sample_path : list MCTSNode :=
  let g0 := new_game in
  let g1 := perform_move g0 (Some 2) 0 in
  let g2 := perform_move g1 (Some 5) 0 in
  [ MCTSNode.init (from_board_to_state g0) None None (current_player g0);
    MCTSNode.init (from_board_to_state g1) (Some 0%nat) (Some 2) (current_player g1);
    MCTSNode.init (from_board_to_state g2) (Some 1%nat) (Some 5) (current_player g2) ].

Definition sample_root : MCTSNode :=
  MCTSNode.init (from_board_to_state new_game) None None 0.

(** A playout that only backpropagates a win from the candidate itself. *)
Definition sample_playout (use_rave : bool) (w : unit) (tree : list MCTSNode)
  (node : nat) : unit * list MCTSNode :=
  (w, default tree (MCTSNode.backpropagate tree node 1 [] use_rave)).

(** A position with all 48 stones on the board in which player 0 can only
    play pit 5, whose fourteen stones go once around the board and end in the
    player's own store. *)
Definition round_trip_board : list Z := [0; 0; 0; 0; 0; 14; 1; 5; 4; 3; 6; 7; 7; 1].


(** ** Progress of play *)

(** A stone in a pit weighs its distance to the end of its row plus one; a
    stone in a store weighs nothing.  A move that puts no stone in a store
    only pushes stones along the mover's row, towards lighter pits. *)
Definition pit_weights : list Z := [6; 5; 4; 3; 2; 1; 0; 6; 5; 4; 3; 2; 1; 0].

Definition pit_weight (i : Z) : Z := default 0 (pit_weights !! Z.to_nat i).

Definition potential (b : list Z) : Z := zsum (zip_with Z.mul pit_weights b).

Definition stores (b : list Z) : Z := board_get b 6 + board_get b 13.

(** The measure that bounds the length of play from a state. *)
Definition progress_measure (game : KalahGame) : Z :=
  let n := zsum (board game) in
  (n - stores (board game)) * (6 * n + 1) + potential (board game).

(** The state of the sowing loop, seen from the move that started it:
    either a store has gained a stone, or the hand is still over the mover's
    own row and the stones dropped so far have each lost weight. *)
Definition sowing_progress (p s0 phi0 s : Z) (b : list Z) (index stones : Z)
  : Prop :=
  length b = 14%nat
  /\ (s0 < stores b
      \/ (stores b = s0 /\ p * 7 <= index < p * 7 + 6
          /\ potential b + stones * pit_weight index <= phi0 - (s - stones))).

(** ** Transposition tables *)

(** A position in which player 0 has one stone left, in pit 5; playing it
    ends the game. *)
Definition last_stone_game : KalahGame :=
  mkGame [0; 0; 0; 0; 0; 1; 23; 4; 4; 4; 4; 4; 4; 0] 0 (Some 5).

Definition finished_game : KalahGame :=
  perform_move last_stone_game (Some 5) 0.

(** The game a table key stands for, and its legal moves. *)
Definition game_of (key : state_key) : KalahGame := mkGame (fst key) (snd key) None.

Definition legal_of (key : state_key) : list (option Z) :=
  valid_moves (game_of key) (snd key).

(** The entry of a state lists the legal moves of that state, in order. *)
Definition table_ok (T : gmap state_key UBFM.actions) : Prop :=
  forall key d, T !! key = Some d -> map fst d = legal_of key.

(** The entry created for a state met for the first time: each legal move
    with the static evaluation of the state it leads to. *)
Definition fresh_entry (eval : KalahGame -> Z -> option Z) (player : Z)
  (state : KalahGame) : UBFM.actions :=
  map (fun a => (a, default 0 (eval (perform_move state a (current_player state))
                                    player)))
      (valid_moves state (current_player state)).

(** What one call does to the table. *)
Definition grows (eval : KalahGame -> Z -> option Z) (player : Z)
  (state : KalahGame) (T T' : gmap state_key UBFM.actions) : Prop :=
  table_ok T'
  /\ (forall key, progress_measure state < progress_measure (game_of key) ->
        T' !! key = T !! key)
  /\ (forall key d, T !! key = Some d ->
        T' !! key = Some d
        \/ exists a v, a ∈ map fst d /\ T' !! key = Some (UBFM.actions_set d a v))
  /\ (T' = T /\ is_terminal state = true
      \/ (dom T' = dom T /\ size T' = size T)
      \/ exists s,
           wf_game s /\ is_terminal s = false
           /\ T !! from_board_to_state s = None
           /\ T' !! from_board_to_state s = Some (fresh_entry eval player s)
           /\ dom T' = {[ from_board_to_state s ]} ∪ dom T
           /\ size T' = S (size T)).

(** The value that an iteration hands back for [state] when it leaves the
    table [T]: the static evaluation of a terminal state, and otherwise the
    value stored for the best move in the entry of [state]. *)
Definition backed_up (eval : KalahGame -> Z -> option Z) (player : Z)
  (T : gmap state_key UBFM.actions) (state : KalahGame) : option Z :=
  if is_terminal state then eval state player
  else match UBFM.best_value T (from_board_to_state state) player with
       | Return v => Some v
       | Raise _ => None
       end.

(** The best line of a table from [state]: the known states it passes, each
    with the best move stored for it, and the state it ends in, which is
    terminal or has no entry yet. *)
Inductive best_line (T : gmap state_key UBFM.actions) (player : Z)
  : KalahGame -> list (KalahGame * option Z) -> KalahGame -> Prop :=
| best_line_end state :
    is_terminal state = true \/ T !! from_board_to_state state = None ->
    best_line T player state [] state
| best_line_step state a line last :
    is_terminal state = false ->
    UBFM.best_action T (from_board_to_state state) player = Return a ->
    best_line T player (perform_move state a (current_player state)) line last ->
    best_line T player state ((state, a) :: line) last.

(** The table after the first iteration at the start of the game: the entry
    of the initial position alone. *)
Definition root_table : gmap state_key UBFM.actions :=
  {[ from_board_to_state new_game := fresh_entry evaluate 0 new_game ]}.

(** What one call does to the table, along the best line: the value it
    returns, the entry it creates, the values it overwrites and the entries
    it leaves alone. *)
Definition along_line (eval : KalahGame -> Z -> option Z) (player : Z)
  (state : KalahGame) (T T' : gmap state_key UBFM.actions)
  (v : Z) (line : list (KalahGame * option Z)) (last : KalahGame) : Prop :=
  best_line T player state line last
  /\ backed_up eval player T' state = Some v
  /\ progress_measure last <= progress_measure state
  /\ (if is_terminal last
      then dom T' = dom T
      else T !! from_board_to_state last = None
           /\ T' !! from_board_to_state last = Some (fresh_entry eval player last)
           /\ dom T' = {[ from_board_to_state last ]} ∪ dom T)
  /\ (forall s a, (s, a) ∈ line ->
        progress_measure (perform_move s a (current_player s))
        < progress_measure s <= progress_measure state
        /\ exists d w,
             T !! from_board_to_state s = Some d
             /\ a ∈ map fst d
             /\ backed_up eval player T' (perform_move s a (current_player s))
                = Some w
             /\ T' !! from_board_to_state s = Some (UBFM.actions_set d a w))
  /\ (forall k d,
        (forall s a, (s, a) ∈ line -> k <> from_board_to_state s) ->
        T !! k = Some d -> T' !! k = Some d).

(** ** The rules of play *)

(** The index of a player's own store; the store that the player's sowing
    skips is the other player's. *)
Definition store_of (player : Z) : Z := if player =? 0 then 6 else 13.

(** The board after [stones] stones taken from pit [i] have been dropped one
    by one in the slots that follow it, none of them the skipped store. *)
Definition sown (b : list Z) (i stones : Z) (j : Z) : Z :=
  if j =? i then 0
  else if (i <? j) && (j <=? i + stones) then board_get b j + 1
  else board_get b j.

(** Sowing goes round a ring of thirteen slots, the fourteen of the board
    without the store that is skipped.  [ring_place skip j] is the place of
    slot [j] on that ring (the skipped store stands with the slot before it),
    and [ring_slot skip r] is the slot at place [r]. *)
Definition ring_place (skip j : Z) : Z := if j <? skip then j else j - 1.

Definition ring_slot (skip r : Z) : Z := if r <? skip then r else r + 1.

(** How many places after slot [i] slot [j] comes on the ring, from 1 to 13;
    a slot comes 13 places after itself. *)
Definition places_after (skip i j : Z) : Z :=
  (ring_place skip j - ring_place skip i - 1) mod 13 + 1.

(** The slot in which the last of [stones] stones sown from slot [i] lands. *)
Definition landing_slot (skip i stones : Z) : Z :=
  ring_slot skip ((ring_place skip i + stones) mod 13).

(** The stones in slot [j] once the [stones] stones of pit [i] have been sown,
    however many times they go round: the pit is emptied, every slot of the
    ring receives [stones / 13] stones and the first [stones mod 13] slots
    after the pit one more; the skipped store keeps its count. *)
Definition sown_round (skip : Z) (b : list Z) (i stones j : Z) : Z :=
  if j =? skip then board_get b j
  else (if j =? i then 0 else board_get b j)
       + stones / 13
       + (if places_after skip i j <=? stones mod 13 then 1 else 0).

(** A position in which player 0 captures after a lap of the board: the
    eight stones of pit 5 end in the empty pit 0, the seventh of them in
    pit 12 opposite. *)
Definition lap_capture_position : KalahGame :=
  mkGame [0; 1; 1; 1; 1; 8; 0; 4; 4; 4; 4; 4; 4; 12] 0 None.

(** How often the move [m] occurs in a list of moves. *)
Definition occurrences (m : option Z) (ms : list (option Z)) : Z :=
  Z.of_nat (length (filter (fun m' => m' = m) ms)).

(** ** Lines of play *)

(** The state reached by playing the moves of a line, each as the player to
    move. *)
Definition play (game : KalahGame) (moves : list (option Z)) : KalahGame :=
  foldl (fun g m => perform_move g m (current_player g)) game moves.

(** Every move of the line is taken from a pit and is legal where it is
    played. *)
Fixpoint legal_line (game : KalahGame) (moves : list (option Z)) : Prop :=
  match moves with
  | [] => True
  | m :: ms =>
      (exists i, m = Some i)
      /\ m ∈ valid_moves game (current_player game)
      /\ legal_line (perform_move game m (current_player game)) ms
  end.

(** A generator that keeps its promise: the index drawn is below the bound. *)
Definition randbelow_ok {W : Type} (randbelow : W -> nat -> nat * W) : Prop :=
  forall w n, (0 < n)%nat -> (fst (randbelow w n) < n)%nat.

(** A generator that always draws the first index. *)
Definition first_index (w : unit) (n : nat) : nat * unit := (0%nat, w).

(** ** Search trees grown from a root *)

(** The legal moves of the state a node stands for. *)
Definition legal_moves (n : MCTSNode) : list (option Z) :=
  MCTSNode.get_valid_moves_of (game_state n).

(** What the tree of a search keeps true, for a bound [M] on the measure of
    its states: parents were created before their children; every node holds
    a well-formed state; its untried moves are legal in that state; a node
    with no untried move left has a child; and the children of a node are
    nodes of the tree, created after it, reached by a legal move. *)
Definition search_tree (M : Z) (tree : list MCTSNode) : Prop :=
  wf_tree tree
  /\ forall i n, tree !! i = Some n ->
       wf_game (MCTSNode.get_game_copy n)
       /\ progress_measure (MCTSNode.get_game_copy n) <= M
       /\ (forall m, m ∈ untried_moves n -> m ∈ legal_moves n)
       /\ (untried_moves n = [] -> children n <> [])
       /\ (forall c, c ∈ children n ->
             (i < c)%nat
             /\ exists cn, tree !! c = Some cn /\ move cn ∈ legal_moves n).

(** Two records of one node that differ in its statistics only. *)
Definition same_shape (n n' : MCTSNode) : Prop :=
  game_state n' = game_state n /\ parent n' = parent n /\ move n' = move n
  /\ children n' = children n /\ untried_moves n' = untried_moves n.

(** What a pass of the search keeps of the tree it started from: every node
    is still there, stands for the same state, and has a child if it had
    one. *)
Definition kept (tree tree' : list MCTSNode) : Prop :=
  forall i n, tree !! i = Some n ->
    exists m, tree' !! i = Some m
              /\ game_state m = game_state n
              /\ (children n <> [] -> children m <> []).

(** A position with two stones left, one on each side. *)
Definition two_stone_game : KalahGame :=
  mkGame [0; 0; 0; 0; 1; 0; 0; 0; 0; 0; 0; 0; 1; 0] 0 None.

(** A score that is the same for every child. *)
Definition flat_score (tree : list MCTSNode) (self child : nat) : R := 0%R.

(** ** Sequences recorded by NRPA *)

(** A sequence of [(move, state)] pairs that records a line of legal moves
    from pits: each state is the key of the state in which the move is
    played. *)
Fixpoint recorded_line (game : KalahGame)
  (sequence : list (option Z * state_key)) : Prop :=
  match sequence with
  | [] => True
  | (m, st) :: rest =>
      st = from_board_to_state game
      /\ (exists i, m = Some i)
      /\ m ∈ valid_moves game (current_player game)
      /\ recorded_line (perform_move game m (current_player game)) rest
  end.

(** What a call of [nrpa] hands back: a recorded line of play that ends the
    game, with the sign of its result. *)
Definition finished_line (game : KalahGame)
  (r : list (option Z * state_key) * ext) : Prop :=
  exists s,
    snd r = Fin s
    /\ recorded_line game (fst r)
    /\ is_terminal (play game (map fst (fst r))) = true
    /\ s = Z.sgn (result (play game (map fst (fst r)))).

(** A weighted draw that keeps its promise: the index drawn is an index of
    the list of weights. *)
Definition weighted_index_ok {W : Type}
  (weighted_index : W -> list R -> nat * W) : Prop :=
  forall w ps, ps <> [] -> (fst (weighted_index w ps) < length ps)%nat.

(** A weighted draw that always takes the first index. *)
Definition first_weighted (w : unit) (ps : list R) : nat * unit := (0%nat, w).

(** A policy that prefers pit 0 and avoids pit 3 at the start of the game,
    and the same policy with every weight of that state raised by one. *)
Definition uneven_policy : gmap NRPA.policy_key R :=
  <[(from_board_to_state new_game, Some 0) := 2%R]>
    (<[(from_board_to_state new_game, Some 3) := (-1)%R]> ∅).

Definition raised_policy : gmap NRPA.policy_key R :=
  <[(from_board_to_state new_game, Some 0) := 3%R]>
    (<[(from_board_to_state new_game, Some 1) := 1%R]>
       (<[(from_board_to_state new_game, Some 2) := 1%R]>
          (<[(from_board_to_state new_game, Some 3) := 0%R]>
             (<[(from_board_to_state new_game, Some 4) := 1%R]>
                (<[(from_board_to_state new_game, Some 5) := 1%R]> ∅))))).

(** ** Values of nested search *)

(** A value that is neither the reward 1 nor the reward -1. *)
Definition not_a_win (v : qext) : Prop :=
  qext_eqb v 1 = false /\ qext_eqb v (-1) = false.

(** A shuffle that keeps its promise: it returns the moves it was given, in
    some order. *)
Definition shuffle_ok {W : Type}
  (shuffle : W -> list (option Z) -> list (option Z) * W) : Prop :=
  forall w moves, Permutation (fst (shuffle w moves)) moves.

(** A shuffle that leaves the list as it is. *)
Definition no_shuffle (w : unit) (moves : list (option Z))
  : list (option Z) * unit := (moves, w).

(** A value that [nested] can hold at depth [depth] with discounting on: an
    infinity, or one of the rewards 1, 0 and -1 divided by a depth that is at
    least [depth]. *)
Definition discounted_from (depth : Z) (v : qext) : Prop :=
  match v with
  | QFin q => exists r d, (r = -1 \/ r = 0 \/ r = 1) /\ depth <= d
                          /\ q = (inject_Z r / inject_Z d)%Q
  | _ => True
  end.

(* ===================================================================== *)
(** * Properties *)
(* ===================================================================== *)

Example minimax_initial_depth2 :
  KalahMinimax.minimax new_game 2 NegInf PosInf 0 = Some (Fin 11, Some 2).
Proof. vm_compute. reflexivity. Qed.

(* --------------------------------------------------------------------- *)
(** ** Board accesses *)
(* --------------------------------------------------------------------- *)

Section BoardLemmas.

Implicit Types (b : list Z) (i j v : Z).

Lemma board_get_nonneg_index b i :
  0 <= i -> board_get b i = default 0 (b !! Z.to_nat i).
Proof.
  intros Hi. unfold board_get.
  destruct (i <? 0) eqn:E; [lia|].
  rewrite E. reflexivity.
Qed.

Lemma length_board_set b i v : length (board_set b i v) = length b.
Proof. apply length_insert. Qed.

Lemma board_get_set_eq b i v :
  0 <= i < Z.of_nat (length b) -> board_get (board_set b i v) i = v.
Proof.
  intros Hi. rewrite board_get_nonneg_index by lia.
  unfold board_set. rewrite list_lookup_insert_eq by lia. reflexivity.
Qed.

Lemma board_get_set_ne b i j v :
  0 <= i -> 0 <= j -> i <> j -> board_get (board_set b i v) j = board_get b j.
Proof.
  intros Hi Hj Hne. rewrite !board_get_nonneg_index by lia.
  unfold board_set. rewrite list_lookup_insert_ne by lia. reflexivity.
Qed.

Lemma zsum_app (xs ys : list Z) : zsum (xs ++ ys) = zsum xs + zsum ys.
Proof. induction xs as [|x xs IH]; simpl; lia. Qed.

Lemma zsum_insert (xs : list Z) (n : nat) v :
  (n < length xs)%nat ->
  zsum (<[n := v]> xs) = zsum xs - default 0 (xs !! n) + v.
Proof.
  revert n. induction xs as [|x xs IH]; intros n Hn; simpl in *; [lia|].
  destruct n as [|n]; simpl; [lia|].
  rewrite IH by lia. lia.
Qed.

Lemma zsum_board_set b i v :
  0 <= i < Z.of_nat (length b) ->
  zsum (board_set b i v) = zsum b - board_get b i + v.
Proof.
  intros Hi. unfold board_set. rewrite zsum_insert by lia.
  rewrite board_get_nonneg_index by lia. reflexivity.
Qed.

Lemma zsum_nonneg (xs : list Z) : Forall (fun x => 0 <= x) xs -> 0 <= zsum xs.
Proof. induction 1; simpl; lia. Qed.

Lemma board_get_nonneg b i :
  Forall (fun x => 0 <= x) b -> 0 <= board_get b i.
Proof.
  intros Hb. unfold board_get.
  destruct (_ <? 0); [lia|].
  destruct (b !! _) as [x|] eqn:E; simpl; [|lia].
  eapply Forall_lookup_1 in Hb; eauto.
Qed.

Lemma Forall_nonneg_board_set b i v :
  Forall (fun x => 0 <= x) b -> 0 <= v ->
  Forall (fun x => 0 <= x) (board_set b i v).
Proof. intros Hb Hv. unfold board_set. apply Forall_insert; auto. Qed.

End BoardLemmas.

(* --------------------------------------------------------------------- *)
(** ** The sowing loop *)
(* --------------------------------------------------------------------- *)

Section Sowing.

Implicit Types (b : list Z) (index stones skip : Z).

(** The loop keeps the board's length, and the stones on the board plus those
    still in hand. *)
Lemma sow_loop_conserves fuel : forall b index stones skip b' index' stones',
  length b = 14%nat ->
  sow_loop fuel b index stones skip = (b', index', stones') ->
  length b' = 14%nat /\ zsum b' + stones' = zsum b + stones.
Proof.
  induction fuel as [|fuel IH]; intros b index stones skip b' index' stones' Hlen H;
    simpl in H.
  - inversion H; subst; auto.
  - destruct (0 <? stones) eqn:Hs; [|inversion H; subst; auto].
    pose proof (Z.mod_pos_bound (index + 1) 14 ltac:(lia)) as Hm.
    destruct ((index + 1) mod 14 =? skip) eqn:Hk.
    + eapply IH in H; eauto.
    + eapply IH in H; [|rewrite length_board_set; auto].
      destruct H as [Hl Hz]. split; [auto|].
      rewrite Hz, zsum_board_set by lia. lia.
Qed.

(** With [2 * stones] units of fuel (one less right after a skipped store)
    the loop runs to its exit: no stone is left in hand. *)
Lemma sow_loop_exits_gen fuel : forall b index stones skip,
  0 <= stones ->
  2 * stones - (if index =? skip then 1 else 0) <= Z.of_nat fuel ->
  snd (sow_loop fuel b index stones skip) = 0.
Proof.
  induction fuel as [|fuel IH]; intros b index stones skip Hs Hf; simpl.
  - revert Hf. destruct (index =? skip); lia.
  - destruct (0 <? stones) eqn:Hpos; simpl; [|lia].
    pose proof (Z.mod_pos_bound (index + 1) 14 ltac:(lia)) as Hm.
    destruct ((index + 1) mod 14 =? skip) eqn:Hk.
    + apply IH; [lia|]. rewrite Hk.
      destruct (index =? skip) eqn:Hi; [|lia].
      (* two consecutive indices cannot both be the skipped store *)
      exfalso. apply Z.eqb_eq in Hi, Hk. subst index.
      destruct (Z.eq_dec skip 13) as [E|E].
      * subst skip. vm_compute in Hk. discriminate.
      * rewrite Z.mod_small in Hk by lia. lia.
    + apply IH; [lia|]. rewrite Hk.
      revert Hf. destruct (index =? skip); lia.
Qed.

Lemma sow_loop_exits b index stones skip :
  0 <= stones ->
  snd (sow_loop (Z.to_nat (2 * stones)) b index stones skip) = 0.
Proof.
  intros Hs. apply sow_loop_exits_gen; [lia|].
  destruct (index =? skip); lia.
Qed.

(** After at least one pass the index lies on the board. *)
Lemma sow_loop_index fuel : forall b index stones skip,
  0 <= index < 14 ->
  0 <= snd (fst (sow_loop fuel b index stones skip)) < 14.
Proof.
  induction fuel as [|fuel IH]; intros b index stones skip Hi; simpl; [auto|].
  destruct (0 <? stones); simpl; [|auto].
  pose proof (Z.mod_pos_bound (index + 1) 14 ltac:(lia)) as Hm.
  destruct (_ =? skip); apply IH; auto.
Qed.

Lemma sow_loop_nonneg fuel : forall b index stones skip,
  Forall (fun x => 0 <= x) b ->
  Forall (fun x => 0 <= x) (fst (fst (sow_loop fuel b index stones skip))).
Proof.
  induction fuel as [|fuel IH]; intros b index stones skip Hb; simpl; [auto|].
  destruct (0 <? stones); simpl; [|auto].
  destruct (_ =? skip); apply IH; auto.
  apply Forall_nonneg_board_set; auto.
  pose proof (board_get_nonneg b ((index + 1) mod 14) Hb). lia.
Qed.

End Sowing.

(* --------------------------------------------------------------------- *)
(** ** Legal moves and [perform_move] *)
(* --------------------------------------------------------------------- *)

Section Moves.

Implicit Types (game : KalahGame) (move : option Z) (player : Z).

Lemma valid_moves_cases game player move :
  move ∈ valid_moves game player ->
  move = None
  \/ exists i, move = Some i /\ player * 7 <= i < player * 7 + 6
               /\ 0 < board_get (board game) i.
Proof.
  unfold valid_moves. intros Hin.
  destruct (List.filter _ _) as [|m ms] eqn:E.
  - left. apply list_elem_of_singleton in Hin. exact Hin.
  - right. rewrite <- E in Hin. apply list_elem_of_fmap in Hin.
    destruct Hin as (i & -> & Hi). exists i. split; [reflexivity|].
    apply list_elem_of_In, filter_In in Hi. destruct Hi as [Hi Hpos].
    apply list_elem_of_In, elem_of_seqZ in Hi. lia.
Qed.

Lemma valid_moves_nonempty game player : valid_moves game player <> [].
Proof.
  unfold valid_moves. destruct (List.filter _ _); simpl; discriminate.
Qed.

Lemma capture_length b index player :
  length (capture b index player) = length b.
Proof.
  unfold capture.
  repeat match goal with |- context [if ?c then _ else _] => destruct c end;
    rewrite ?length_board_set; reflexivity.
Qed.

Lemma capture_zsum b index player :
  length b = 14%nat -> zsum (capture b index player) = zsum b.
Proof.
  intros Hlen. unfold capture.
  destruct ((0 <=? index) && (index <? 6) && (player =? 0)
            && (board_get b index =? 1) && (0 <? board_get b (12 - index))) eqn:C0.
  - repeat (apply andb_prop in C0; destruct C0 as [C0 ?]).
    rewrite !zsum_board_set by (rewrite ?length_board_set; lia).
    rewrite !board_get_set_ne by lia. lia.
  - destruct ((7 <=? index) && (index <? 13) && (player =? 1)
            && (board_get b index =? 1) && (0 <? board_get b (12 - index))) eqn:C1;
      [|reflexivity].
    repeat (apply andb_prop in C1; destruct C1 as [C1 ?]).
    rewrite !zsum_board_set by (rewrite ?length_board_set; lia).
    rewrite !board_get_set_ne by lia. lia.
Qed.

Lemma capture_nonneg b index player :
  Forall (fun x => 0 <= x) b -> Forall (fun x => 0 <= x) (capture b index player).
Proof.
  intros Hb. unfold capture.
  pose proof (board_get_nonneg b 6 Hb).
  pose proof (board_get_nonneg b 13 Hb).
  pose proof (board_get_nonneg b index Hb).
  pose proof (board_get_nonneg b (12 - index) Hb).
  repeat match goal with |- context [if ?c then _ else _] => destruct c end;
    repeat apply Forall_nonneg_board_set; auto; lia.
Qed.

(** The stones are conserved by any move from a slot of the board that
    does not hold a negative count, whoever is said to play it. *)
Lemma perform_move_zsum game i player :
  length (board game) = 14%nat ->
  0 <= i < 14 ->
  0 <= board_get (board game) i ->
  zsum (board (perform_move game (Some i) player)) = zsum (board game)
  /\ length (board (perform_move game (Some i) player)) = 14%nat.
Proof.
  intros Hlen Hi Hs. unfold perform_move.
  set (stones := board_get (board game) i) in *.
  set (skip := if player =? 1 then 6 else 13).
  pose proof (sow_loop_exits (board_set (board game) i 0) i stones skip Hs) as Hexit.
  destruct (sow_loop _ _ _ _ _) as [[b' index'] stones'] eqn:E.
  simpl in Hexit. subst stones'.
  apply sow_loop_conserves in E; [|rewrite length_board_set; auto].
  destruct E as [Hl Hz]. simpl.
  rewrite capture_zsum, capture_length by auto. split; [|auto].
  rewrite zsum_board_set in Hz by lia. fold stones in Hz. lia.
Qed.

Lemma perform_move_wf game move player :
  wf_game game -> (player = 0 \/ player = 1) ->
  move ∈ valid_moves game player ->
  wf_game (perform_move game move player).
Proof.
  intros (Hlen & Hnn & Hcp) Hp Hin.
  apply valid_moves_cases in Hin.
  destruct Hin as [->|(i & -> & Hi & Hpos)]; [repeat split; auto|].
  destruct (perform_move_zsum game i player) as [_ Hl]; [auto|lia|lia|].
  split; [exact Hl|]. revert Hl. unfold perform_move.
  pose proof (sow_loop_nonneg (Z.to_nat (2 * board_get (board game) i))
                (board_set (board game) i 0) i (board_get (board game) i)
                (if player =? 1 then 6 else 13)) as Hsn.
  destruct (sow_loop _ _ _ _ _) as [[b' index'] stones']. simpl in *.
  intros _. split.
  - apply capture_nonneg, Hsn, Forall_nonneg_board_set; [auto|lia].
  - destruct (index' =? _); [auto|]. lia.
Qed.

Lemma reachable_invariant game :
  reachable game -> wf_game game /\ zsum (board game) = 48.
Proof.
  induction 1 as [|game move Hr [Hwf Hsum] Hin].
  - split; [|reflexivity].
    repeat split; [|left; reflexivity].
    repeat constructor; lia.
  - assert (Hcp : current_player game = 0 \/ current_player game = 1)
      by apply Hwf.
    split; [apply perform_move_wf; auto|].
    destruct Hwf as (Hlen & _ & _).
    apply valid_moves_cases in Hin.
    destruct Hin as [->|(i & -> & Hi & Hpos)]; [exact Hsum|].
    destruct (perform_move_zsum game i (current_player game)) as [Hz _];
      [auto|lia|lia|]. lia.
Qed.

End Moves.

(** C9. Applying the sentinel no-move leaves the state as it was: the board,
    the player to move and the last pit are those of the state before the
    call, for every state and every player; in particular the turn does not
    pass to the opponent. *)
Theorem perform_move_none_unchanged (game : KalahGame) (player : Z) :
  perform_move game None player = game
  /\ board (perform_move game None player) = board game
  /\ current_player (perform_move game None player) = current_player game
  /\ last_pit (perform_move game None player) = last_pit game.
Proof. repeat split. Qed.

(** C10. On every state reachable from the initial position, a legal move of
    either player (played as that player) leaves the sum of the fourteen board
    entries unchanged, and every reachable state holds exactly 48 stones. *)
Theorem perform_move_preserves_stones (game : KalahGame) (player : Z)
    (move : option Z) :
  reachable game ->
  player = 0 \/ player = 1 ->
  move ∈ valid_moves game player ->
  zsum (board (perform_move game move player)) = zsum (board game)
  /\ length (board (perform_move game move player)) = 14%nat
  /\ zsum (board game) = 48.
Proof.
  intros Hr Hp Hin.
  destruct (reachable_invariant game Hr) as [Hwf Hsum].
  pose proof (perform_move_wf game move player Hwf Hp Hin) as Hwf'.
  destruct Hwf as (Hlen & _ & _).
  split; [|split; [apply Hwf'|exact Hsum]].
  apply valid_moves_cases in Hin.
  destruct Hin as [->|(i & -> & Hi & Hpos)]; [reflexivity|].
  apply perform_move_zsum; [auto|lia|lia].
Qed.

Lemma perform_move_preserves_stones_witness :
  zsum (board (perform_move new_game (Some 2) 0)) = zsum (board new_game)
  /\ length (board (perform_move new_game (Some 2) 0)) = 14%nat
  /\ zsum (board new_game) = 48.
Proof.
  apply (perform_move_preserves_stones new_game 0 (Some 2)).
  - constructor.
  - left; reflexivity.
  - vm_compute. apply list_elem_of_In. simpl. tauto.
Defined.

(* --------------------------------------------------------------------- *)
(** ** The order on extended scores *)
(* --------------------------------------------------------------------- *)

Section ExtOrder.

Lemma ele_refl a : ele a a.
Proof. unfold ele. destruct a; simpl; auto. apply Z.ltb_irrefl. Qed.

Lemma elt_ele a b : elt a b -> ele a b.
Proof.
  unfold elt, ele. destruct a, b; simpl; try discriminate; auto.
  rewrite Z.ltb_lt, Z.ltb_ge. lia.
Qed.

Lemma ele_trans a b c : ele a b -> ele b c -> ele a c.
Proof.
  unfold ele. destruct a, b, c; simpl; try discriminate; auto.
  rewrite !Z.ltb_ge. lia.
Qed.

Lemma elt_ele_false a b : elt a b -> ele b a -> False.
Proof. unfold elt, ele. congruence. Qed.

Lemma ele_antisym a b : ele a b -> ele b a -> a = b.
Proof.
  unfold ele. destruct a, b; simpl; try discriminate; auto.
  rewrite !Z.ltb_ge. intros. f_equal. lia.
Qed.

End ExtOrder.

(** A small decision procedure for goals about the order: the comparisons
    in the context are closed under transitivity, the goal is refuted. *)
Ltac ext_fold :=
  repeat match goal with
    | H : ext_ltb ?a ?b = true |- _ => change (elt a b) in H
    | H : ext_ltb ?a ?b = false |- _ => change (ele b a) in H
    end.

Ltac ext_saturate :=
  repeat match goal with
    | H : elt ?a ?b |- _ =>
        lazymatch goal with
        | _ : ele a b |- _ => fail
        | _ => pose proof (elt_ele a b H)
        end
    end;
  repeat match goal with
    | H1 : ele ?a ?b, H2 : ele ?b ?c |- _ =>
        lazymatch goal with
        | _ : ele a c |- _ => fail
        | _ => pose proof (ele_trans a b c H1 H2)
        end
    end.

Ltac ext_false :=
  try discriminate; ext_fold; ext_saturate;
  match goal with
  | H : elt ?x ?y, H' : ele ?y ?x |- _ =>
      exact (False_ind _ (elt_ele_false x y H H'))
  end.

Ltac ext_goal :=
  try discriminate; try reflexivity;
  lazymatch goal with
  | |- ext_ltb ?a ?b = true =>
      destruct (ext_ltb a b) eqn:?; [reflexivity|ext_false]
  | |- ext_ltb ?a ?b = false =>
      destruct (ext_ltb a b) eqn:?; [ext_false|reflexivity]
  | |- @Logic.eq ext ?a ?b =>
      apply ele_antisym;
      [ change (ext_ltb b a = false) | change (ext_ltb a b = false) ];
      [ destruct (ext_ltb b a) eqn:?; [ext_false|reflexivity]
      | destruct (ext_ltb a b) eqn:?; [ext_false|reflexivity] ]
  | |- _ => exfalso; ext_false
  end.

Ltac ext_split :=
  unfold ext_leb, ext_max, ext_min in *;
  repeat match goal with
    | H : context [if ext_ltb ?a ?b then _ else _] |- _ =>
        let E := fresh "E" in
        destruct (ext_ltb a b) eqn:E; try rewrite E in H
    | |- context [if ext_ltb ?a ?b then _ else _] =>
        let E := fresh "E" in destruct (ext_ltb a b) eqn:E
    end;
  rewrite ?negb_true_iff, ?negb_false_iff in *.

Ltac ext_order := ext_split; solve [ext_goal].

(* --------------------------------------------------------------------- *)
(** ** The evaluator is defined once a move has been played *)
(* --------------------------------------------------------------------- *)

Section EvaluatorTotal.

Implicit Types (game : KalahGame) (move : option Z) (player : Z).

Lemma perform_move_last_pit game move player :
  is_Some (last_pit game) -> is_Some (last_pit (perform_move game move player)).
Proof.
  intros H. destruct move as [i|]; [|exact H].
  unfold perform_move. destruct (sow_loop _ _ _ _ _) as [[? ?] ?]. simpl. eauto.
Qed.

Lemma perform_move_some_last_pit game i player :
  is_Some (last_pit (perform_move game (Some i) player)).
Proof.
  unfold perform_move. destruct (sow_loop _ _ _ _ _) as [[? ?] ?]. simpl. eauto.
Qed.

Lemma potential_capture_some game player move :
  is_Some (last_pit game) -> is_Some (potential_capture game player move).
Proof.
  intros H. unfold potential_capture.
  destruct (perform_move_last_pit game move player H) as [e ->]. simpl.
  destruct (_ && _); [|eauto].
  unfold get_opposite_pit.
  destruct (_ && _) eqn:E; simpl; [|eauto].
  apply andb_prop in E. destruct E as [E1 E2]. lia.
Qed.

Lemma count_potential_captures_from_some game player moves : forall acc,
  is_Some (last_pit game) ->
  is_Some (count_potential_captures_from game player moves acc).
Proof.
  induction moves as [|m ms IH]; intros acc H; simpl; [eauto|].
  destruct (potential_capture_some game player m H) as [hit ->]. simpl.
  apply IH, H.
Qed.

Lemma evaluate_some game player :
  is_Some (last_pit game) -> is_Some (evaluate game player).
Proof.
  intros H. unfold evaluate, count_potential_captures.
  destruct (count_potential_captures_from_some game player
              (valid_moves game player) 0 H) as [c1 ->].
  destruct (count_potential_captures_from_some game (1 - player)
              (valid_moves game (1 - player)) 0 H) as [c2 ->].
  simpl. eauto.
Qed.

(** The evaluator in binary64 raises where the evaluator in tenths does, and
    nowhere else. *)
Lemma evaluate_float_defined game player :
  is_Some (evaluate_float game player) <-> is_Some (evaluate game player).
Proof.
  unfold evaluate_float, evaluate.
  destruct (count_potential_captures game player) as [c1|]; simpl;
    [|split; intros [? ?]; discriminate].
  destruct (count_potential_captures game (1 - player)) as [c2|]; simpl;
    [split; eauto|split; intros [? ?]; discriminate].
Qed.

Lemma evaluate_float_some game player :
  is_Some (last_pit game) -> is_Some (evaluate_float game player).
Proof.
  intros H. apply evaluate_float_defined, evaluate_some, H.
Qed.

(** On a well-formed state that is not terminal the side to move has a
    stone to play: no legal move is the sentinel. *)
Lemma zsum_pos_lookup (xs : list Z) :
  Forall (fun x => 0 <= x) xs -> zsum xs <> 0 ->
  exists (n : nat) x, xs !! n = Some x /\ 0 < x.
Proof.
  induction 1 as [|x xs Hx Hxs IH]; simpl; intros Hs; [lia|].
  destruct (Z.eq_dec x 0) as [->|Hne].
  - destruct IH as (n & y & Hn & Hy); [lia|]. exists (S n), y. auto.
  - exists 0%nat, x. split; [reflexivity|lia].
Qed.

Lemma valid_moves_not_terminal game move :
  wf_game game -> is_terminal game = false ->
  move ∈ valid_moves game (current_player game) ->
  exists i, move = Some i.
Proof.
  intros (Hlen & Hnn & Hcp) Hterm Hin.
  destruct (valid_moves_cases _ _ _ Hin) as [->|(i & -> & _)]; [|eauto].
  exfalso. unfold is_terminal in Hterm.
  apply orb_false_elim in Hterm. destruct Hterm as [T0 T1].
  apply Z.eqb_neq in T0, T1.
  unfold valid_moves in Hin.
  destruct (List.filter _ _) as [|m ms] eqn:E;
    [|apply list_elem_of_fmap in Hin; destruct Hin as (? & ? & _); discriminate].
  clear Hin.
  assert (Hnone : forall i, current_player game * 7 <= i < current_player game * 7 + 6 ->
                            board_get (board game) i <= 0).
  { intros i Hi. destruct (Z.ltb_spec 0 (board_get (board game) i)) as [Hp|]; [|lia].
    exfalso. assert (Hf : In i (List.filter (fun i => 0 <? board_get (board game) i)
                                   (seqZ (current_player game * 7) 6))).
    { apply filter_In. split; [|lia]. apply list_elem_of_In, elem_of_seqZ. lia. }
    rewrite E in Hf. destruct Hf. }
  destruct Hcp as [Hcp|Hcp]; rewrite Hcp in Hnone.
  - destruct (zsum_pos_lookup (take 6 (board game))) as (n & x & Hn & Hx);
      [apply Forall_take; auto|auto|].
    pose proof (lookup_lt_Some _ _ _ Hn) as Hlt. rewrite length_take in Hlt.
    rewrite lookup_take_lt in Hn by lia.
    specialize (Hnone (Z.of_nat n) ltac:(lia)).
    rewrite board_get_nonneg_index, Nat2Z.id, Hn in Hnone by lia. simpl in Hnone. lia.
  - destruct (zsum_pos_lookup (take 6 (drop 7 (board game)))) as (n & x & Hn & Hx);
      [apply Forall_take, Forall_drop; auto|auto|].
    pose proof (lookup_lt_Some _ _ _ Hn) as Hlt. rewrite length_take in Hlt.
    rewrite lookup_take_lt, lookup_drop in Hn by lia.
    specialize (Hnone (7 + Z.of_nat n) ltac:(lia)).
    rewrite board_get_nonneg_index in Hnone by lia.
    replace (Z.to_nat (7 + Z.of_nat n)) with (7 + n)%nat in Hnone by lia.
    rewrite Hn in Hnone. simpl in Hnone. lia.
Qed.

End EvaluatorTotal.

(* --------------------------------------------------------------------- *)
(** ** Alpha-beta against the full-width search *)
(* --------------------------------------------------------------------- *)

Section AlphaBeta.

Import KalahMinimax.

Lemma foldl_ext_max_ge (vs : list ext) : forall acc,
  ext_ltb (foldl ext_max acc vs) acc = false.
Proof.
  induction vs as [|v vs IH]; intros acc; simpl; [ext_order|].
  specialize (IH (ext_max acc v)). ext_order.
Qed.

Lemma foldl_ext_min_le (vs : list ext) : forall acc,
  ext_ltb acc (foldl ext_min acc vs) = false.
Proof.
  induction vs as [|v vs IH]; intros acc; simpl; [ext_order|].
  specialize (IH (ext_min acc v)). ext_order.
Qed.

Ltac window_cases Hinv Hw alpha0 acc a v1 b :=
  let Hin := fresh "Hin" in let Hout := fresh "Hout" in
  let Hw1 := fresh "Hw" in let Hw2 := fresh "Hw" in let Hw3 := fresh "Hw" in
  destruct Hinv as [Hin Hout]; destruct Hw as (Hw1 & Hw2 & Hw3);
  destruct (ext_ltb alpha0 acc) eqn:?;
  [destruct (Hin eq_refl)|destruct (Hout eq_refl)]; clear Hin Hout;
  destruct (ext_ltb a v1) eqn:?; destruct (ext_ltb v1 b) eqn:?;
  try specialize (Hw1 eq_refl eq_refl);
  try specialize (Hw2 eq_refl); try specialize (Hw3 eq_refl);
  subst.

Lemma max_step_cut alpha0 alpha beta max_eval acc r1 v1 total :
  ext_ltb alpha0 beta = true ->
  ext_ltb alpha beta = true ->
  max_inv alpha0 alpha max_eval acc ->
  window_sound alpha beta r1 v1 ->
  ext_leb beta (ext_max alpha r1) = true ->
  ext_ltb total (ext_max acc v1) = false ->
  window_sound alpha0 beta (if ext_ltb max_eval r1 then r1 else max_eval) total.
Proof.
  intros H0 Ha Hinv Hw Hcut Htot.
  window_cases Hinv Hw alpha0 acc alpha v1 beta;
    unfold window_sound; repeat split; intros; ext_order.
Qed.

Lemma max_step_next alpha0 alpha beta max_eval acc r1 v1 :
  ext_ltb alpha0 beta = true ->
  ext_ltb alpha beta = true ->
  max_inv alpha0 alpha max_eval acc ->
  window_sound alpha beta r1 v1 ->
  ext_leb beta (ext_max alpha r1) = false ->
  ext_ltb (ext_max alpha r1) beta = true
  /\ max_inv alpha0 (ext_max alpha r1)
             (if ext_ltb max_eval r1 then r1 else max_eval) (ext_max acc v1).
Proof.
  intros H0 Ha Hinv Hw Hcut.
  window_cases Hinv Hw alpha0 acc alpha v1 beta;
    unfold max_inv; repeat split; intros; ext_order.
Qed.

Lemma max_inv_done alpha0 alpha beta max_eval acc :
  ext_ltb alpha0 beta = true ->
  ext_ltb alpha beta = true ->
  max_inv alpha0 alpha max_eval acc ->
  window_sound alpha0 beta max_eval acc.
Proof.
  intros H0 Ha [Hin Hout].
  destruct (ext_ltb alpha0 acc) eqn:?;
    [destruct (Hin eq_refl)|destruct (Hout eq_refl)]; clear Hin Hout; subst;
    unfold window_sound; repeat split; intros; ext_order.
Qed.

Lemma min_step_cut alpha beta0 beta min_eval acc r1 v1 total :
  ext_ltb alpha beta0 = true ->
  ext_ltb alpha beta = true ->
  min_inv beta0 beta min_eval acc ->
  window_sound alpha beta r1 v1 ->
  ext_leb (ext_min beta r1) alpha = true ->
  ext_ltb (ext_min acc v1) total = false ->
  window_sound alpha beta0 (if ext_ltb r1 min_eval then r1 else min_eval) total.
Proof.
  intros H0 Ha Hinv Hw Hcut Htot.
  window_cases Hinv Hw acc beta0 alpha v1 beta;
    unfold window_sound; repeat split; intros; ext_order.
Qed.

Lemma min_step_next alpha beta0 beta min_eval acc r1 v1 :
  ext_ltb alpha beta0 = true ->
  ext_ltb alpha beta = true ->
  min_inv beta0 beta min_eval acc ->
  window_sound alpha beta r1 v1 ->
  ext_leb (ext_min beta r1) alpha = false ->
  ext_ltb alpha (ext_min beta r1) = true
  /\ min_inv beta0 (ext_min beta r1)
             (if ext_ltb r1 min_eval then r1 else min_eval) (ext_min acc v1).
Proof.
  intros H0 Ha Hinv Hw Hcut.
  window_cases Hinv Hw acc beta0 alpha v1 beta;
    unfold min_inv; repeat split; intros; ext_order.
Qed.

Lemma min_inv_done alpha beta0 beta min_eval acc :
  ext_ltb alpha beta0 = true ->
  ext_ltb alpha beta = true ->
  min_inv beta0 beta min_eval acc ->
  window_sound alpha beta0 min_eval acc.
Proof.
  intros H0 Ha [Hin Hout].
  destruct (ext_ltb acc beta0) eqn:?;
    [destruct (Hin eq_refl)|destruct (Hout eq_refl)]; clear Hin Hout; subst;
    unfold window_sound; repeat split; intros; ext_order.
Qed.

Section Loops.

Variables (rec : KalahGame -> ext -> ext -> option search_result)
          (brec : KalahGame -> option ext)
          (game : KalahGame) (cp : Z).

Lemma children_scores_some moves :
  Forall (child_sound rec brec game cp) moves ->
  exists vs, children_scores brec game cp moves = Some vs.
Proof.
  induction 1 as [|m ms Hm _ [vs IH]]; simpl; [eauto|].
  destruct (Hm NegInf PosInf eq_refl) as (? & ? & v & _ & -> & _).
  rewrite IH. simpl. eauto.
Qed.

Lemma max_loop_sound alpha0 beta : forall moves alpha max_eval best_move acc,
  Forall (child_sound rec brec game cp) moves ->
  ext_ltb alpha0 beta = true ->
  ext_ltb alpha beta = true ->
  max_inv alpha0 alpha max_eval acc ->
  exists r bm vs,
    max_loop rec game cp moves alpha beta max_eval best_move = Some (r, bm)
    /\ children_scores brec game cp moves = Some vs
    /\ window_sound alpha0 beta r (foldl ext_max acc vs).
Proof.
  induction moves as [|move moves IH];
    intros alpha max_eval best_move acc Hch H0 Ha Hinv; simpl.
  - exists max_eval, best_move, [].
    split; [reflexivity|]. split; [reflexivity|]. simpl.
    eapply max_inv_done; eauto.
  - inversion Hch as [|? ? Hm Hms]; subst.
    destruct (Hm alpha beta Ha) as (r1 & bm1 & v1 & -> & Hb & Hw).
    destruct (children_scores_some moves Hms) as [vs Hvs].
    rewrite Hb. simpl.
    destruct (ext_leb beta (ext_max alpha r1)) eqn:Ecut.
    + rewrite Hvs. simpl.
      exists (if ext_ltb max_eval r1 then r1 else max_eval),
             (if ext_ltb max_eval r1 then move else best_move), (v1 :: vs).
      split; [destruct (ext_ltb max_eval r1); reflexivity|].
      split; [reflexivity|]. simpl.
      eapply max_step_cut; eauto. apply foldl_ext_max_ge.
    + destruct (max_step_next _ _ _ _ _ _ _ H0 Ha Hinv Hw Ecut) as [Ha' Hinv'].
      destruct (IH (ext_max alpha r1)
                   (if ext_ltb max_eval r1 then r1 else max_eval)
                   (if ext_ltb max_eval r1 then move else best_move)
                   (ext_max acc v1) Hms H0 Ha' Hinv')
        as (r & bm & vs' & Hl & Hc & Hs).
      rewrite Hc. simpl. exists r, bm, (v1 :: vs').
      split; [destruct (ext_ltb max_eval r1); exact Hl|].
      split; [reflexivity|exact Hs].
Qed.

Lemma min_loop_sound alpha beta0 : forall moves beta min_eval best_move acc,
  Forall (child_sound rec brec game cp) moves ->
  ext_ltb alpha beta0 = true ->
  ext_ltb alpha beta = true ->
  min_inv beta0 beta min_eval acc ->
  exists r bm vs,
    min_loop rec game cp moves alpha beta min_eval best_move = Some (r, bm)
    /\ children_scores brec game cp moves = Some vs
    /\ window_sound alpha beta0 r (foldl ext_min acc vs).
Proof.
  induction moves as [|move moves IH];
    intros beta min_eval best_move acc Hch H0 Ha Hinv; simpl.
  - exists min_eval, best_move, [].
    split; [reflexivity|]. split; [reflexivity|]. simpl.
    eapply min_inv_done; eauto.
  - inversion Hch as [|? ? Hm Hms]; subst.
    destruct (Hm alpha beta Ha) as (r1 & bm1 & v1 & -> & Hb & Hw).
    destruct (children_scores_some moves Hms) as [vs Hvs].
    rewrite Hb. simpl.
    destruct (ext_leb (ext_min beta r1) alpha) eqn:Ecut.
    + rewrite Hvs. simpl.
      exists (if ext_ltb r1 min_eval then r1 else min_eval),
             (if ext_ltb r1 min_eval then move else best_move), (v1 :: vs).
      split; [destruct (ext_ltb r1 min_eval); reflexivity|].
      split; [reflexivity|]. simpl.
      eapply min_step_cut; eauto. apply foldl_ext_min_le.
    + destruct (min_step_next _ _ _ _ _ _ _ H0 Ha Hinv Hw Ecut) as [Ha' Hinv'].
      destruct (IH (ext_min beta r1)
                   (if ext_ltb r1 min_eval then r1 else min_eval)
                   (if ext_ltb r1 min_eval then move else best_move)
                   (ext_min acc v1) Hms H0 Ha' Hinv')
        as (r & bm & vs' & Hl & Hc & Hs).
      rewrite Hc. simpl. exists r, bm, (v1 :: vs').
      split; [destruct (ext_ltb r1 min_eval); exact Hl|].
      split; [reflexivity|exact Hs].
Qed.

End Loops.

Lemma foldl_ext_max_fin (vs : list ext) : forall acc,
  Forall is_fin vs -> is_fin acc \/ (acc = NegInf /\ vs <> []) ->
  is_fin (foldl ext_max acc vs).
Proof.
  induction vs as [|v vs IH]; intros acc Hvs Hacc; simpl.
  - destruct Hacc as [H|[_ H]]; [exact H|congruence].
  - inversion Hvs as [|? ? [z ->] Hvs']; subst.
    apply IH; [exact Hvs'|]. left. unfold ext_max.
    destruct Hacc as [[y ->]|[-> _]]; simpl; [|eexists; reflexivity].
    destruct (y <? z); eexists; reflexivity.
Qed.

Lemma foldl_ext_min_fin (vs : list ext) : forall acc,
  Forall is_fin vs -> is_fin acc \/ (acc = PosInf /\ vs <> []) ->
  is_fin (foldl ext_min acc vs).
Proof.
  induction vs as [|v vs IH]; intros acc Hvs Hacc; simpl.
  - destruct Hacc as [H|[_ H]]; [exact H|congruence].
  - inversion Hvs as [|? ? [z ->] Hvs']; subst.
    apply IH; [exact Hvs'|]. left. unfold ext_min.
    destruct Hacc as [[y ->]|[-> _]]; simpl; [|eexists; reflexivity].
    destruct (z <? y); eexists; reflexivity.
Qed.

Lemma children_scores_fin brec game cp : forall moves vs,
  Forall (fun move => exists z, brec (perform_move game move cp) = Some (Fin z)) moves ->
  children_scores brec game cp moves = Some vs ->
  Forall is_fin vs /\ (moves <> [] -> vs <> []).
Proof.
  induction moves as [|m ms IH]; intros vs Hall H; simpl in H.
  - inversion H; subst. split; [constructor|congruence].
  - inversion Hall as [|? ? [z Hz] Hms]; subst.
    rewrite Hz in H. simpl in H.
    destruct (children_scores brec game cp ms) as [vs'|] eqn:E; [|discriminate].
    simpl in H. inversion H; subst.
    destruct (IH vs' Hms eq_refl) as [Hf _].
    split; [constructor; [eexists; reflexivity|exact Hf]|congruence].
Qed.

Variable minimax_player : Z.

Lemma node_sound game depth alpha beta :
  is_terminal game = false ->
  children_sound minimax_player game depth ->
  ext_ltb alpha beta = true ->
  exists r bm z,
    minimax game (S depth) alpha beta minimax_player = Some (r, bm)
    /\ brute_force_minimax game (S depth) minimax_player = Some (Fin z)
    /\ window_sound alpha beta r (Fin z).
Proof.
  intros Hterm Hch Hab. simpl. rewrite Hterm.
  set (cp := current_player game) in *.
  set (rec := fun g a b => minimax g depth a b minimax_player).
  set (brec := fun g => brute_force_minimax g depth minimax_player).
  assert (Hcs : Forall (child_sound rec brec game cp) (valid_moves game cp)).
  { apply Forall_forall. intros move Hin a b Hlt.
    destruct (Hch move Hin a b Hlt) as (r & bm & z & H1 & H2 & H3).
    exists r, bm, (Fin z). auto. }
  assert (Hfin : Forall (fun move => exists z,
                   brec (perform_move game move cp) = Some (Fin z))
                   (valid_moves game cp)).
  { apply Forall_forall. intros move Hin.
    destruct (Hch move Hin NegInf PosInf eq_refl) as (r & bm & z & _ & H2 & _).
    eauto. }
  destruct (cp =? minimax_player).
  - destruct (max_loop_sound rec brec game cp alpha beta (valid_moves game cp)
                alpha NegInf None NegInf Hcs Hab Hab)
      as (r & bm & vs & Hl & Hc & Hs).
    { split; intros H; [destruct alpha; discriminate|].
      split; [destruct alpha; reflexivity|reflexivity]. }
    destruct (children_scores_fin _ _ _ _ _ Hfin Hc) as [Hf Hne].
    destruct (foldl_ext_max_fin vs NegInf Hf) as [z Hz].
    { right. split; [reflexivity|]. apply Hne, valid_moves_nonempty. }
    rewrite Hl, Hc. simpl. rewrite Hz in *. exists r, bm, z. auto.
  - destruct (min_loop_sound rec brec game cp alpha beta (valid_moves game cp)
                beta PosInf None PosInf Hcs Hab Hab)
      as (r & bm & vs & Hl & Hc & Hs).
    { split; intros H; [destruct beta; discriminate|].
      split; [destruct beta; reflexivity|reflexivity]. }
    destruct (children_scores_fin _ _ _ _ _ Hfin Hc) as [Hf Hne].
    destruct (foldl_ext_min_fin vs PosInf Hf) as [z Hz].
    { right. split; [reflexivity|]. apply Hne, valid_moves_nonempty. }
    rewrite Hl, Hc. simpl. rewrite Hz in *. exists r, bm, z. auto.
Qed.

Lemma leaf_sound game alpha beta :
  is_Some (last_pit game) ->
  exists z,
    leaf game minimax_player = Some (Fin z, None)
    /\ evaluate game minimax_player = Some z
    /\ window_sound alpha beta (Fin z) (Fin z).
Proof.
  intros Hl. destruct (evaluate_some game minimax_player Hl) as [z Hz].
  exists z. unfold leaf. rewrite Hz. simpl.
  repeat split; auto.
Qed.

(** Alpha-beta is sound on every state in which a move has been played. *)
Lemma minimax_sound : forall depth game alpha beta,
  wf_game game -> is_Some (last_pit game) ->
  ext_ltb alpha beta = true ->
  exists r bm z,
    minimax game depth alpha beta minimax_player = Some (r, bm)
    /\ brute_force_minimax game depth minimax_player = Some (Fin z)
    /\ window_sound alpha beta r (Fin z).
Proof.
  induction depth as [|depth IH]; intros game alpha beta Hwf Hl Hab.
  - destruct (leaf_sound game alpha beta Hl) as (z & H1 & H2 & H3).
    exists (Fin z), None, z. simpl. rewrite H1, H2. auto.
  - destruct (is_terminal game) eqn:Hterm.
    + destruct (leaf_sound game alpha beta Hl) as (z & H1 & H2 & H3).
      exists (Fin z), None, z. simpl. rewrite Hterm, H1, H2. auto.
    + apply node_sound; auto.
      intros move Hin a b Hlt. apply IH; auto.
      * apply perform_move_wf; auto. apply Hwf.
      * apply perform_move_last_pit, Hl.
Qed.

Lemma children_sound_wf game depth :
  wf_game game -> is_terminal game = false ->
  children_sound minimax_player game depth.
Proof.
  intros Hwf Hterm move Hin a b Hlt.
  destruct (valid_moves_not_terminal game move Hwf Hterm Hin) as [i ->].
  apply minimax_sound; auto.
  - apply perform_move_wf; auto. apply Hwf.
  - apply perform_move_some_last_pit.
Qed.

End AlphaBeta.

(** C1. On every well-formed state, for every depth and either optimizing
    player, the score returned by [minimax] with the full window is the score
    of the full-width search to the same depth with the same evaluator at the
    leaves (both fail together only when the evaluator itself fails on the
    root); and whenever a move has been played or the root is searched at
    least one ply deep, the search returns a finite score. *)
Theorem minimax_equals_brute_force (game : KalahGame) (depth : nat)
    (minimax_player : Z) :
  wf_game game ->
  minimax_player = 0 \/ minimax_player = 1 ->
  fst <$> KalahMinimax.minimax game depth NegInf PosInf minimax_player
  = KalahMinimax.brute_force_minimax game depth minimax_player
  /\ (is_Some (last_pit game) \/ (is_terminal game = false /\ depth <> O) ->
      exists z, KalahMinimax.brute_force_minimax game depth minimax_player
                = Some (Fin z)).
Proof.
  intros Hwf _.
  assert (Hnode : forall r bm z,
    KalahMinimax.minimax game depth NegInf PosInf minimax_player = Some (r, bm) ->
    KalahMinimax.brute_force_minimax game depth minimax_player = Some (Fin z) ->
    window_sound NegInf PosInf r (Fin z) ->
    fst <$> KalahMinimax.minimax game depth NegInf PosInf minimax_player
    = KalahMinimax.brute_force_minimax game depth minimax_player).
  { intros r bm z H1 H2 (Hw & _ & _). rewrite H1, H2. simpl.
    rewrite (Hw eq_refl eq_refl). reflexivity. }
  assert (Hleaf :
    fst <$> KalahMinimax.leaf game minimax_player
    = (score ← evaluate game minimax_player; Some (Fin score))).
  { unfold KalahMinimax.leaf. destruct (evaluate game minimax_player); reflexivity. }
  destruct depth as [|depth].
  - split; [exact Hleaf|].
    intros [Hl|[_ H]]; [|congruence].
    destruct (evaluate_some game minimax_player Hl) as [z Hz].
    exists z. simpl. rewrite Hz. reflexivity.
  - destruct (is_terminal game) eqn:Hterm.
    + split; [simpl; rewrite Hterm; exact Hleaf|].
      intros [Hl|[H _]]; [|congruence].
      destruct (evaluate_some game minimax_player Hl) as [z Hz].
      exists z. simpl. rewrite Hterm, Hz. reflexivity.
    + destruct (node_sound minimax_player game depth NegInf PosInf Hterm
                  (children_sound_wf minimax_player game depth Hwf Hterm) eq_refl)
        as (r & bm & z & H1 & H2 & H3).
      split; [eapply Hnode; eauto|eauto].
Qed.

Lemma minimax_equals_brute_force_witness :
  fst <$> KalahMinimax.minimax new_game 2 NegInf PosInf 0
  = KalahMinimax.brute_force_minimax new_game 2 0
  /\ (is_Some (last_pit new_game) \/ (is_terminal new_game = false /\ 2%nat <> O) ->
      exists z, KalahMinimax.brute_force_minimax new_game 2 0 = Some (Fin z)).
Proof.
  apply (minimax_equals_brute_force new_game 2 0).
  - repeat split; [|left; reflexivity].
    simpl. repeat constructor; lia.
  - left; reflexivity.
Defined.

(* --------------------------------------------------------------------- *)
(** ** Backpropagation *)
(* --------------------------------------------------------------------- *)

Section Backpropagation.

Import MCTSNode.

Lemma on_path_le tree start n :
  wf_tree tree -> on_path tree start n -> (n <= start)%nat.
Proof.
  intros Hwf. induction 1 as [|n p _ IH Hp]; [lia|].
  apply Hwf in Hp. lia.
Qed.

Lemma on_path_inv tree start p n :
  parent_of tree start = Some p -> on_path tree start n ->
  n = start \/ on_path tree p n.
Proof.
  intros Hp. induction 1 as [|n q _ IH Hq]; [left; reflexivity|].
  right. destruct IH as [->|IH].
  - rewrite Hp in Hq. inversion Hq; subst. constructor.
  - econstructor; eauto.
Qed.

Lemma on_path_above tree start p n :
  parent_of tree start = Some p -> on_path tree p n -> on_path tree start n.
Proof.
  intros Hp. induction 1 as [|n q _ IH Hq].
  - econstructor; [constructor|exact Hp].
  - econstructor; eauto.
Qed.

Lemma on_path_ext tree1 tree2 start n :
  (forall i, parent_of tree1 i = parent_of tree2 i) ->
  on_path tree1 start n -> on_path tree2 start n.
Proof.
  intros Heq. induction 1 as [|n q _ IH Hq]; [constructor|].
  econstructor; [exact IH|]. rewrite <- Heq. exact Hq.
Qed.

Lemma on_path_root tree start n :
  parent_of tree start = None -> on_path tree start n -> n = start.
Proof.
  intros Hp. induction 1 as [|n q _ IH Hq]; [reflexivity|].
  subst. congruence.
Qed.

Lemma parent_of_insert tree self node node' i :
  tree !! self = Some node -> parent node' = parent node ->
  parent_of (<[self := node']> tree) i = parent_of tree i.
Proof.
  intros Hn Hp. unfold parent_of.
  destruct (decide (i = self)) as [->|Hne].
  - rewrite list_lookup_insert_eq by (eapply lookup_lt_Some; eauto).
    rewrite Hn. simpl. exact Hp.
  - rewrite list_lookup_insert_ne by auto. reflexivity.
Qed.

Lemma backpropagate_fuel_spec visited_moves use_rave :
  forall fuel tree self reward,
    wf_tree tree -> (self < length tree)%nat -> (self < fuel)%nat ->
    exists tree',
      backpropagate_fuel fuel tree self reward visited_moves use_rave = Some tree'
      /\ backpropagated tree tree' self reward.
Proof.
  induction fuel as [|fuel IH]; intros tree self reward Hwf Hlen Hfuel; [lia|].
  destruct (lookup_lt_is_Some_2 tree self Hlen) as [node Hnode].
  simpl. rewrite Hnode. simpl.
  set (node' := record_reward node reward visited_moves use_rave).
  set (tree1 := <[self := node']> tree).
  assert (Hpar : forall i, parent_of tree1 i = parent_of tree i)
    by (intros i; eapply parent_of_insert; eauto).
  assert (Hself1 : tree1 !! self = Some node')
    by (apply list_lookup_insert_eq; auto).
  assert (Hother1 : forall i, i <> self -> tree1 !! i = tree !! i)
    by (intros i Hi; apply list_lookup_insert_ne; auto).
  destruct (parent node) as [p|] eqn:Hp.
  - (* the call goes on at the parent *)
    assert (Hpof : parent_of tree self = Some p)
      by (unfold parent_of; rewrite Hnode; exact Hp).
    pose proof (Hwf _ _ Hpof) as Hlt.
    destruct (lookup_lt_is_Some_2 tree p ltac:(lia)) as [pn Hpn].
    rewrite Hother1, Hpn by lia. simpl.
    set (reward' := if player pn =? player node then reward else - reward).
    assert (Hwf1 : wf_tree tree1)
      by (intros i q Hq; rewrite Hpar in Hq; eauto).
    destruct (IH tree1 p reward' Hwf1) as (tree' & Hrun & Hl' & Hshape & Hval & Hpairs).
    { unfold tree1. rewrite length_insert. lia. }
    { lia. }
    exists tree'. split.
    { unfold reward' in Hrun. destruct (player pn =? player node); exact Hrun. }
    assert (Hoff : ~ on_path tree1 p self).
    { intros Hon. apply on_path_le in Hon; [lia|exact Hwf1]. }
    destruct (Hshape self node' Hself1) as (ns & Hns & _ & _ & Hsame).
    specialize (Hsame Hoff). subst ns.
    destruct (Hval pn) as (pn' & Hpn' & Hpv & _);
      [rewrite Hother1 by lia; exact Hpn|].
    split; [unfold tree1 in Hl'; rewrite length_insert in Hl'; exact Hl'|].
    split; [|split].
    + intros i n Hi.
      destruct (decide (i = self)) as [->|Hne].
      * rewrite Hnode in Hi. inversion Hi; subst n.
        exists node'. repeat split; auto.
        intros Hno. exfalso. apply Hno. constructor.
      * destruct (Hshape i n) as (n' & Hn' & Hp' & Hpl' & Hfr);
          [rewrite Hother1 by auto; exact Hi|].
        exists n'. repeat split; auto.
        intros Hno. apply Hfr. intros Hon. apply Hno.
        eapply on_path_above; [exact Hpof|].
        eapply on_path_ext; [|exact Hon]. exact Hpar.
    + intros n Hn. rewrite Hnode in Hn. inversion Hn; subst n.
      exists node'. auto.
    + intros N P nN nP nN' nP' Hon HP HN HPn HN' HP'.
      destruct (on_path_inv _ _ _ _ Hpof Hon) as [->|Hon'].
      * rewrite Hpof in HP. inversion HP; subst P.
        rewrite Hnode in HN. inversion HN; subst nN.
        rewrite Hpn in HPn. inversion HPn; subst nP.
        rewrite Hns in HN'. inversion HN'; subst nN'.
        rewrite Hpn' in HP'. inversion HP'; subst nP'.
        rewrite Hpv. unfold reward'. simpl.
        destruct (player pn =? player node); lia.
      * pose proof (on_path_le _ _ _ Hwf Hon') as HleN.
        pose proof (Hwf _ _ HP) as HltP.
        eapply (Hpairs N P nN nP nN' nP'); eauto.
        -- eapply on_path_ext; [|exact Hon']. intros i. symmetry. apply Hpar.
        -- rewrite Hpar. exact HP.
        -- rewrite Hother1 by lia. exact HN.
        -- rewrite Hother1 by lia. exact HPn.
  - (* the root: the call returns *)
    assert (Hpof : parent_of tree self = None)
      by (unfold parent_of; rewrite Hnode; exact Hp).
    exists tree1. split; [reflexivity|].
    split; [apply length_insert|]. split; [|split].
    + intros i n Hi.
      destruct (decide (i = self)) as [->|Hne].
      * rewrite Hnode in Hi. inversion Hi; subst n.
        exists node'. repeat split; auto.
        intros Hno. exfalso. apply Hno. constructor.
      * exists n. rewrite Hother1 by auto. auto.
    + intros n Hn. rewrite Hnode in Hn. inversion Hn; subst n.
      exists node'. auto.
    + intros N P nN nP nN' nP' Hon HP.
      apply (on_path_root _ _ _ Hpof) in Hon. subst N. congruence.
Qed.

End Backpropagation.

(** C2. On a tree whose parents were created before their children, one call
    of [backpropagate] with reward [reward] at a node returns, adds [reward]
    to that node's value, and for every node N on the way to the root with
    parent P there is the reward [r] that N received such that P's value
    changes by [r] when the two nodes have the same player and by [- r] when
    they differ; chains of nodes with the same player are included. *)
Theorem backpropagate_sign_invariant (tree : list MCTSNode) (self : nat)
    (reward : Z) (visited_moves : list (option Z)) (use_rave : bool) :
  wf_tree tree -> (self < length tree)%nat ->
  exists tree',
    MCTSNode.backpropagate tree self reward visited_moves use_rave = Some tree'
    /\ (forall n, tree !! self = Some n ->
          exists n', tree' !! self = Some n' /\ value n' = value n + reward)
    /\ (forall N P nN nP,
          on_path tree self N -> tree !! N = Some nN -> parent nN = Some P ->
          tree !! P = Some nP ->
          exists nN' nP' r,
            tree' !! N = Some nN' /\ tree' !! P = Some nP'
            /\ value nN' = value nN + r
            /\ value nP' = value nP
                           + (if player nP =? player nN then r else - r)).
Proof.
  intros Hwf Hlen.
  destruct (backpropagate_fuel_spec visited_moves use_rave (S self) tree self
              reward Hwf Hlen ltac:(lia))
    as (tree' & Hrun & Hl & Hshape & Hval & Hpairs).
  exists tree'. split; [exact Hrun|]. split.
  - intros n Hn. destruct (Hval n Hn) as (n' & H1 & H2 & _). eauto.
  - intros N P nN nP Hon HN HP HPn.
    destruct (Hshape N nN HN) as (nN' & HN' & _).
    destruct (Hshape P nP HPn) as (nP' & HP' & _).
    exists nN', nP', (value nN' - value nN).
    split; [exact HN'|]. split; [exact HP'|]. split; [lia|].
    assert (Hpof : parent_of tree N = Some P)
      by (unfold parent_of; rewrite HN; exact HP).
    pose proof (Hpairs N P nN nP nN' nP' Hon Hpof HN HPn HN' HP') as Hd.
    destruct (player nP =? player nN); lia.
Qed.

Lemma sample_path_wf : wf_tree sample_path.
Proof.
  intros i p. unfold parent_of.
  destruct i as [|[|[|i]]]; simpl; intros H; inversion H; lia.
Qed.

Lemma backpropagate_sign_invariant_witness :
  exists tree',
    MCTSNode.backpropagate sample_path 2 1 [Some 3] true = Some tree'
    /\ (forall n, sample_path !! 2%nat = Some n ->
          exists n', tree' !! 2%nat = Some n' /\ value n' = value n + 1)
    /\ (forall N P nN nP,
          on_path sample_path 2 N -> sample_path !! N = Some nN ->
          parent nN = Some P -> sample_path !! P = Some nP ->
          exists nN' nP' r,
            tree' !! N = Some nN' /\ tree' !! P = Some nP'
            /\ value nN' = value nN + r
            /\ value nP' = value nP
                           + (if player nP =? player nN then r else - r)).
Proof.
  apply (backpropagate_sign_invariant sample_path 2 1 [Some 3] true).
  - exact sample_path_wf.
  - simpl. lia.
Defined.

Example sample_path_values :
  (fun t => map (fun n => (player n, value n)) <$> t)
    (MCTSNode.backpropagate sample_path 2 1 [] false)
  = Some [(0, -1); (0, -1); (1, 1)].
Proof. vm_compute. reflexivity. Qed.

(* --------------------------------------------------------------------- *)
(** ** Budgeted halving: SHOT and SHUSS *)
(* --------------------------------------------------------------------- *)

Section Halving.

Import KalahMCTS.

Context {A : Type}.
Implicit Types (key : A -> Q) (l : list A).

Lemma insert_desc_elem key x l y :
  y ∈ insert_desc key x l <-> y = x \/ y ∈ l.
Proof.
  induction l as [|z l IH]; simpl.
  - rewrite list_elem_of_singleton, elem_of_nil. tauto.
  - destruct (Qle_bool (key z) (key x)).
    + rewrite elem_of_cons. reflexivity.
    + rewrite !elem_of_cons, IH. tauto.
Qed.

Lemma insert_desc_length key x l :
  length (insert_desc key x l) = S (length l).
Proof.
  induction l as [|z l IH]; simpl; [reflexivity|].
  destruct (Qle_bool (key z) (key x)); simpl; [reflexivity|].
  rewrite IH. reflexivity.
Qed.

Lemma sort_desc_elem key l y : y ∈ sort_desc key l <-> y ∈ l.
Proof.
  unfold sort_desc. induction l as [|x l IH]; simpl; [reflexivity|].
  rewrite insert_desc_elem, IH, elem_of_cons. reflexivity.
Qed.

Lemma sort_desc_length key l : length (sort_desc key l) = length l.
Proof.
  unfold sort_desc. induction l as [|x l IH]; simpl; [reflexivity|].
  rewrite insert_desc_length, IH. reflexivity.
Qed.

(** One round keeps at least one candidate, and only candidates it was
    given. *)
Lemma halve_survivors key l (k : Z) :
  l <> [] ->
  take (Z.to_nat (Z.max 1 k)) (sort_desc key l) <> []
  /\ forall y, y ∈ take (Z.to_nat (Z.max 1 k)) (sort_desc key l) -> y ∈ l.
Proof.
  intros Hne. split.
  - intros H. apply (f_equal length) in H.
    rewrite length_take, sort_desc_length in H. simpl in H.
    destruct l; [congruence|]. simpl in H. lia.
  - intros y Hy. apply (sort_desc_elem key). eapply subseteq_take; eauto.
Qed.

End Halving.

Section HalvingRounds.

Import KalahMCTS.

Variable W : Type.
Variable playout : bool -> W -> list MCTSNode -> nat -> W * list MCTSNode.

Lemma halving_bound (k : Z) (fuel : nat) :
  k <= 2 ^ Z.of_nat (S fuel) -> k / 2 <= 2 ^ Z.of_nat fuel.
Proof.
  intros H. rewrite Nat2Z.inj_succ, Z.pow_succ_r in H by lia.
  apply Z.div_le_upper_bound; lia.
Qed.

Lemma shot_loop_rounds : forall fuel w tree k total_k budget move_nodes,
  k <= 2 ^ Z.of_nat fuel -> move_nodes <> [] ->
  exists survivors,
    shot_loop W playout fuel w tree k total_k budget move_nodes = Some survivors
    /\ survivors <> []
    /\ forall y, y ∈ survivors -> y ∈ move_nodes.
Proof.
  induction fuel as [|fuel IH]; intros w tree k total_k budget move_nodes Hk Hne.
  - simpl. destruct (1 <? k) eqn:E; [simpl in Hk; lia|]. eauto.
  - cbn [shot_loop]. destruct (1 <? k) eqn:E; [|eauto].
    destruct (simulate_all _ _ _ _ _ _ _) as [w' tree'].
    match goal with |- context [take ?n (sort_desc ?key move_nodes)] =>
      destruct (halve_survivors key move_nodes (k / 2) Hne) as [Hne' Hsub] end.
    edestruct IH as (sv & Hrun & Hsv & Hin); [apply halving_bound, Hk|exact Hne'|].
    exists sv. split; [exact Hrun|]. split; [exact Hsv|]. auto.
Qed.

Lemma shuss_loop_rounds root_node c shuss_c :
  forall fuel w tree k total_k b move_nodes,
  k <= 2 ^ Z.of_nat fuel -> move_nodes <> [] ->
  exists survivors,
    shuss_loop W playout fuel w tree root_node c shuss_c k total_k b move_nodes
    = Some survivors
    /\ survivors <> []
    /\ forall y, y ∈ survivors -> y ∈ move_nodes.
Proof.
  induction fuel as [|fuel IH]; intros w tree k total_k b move_nodes Hk Hne.
  - simpl. destruct (1 <? k) eqn:E; [simpl in Hk; lia|]. eauto.
  - cbn [shuss_loop]. destruct (1 <? k) eqn:E; [|eauto].
    destruct (simulate_all _ _ _ _ _ _ _) as [w' tree'].
    match goal with |- context [take ?n (sort_desc ?key move_nodes)] =>
      destruct (halve_survivors key move_nodes (k / 2) Hne) as [Hne' Hsub] end.
    edestruct IH as (sv & Hrun & Hsv & Hin); [apply halving_bound, Hk|exact Hne'|].
    exists sv. split; [exact Hrun|]. split; [exact Hsv|]. auto.
Qed.

Lemma make_children_moves root_node root : forall moves tree move_nodes,
  map fst (snd (make_children tree root_node root moves move_nodes))
  = map fst move_nodes ++ moves.
Proof.
  induction moves as [|m moves IH]; intros tree move_nodes; simpl.
  - rewrite app_nil_r. reflexivity.
  - rewrite IH, map_app. simpl. rewrite <- app_assoc. reflexivity.
Qed.

Lemma log2_up_bound (n : nat) : Z.of_nat n <= 2 ^ Z.of_nat (Nat.log2_up n).
Proof.
  destruct n as [|n]; [simpl; lia|].
  pose proof (Nat.log2_up_spec (S n)) as H.
  destruct (Nat.eq_dec n 0%nat) as [->|Hn]; [simpl; lia|].
  specialize (H ltac:(lia)). destruct H as [_ H].
  apply Nat2Z.inj_le in H. rewrite Nat2Z.inj_pow in H. exact H.
Qed.

Lemma head_survivor (survivors move_nodes : list (option Z * nat)) :
  survivors <> [] -> (forall y, y ∈ survivors -> y ∈ move_nodes) ->
  exists m, fst <$> head survivors = Some m /\ m ∈ map fst move_nodes.
Proof.
  intros Hne Hsub. destruct survivors as [|[m n] sv]; [congruence|].
  exists m. split; [reflexivity|].
  apply list_elem_of_fmap. exists (m, n). split; [reflexivity|].
  apply Hsub. left.
Qed.

End HalvingRounds.

(** C3. Whatever the playouts do and whatever the budget, with [k >= 1] legal
    root moves [run_shot] and [run_shuss] return within [ceil(log2 k)] halving
    rounds (any larger allowance of rounds included), and the move returned is
    one of the legal root moves enumerated at the start of the call. *)
Theorem halving_terminates_in_log2_rounds (W : Type)
    (playout : bool -> W -> list MCTSNode -> nat -> W * list MCTSNode)
    (w : W) (tree : list MCTSNode) (root_node : nat) (root : MCTSNode)
    (budget : Z) (c : option Q) (shuss_c : Q) (rounds : nat) :
  tree !! root_node = Some root ->
  let game := MCTSNode.get_game_copy root in
  let legal := valid_moves game (current_player game) in
  (Nat.log2_up (length legal) <= rounds)%nat ->
  (1 <= length legal)%nat
  /\ (exists m, KalahMCTS.run_shot W playout rounds w tree root_node budget
                = Some m /\ m ∈ legal)
  /\ (exists m, KalahMCTS.run_shuss W playout rounds w tree root_node budget
                  c shuss_c = Some m /\ m ∈ legal).
Proof.
  intros Hroot game legal Hrounds.
  assert (Hlen : (1 <= length legal)%nat).
  { pose proof (valid_moves_nonempty game (current_player game)).
    fold legal in H. destruct legal; [congruence|simpl; lia]. }
  split; [exact Hlen|].
  pose proof (make_children_moves root_node root legal tree []) as Hmoves.
  assert (Hbound : Z.of_nat (length legal) <= 2 ^ Z.of_nat rounds).
  { etransitivity; [apply log2_up_bound|].
    apply Z.pow_le_mono_r; lia. }
  unfold KalahMCTS.run_shot, KalahMCTS.run_shuss. rewrite Hroot.
  cbn [mbind option_bind].
  change (MCTSNode.get_game_copy root) with game.
  change (valid_moves game (current_player game)) with legal.
  destruct (KalahMCTS.make_children tree root_node root legal [])
    as [tree' move_nodes] eqn:E.
  cbn [snd map app] in Hmoves.
  assert (Hk : length move_nodes = length legal).
  { rewrite <- Hmoves, length_map. reflexivity. }
  assert (Hne : move_nodes <> []).
  { destruct move_nodes; [simpl in Hk; lia|congruence]. }
  rewrite Hk.
  split.
  - destruct (Z.of_nat (length legal) =? 1).
    + destruct (head_survivor move_nodes move_nodes Hne ltac:(auto))
        as (m & Hm & Hin).
      exists m. rewrite <- Hmoves. auto.
    + destruct (shot_loop_rounds W playout rounds w tree' (Z.of_nat (length legal))
                  (Z.of_nat (length legal)) budget move_nodes Hbound Hne)
        as (sv & -> & Hsv & Hsub).
      destruct (head_survivor sv move_nodes Hsv Hsub) as (m & Hm & Hin).
      exists m. rewrite <- Hmoves. auto.
  - destruct (Z.of_nat (length legal) =? 1).
    + destruct (head_survivor move_nodes move_nodes Hne ltac:(auto))
        as (m & Hm & Hin).
      exists m. rewrite <- Hmoves. auto.
    + destruct (shuss_loop_rounds W playout root_node c shuss_c rounds w tree'
                  (Z.of_nat (length legal)) (Z.of_nat (length legal)) budget
                  move_nodes Hbound Hne)
        as (sv & -> & Hsv & Hsub).
      destruct (head_survivor sv move_nodes Hsv Hsub) as (m & Hm & Hin).
      exists m. rewrite <- Hmoves. auto.
Qed.

Lemma halving_terminates_in_log2_rounds_witness :
  (1 <= length (valid_moves new_game 0))%nat
  /\ (exists m, KalahMCTS.run_shot unit sample_playout 3 tt [sample_root] 0 100
                = Some m /\ m ∈ valid_moves new_game 0)
  /\ (exists m, KalahMCTS.run_shuss unit sample_playout 3 tt [sample_root] 0 100
                  None (128 # 1) = Some m /\ m ∈ valid_moves new_game 0).
Proof.
  apply (halving_terminates_in_log2_rounds unit sample_playout tt [sample_root]
           0 sample_root 100 None (128 # 1) 3).
  - reflexivity.
  - vm_compute. lia.
Defined.

Example run_shot_initial :
  KalahMCTS.run_shot unit sample_playout 3 tt [sample_root] 0 100 = Some (Some 0).
Proof. vm_compute. reflexivity. Qed.

(* --------------------------------------------------------------------- *)
(** ** The softmax policy of NRPA *)
(* --------------------------------------------------------------------- *)

Section Softmax.

Import NRPA.
Local Open Scope R_scope.

Lemma foldl_Rplus_acc (xs : list R) : forall a, foldl Rplus a xs = a + rsum xs.
Proof.
  unfold rsum. induction xs as [|x xs IH]; intros a; simpl; [lra|].
  rewrite (IH (a + x)), (IH (0 + x)). lra.
Qed.

Lemma rsum_cons x (xs : list R) : rsum (x :: xs) = x + rsum xs.
Proof. unfold rsum at 1. simpl. rewrite foldl_Rplus_acc. lra. Qed.

Lemma rsum_map_div (xs : list R) t :
  rsum (map (fun w => w / t) xs) = rsum xs / t.
Proof.
  induction xs as [|x xs IH]; simpl.
  - unfold rsum. simpl. lra.
  - rewrite !rsum_cons, IH. lra.
Qed.

Lemma rsum_pos (xs : list R) :
  Forall (fun x => 0 < x) xs -> xs <> [] -> 0 < rsum xs.
Proof.
  induction 1 as [|x xs Hx Hxs IH]; intros Hne; [congruence|].
  rewrite rsum_cons. destruct xs as [|y ys].
  - unfold rsum. simpl. lra.
  - specialize (IH ltac:(congruence)). lra.
Qed.

Lemma rsum_replicate (n : nat) x : rsum (replicate n x) = INR n * x.
Proof.
  induction n as [|n IH]; [unfold rsum; simpl; lra|].
  cbn [replicate]. rewrite rsum_cons, IH, S_INR. lra.
Qed.

Lemma foldl_Rmax_same (ws : list R) w :
  Forall (fun x => x = w) ws -> foldl Rmax w ws = w.
Proof.
  induction 1 as [|x ws -> _ IH]; simpl; [reflexivity|].
  rewrite Rmax_left by lra. exact IH.
Qed.

Lemma map_exp_positive (ws : list R) m :
  Forall (fun x => 0 < x) (map (fun w => exp (w - m)) ws).
Proof. apply Forall_fmap, Forall_forall. intros w _. apply exp_pos. Qed.

(** The sum of the exponentials is positive: the fallback to the uniform
    distribution is never taken. *)
Lemma softmax_probs_normalised policy game moves :
  moves <> [] ->
  exists max_weight total,
    0 < total
    /\ total = rsum (map (fun move =>
                 exp (policy_get policy (from_board_to_state game, move) - max_weight))
               moves)
    /\ softmax_probs policy game moves
       = Some (map (fun move =>
                 exp (policy_get policy (from_board_to_state game, move) - max_weight)
                 / total) moves)
    /\ (forall w, Forall (fun move =>
                    policy_get policy (from_board_to_state game, move) = w) moves ->
                  max_weight = w).
Proof.
  intros Hne. destruct moves as [|m0 ms]; [congruence|].
  unfold softmax_probs.
  set (state := from_board_to_state game).
  cbn [map]. cbv beta iota zeta.
  set (w0 := policy_get policy (state, m0)).
  set (ws := map (fun move => policy_get policy (state, move)) ms).
  set (M := foldl Rmax w0 ws).
  set (es := exp (w0 - M) :: map (fun w => exp (w - M)) ws).
  assert (Hpos : 0 < rsum es).
  { apply rsum_pos; [|discriminate].
    constructor; [apply exp_pos|apply map_exp_positive]. }
  exists M, (rsum es).
  assert (Hes : es = map (fun move => exp (policy_get policy (state, move) - M))
                         (m0 :: ms)).
  { unfold es, ws, w0. cbn [map]. f_equal. rewrite map_map. reflexivity. }
  split; [exact Hpos|]. split; [rewrite Hes; reflexivity|]. split.
  - destruct (Req_dec_T (rsum es) 0) as [H0|_]; [lra|].
    cbn [map]. unfold ws, w0. rewrite !List.map_map. reflexivity.
  - intros w Hall. apply Forall_cons_1 in Hall. destruct Hall as [Hw0 Hws].
    unfold M. fold state w0 in Hw0. rewrite Hw0.
    apply foldl_Rmax_same. unfold ws. apply Forall_fmap.
    eapply Forall_impl; [exact Hws|]. auto.
Qed.

(** Equal weights give the uniform distribution. *)
Lemma softmax_probs_uniform policy game moves w :
  moves <> [] ->
  Forall (fun move => policy_get policy (from_board_to_state game, move) = w) moves ->
  softmax_probs policy game moves
  = Some (replicate (length moves) (1 / INR (length moves))).
Proof.
  intros Hne Hall.
  destruct (softmax_probs_normalised policy game moves Hne)
    as (M & total & Hpos & Htot & Hrun & Hsame).
  specialize (Hsame w Hall). subst M. rewrite Hrun. f_equal.
  assert (Hones : map (fun move => exp (policy_get policy
                         (from_board_to_state game, move) - w)) moves
                  = replicate (length moves) 1).
  { clear - Hall. induction Hall as [|m ms Hm _ IH]; [reflexivity|].
    cbn [map length replicate]. rewrite IH, Hm, Rminus_diag, exp_0. reflexivity. }
  rewrite Hones, rsum_replicate in Htot.
  rewrite <- (map_map (fun move => exp (policy_get policy
                          (from_board_to_state game, move) - w))
                      (fun e => e / total)).
  rewrite Hones, Htot, Rmult_1_r. clear. generalize (INR (length moves)).
  intros x. induction (length moves) as [|n IH]; [reflexivity|].
  cbn [replicate map]. rewrite IH. reflexivity.
Qed.

(** On the legal moves of a state the softmax is always defined. *)
Lemma softmax_defined_on_legal_moves policy game moves :
  moves = valid_moves game (current_player game) ->
  exists probs,
    softmax_probs policy game moves = Some probs
    /\ length probs = length moves.
Proof.
  intros ->.
  destruct (softmax_probs_normalised policy game
              (valid_moves game (current_player game))
              (valid_moves_nonempty _ _))
    as (M & total & _ & _ & Hrun & _).
  eexists. split; [exact Hrun|]. apply length_map.
Qed.

End Softmax.

(** C8. With weights and probabilities read as real numbers (rounding
    apart), for every policy table, state and non-empty move list,
    [softmax_probs] returns one probability per move, each of them
    non-negative, their sum is 1 and so within 1e-9 of 1, and when all the
    weights are equal the result is the uniform distribution. *)
Theorem softmax_probs_is_distribution (policy : gmap NRPA.policy_key R)
    (game : KalahGame) (moves : list (option Z)) :
  moves <> [] ->
  exists probs,
    NRPA.softmax_probs policy game moves = Some probs
    /\ length probs = length moves
    /\ Forall (fun p => (0 <= p)%R) probs
    /\ (Rabs (NRPA.rsum probs - 1) <= 1 / 1000000000)%R
    /\ (forall w,
          Forall (fun move =>
            NRPA.policy_get policy (from_board_to_state game, move) = w) moves ->
          probs = replicate (length moves) (1 / INR (length moves))%R).
Proof.
  intros Hne.
  destruct (softmax_probs_normalised policy game moves Hne)
    as (M & total & Hpos & Htot & Hrun & Hsame).
  eexists. split; [exact Hrun|].
  split; [apply length_map|]. split; [|split].
  - apply Forall_fmap, Forall_forall. intros m _. simpl.
    apply Rlt_le, Rdiv_lt_0_compat; [apply exp_pos|exact Hpos].
  - replace (NRPA.rsum _) with 1%R; [rewrite Rminus_diag, Rabs_R0; lra|].
    rewrite <- (map_map (fun move => exp (NRPA.policy_get policy
                            (from_board_to_state game, move) - M))
                        (fun e => (e / total)%R)).
    rewrite rsum_map_div, <- Htot. field. lra.
  - intros w Hall.
    pose proof (softmax_probs_uniform policy game moves w Hne Hall) as Hu.
    rewrite Hrun in Hu. inversion Hu as [Hu']. rewrite Hu'. reflexivity.
Qed.

Lemma softmax_probs_is_distribution_witness :
  exists probs,
    NRPA.softmax_probs ∅ new_game [Some 0; Some 1; Some 2] = Some probs
    /\ length probs = length [Some 0; Some 1; Some 2]
    /\ Forall (fun p => (0 <= p)%R) probs
    /\ (Rabs (NRPA.rsum probs - 1) <= 1 / 1000000000)%R
    /\ (forall w,
          Forall (fun move =>
            NRPA.policy_get ∅ (from_board_to_state new_game, move) = w)
            [Some 0; Some 1; Some 2] ->
          probs = replicate (length [Some 0; Some 1; Some 2])
                            (1 / INR (length [Some 0; Some 1; Some 2]))%R).
Proof.
  apply (softmax_probs_is_distribution ∅ new_game [Some 0; Some 1; Some 2]).
  discriminate.
Defined.

(* --------------------------------------------------------------------- *)
(** ** The adaptation step of NRPA *)
(* --------------------------------------------------------------------- *)

Section Adapt.

Import NRPA.
Local Open Scope R_scope.

Lemma valid_moves_NoDup game player : NoDup (valid_moves game player).
Proof.
  unfold valid_moves.
  destruct (List.filter _ _) as [|m ms] eqn:E.
  - apply NoDup_singleton.
  - rewrite <- E. apply NoDup_fmap_2; [intros x y H; congruence|].
    apply NoDup_ListNoDup, List.NoDup_filter, NoDup_ListNoDup, NoDup_seqZ.
Qed.

Lemma adapt_moves_cons policy state move m moves p probs :
  adapt_moves policy state move (m :: moves) (p :: probs)
  = adapt_moves
      (if decide (m = move)
       then <[(state, m) := policy_get policy (state, m) + 1]> policy
       else <[(state, m) := policy_get policy (state, m) - p]> policy)
      state move moves probs.
Proof. reflexivity. Qed.

Lemma adapt_moves_as_specified_cons policy state move m moves p probs :
  adapt_moves_as_specified policy state move (m :: moves) (p :: probs)
  = adapt_moves_as_specified
      (if decide (m = move)
       then <[(state, m) := policy_get policy (state, m) + 1 - p]> policy
       else <[(state, m) := policy_get policy (state, m) - p]> policy)
      state move moves probs.
Proof. reflexivity. Qed.

Lemma adapt_moves_other state move : forall moves probs policy key,
  (forall m, m ∈ moves -> key <> (state, m)) ->
  adapt_moves policy state move moves probs !! key = policy !! key.
Proof.
  induction moves as [|m moves IH]; intros probs policy key Hkey; [reflexivity|].
  destruct probs as [|p probs]; [reflexivity|]. cbn [adapt_moves].
  rewrite IH by (intros m' Hm'; apply Hkey; right; exact Hm').
  assert (Hne : (state, m) <> key) by (intros <-; eapply Hkey; [left|reflexivity]).
  destruct (decide (m = move)); apply lookup_insert_ne; exact Hne.
Qed.

Lemma adapt_moves_as_specified_other state move : forall moves probs policy key,
  (forall m, m ∈ moves -> key <> (state, m)) ->
  adapt_moves_as_specified policy state move moves probs !! key = policy !! key.
Proof.
  induction moves as [|m moves IH]; intros probs policy key Hkey; [reflexivity|].
  destruct probs as [|p probs]; [reflexivity|]. cbn [adapt_moves_as_specified].
  rewrite IH by (intros m' Hm'; apply Hkey; right; exact Hm').
  assert (Hne : (state, m) <> key) by (intros <-; eapply Hkey; [left|reflexivity]).
  destruct (decide (m = move)); apply lookup_insert_ne; exact Hne.
Qed.

(** Each legal move is met once, so its new weight is computed from its
    weight on entry. *)
Lemma adapt_moves_at state move : forall moves probs policy (i : nat) m p,
  NoDup moves -> moves !! i = Some m -> probs !! i = Some p ->
  adapt_moves policy state move moves probs !! (state, m)
  = Some (if decide (m = move) then policy_get policy (state, m) + 1
          else policy_get policy (state, m) - p).
Proof.
  induction moves as [|m0 moves IH]; intros probs policy i m p Hnd Hm Hp;
    [destruct i; discriminate|].
  destruct probs as [|p0 probs]; [destruct i; discriminate|].
  apply NoDup_cons in Hnd. destruct Hnd as [Hnotin Hnd].
  cbn [adapt_moves]. destruct i as [|i]; simpl in Hm, Hp.
  - inversion Hm; inversion Hp; subst m0 p0.
    rewrite adapt_moves_other
      by (intros m' Hm' Heq; inversion Heq; subst; contradiction).
    destruct (decide (m = move)); apply lookup_insert_eq.
  - assert (Hne : m0 <> m).
    { intros ->. apply Hnotin. eapply list_elem_of_lookup_2; eauto. }
    erewrite IH by eauto.
    assert (Hget : forall v, policy_get (<[(state, m0) := v]> policy) (state, m)
                             = policy_get policy (state, m)).
    { intros v. unfold policy_get. rewrite lookup_insert_ne; [reflexivity|].
      intros Heq. inversion Heq. contradiction. }
    destruct (decide (m0 = move)); rewrite Hget; reflexivity.
Qed.

End Adapt.

(** C4 (as the code has it). One pass of [adapt] over a (state, move) pair
    recomputes the softmax over the legal moves of that state from the weights
    on entry, then sets the weight of the chosen move to its old weight plus 1
    and the weight of every other legal move to its old weight minus that
    move's probability; the chosen move's own probability is not subtracted,
    no other entry of the table changes, and the pairs of a sequence are
    processed one after the other. *)
Theorem adapt_pair_update (policy : gmap NRPA.policy_key R) (move : option Z)
    (state : state_key) :
  let game := mkGame (fst state) (snd state) None in
  let legal := valid_moves game (current_player game) in
  exists probs policy',
    NRPA.softmax_probs policy game legal = Some probs
    /\ length probs = length legal
    /\ NRPA.adapt_pair policy move state = Some policy'
    /\ (forall (i : nat) m p,
          legal !! i = Some m -> probs !! i = Some p ->
          policy' !! (state, m)
          = Some (if decide (m = move)
                  then (NRPA.policy_get policy (state, m) + 1)%R
                  else (NRPA.policy_get policy (state, m) - p)%R))
    /\ (forall key, (forall m, m ∈ legal -> key <> (state, m)) ->
          policy' !! key = policy !! key)
    /\ (forall rest,
          NRPA.adapt policy ((move, state) :: rest) = NRPA.adapt policy' rest).
Proof.
  intros game legal.
  destruct (softmax_defined_on_legal_moves policy game legal eq_refl)
    as (probs & Hrun & Hlen).
  exists probs, (NRPA.adapt_moves policy state move legal probs).
  assert (Hpair : NRPA.adapt_pair policy move state
                  = Some (NRPA.adapt_moves policy state move legal probs)).
  { unfold NRPA.adapt_pair. fold game. fold legal. rewrite Hrun. reflexivity. }
  split; [exact Hrun|]. split; [exact Hlen|]. split; [exact Hpair|].
  split; [|split].
  - intros i m p Hm Hp. apply adapt_moves_at with (i := i); auto.
    apply valid_moves_NoDup.
  - intros key Hkey. apply adapt_moves_other. exact Hkey.
  - intros rest. cbn [NRPA.adapt]. rewrite Hpair. reflexivity.
Qed.

(** C4, counterexample. From the empty table, adapting towards pit 0 at the
    initial position leaves the chosen move with weight 1, where the update as
    specified (the chosen move's probability 1/6 subtracted as well) would
    leave 1 - 1/6: the two tables differ. *)
Lemma adapt_keeps_full_increment :
  exists policy' specified,
    NRPA.adapt_pair ∅ (Some 0) (from_board_to_state new_game) = Some policy'
    /\ NRPA.adapt_pair_as_specified ∅ (Some 0) (from_board_to_state new_game)
       = Some specified
    /\ policy' !! (from_board_to_state new_game, Some 0) = Some 1%R
    /\ specified !! (from_board_to_state new_game, Some 0) = Some (1 - 1 / 6)%R
    /\ policy' <> specified.
Proof.
  set (s0 := from_board_to_state new_game).
  set (legal := [Some 0; Some 1; Some 2; Some 3; Some 4; Some 5]).
  assert (Hlegal : valid_moves (mkGame (fst s0) (snd s0) None)
                     (current_player (mkGame (fst s0) (snd s0) None)) = legal)
    by (vm_compute; reflexivity).
  assert (Hsoft : NRPA.softmax_probs ∅ (mkGame (fst s0) (snd s0) None) legal
                  = Some (replicate 6 (1 / 6)%R)).
  { rewrite (softmax_probs_uniform ∅ _ legal 0%R); [|discriminate|].
    - f_equal. cbn [length legal]. f_equal. f_equal. simpl. lra.
    - apply Forall_forall. intros m _. unfold NRPA.policy_get.
      rewrite lookup_empty. reflexivity. }
  assert (Hrest : forall m, m ∈ [Some 1; Some 2; Some 3; Some 4; Some 5] ->
                            (s0, Some 0) <> (s0, m)).
  { intros m Hm Heq. inversion Heq; subst m.
    apply list_elem_of_In in Hm. simpl in Hm.
    repeat (destruct Hm as [Hm|Hm]; [discriminate|]). exact Hm. }
  assert (Hget : NRPA.policy_get ∅ (s0, Some 0) = 0%R)
    by (unfold NRPA.policy_get; rewrite lookup_empty; reflexivity).
  eexists. eexists.
  split; [unfold NRPA.adapt_pair; rewrite Hlegal, Hsoft; reflexivity|].
  split; [unfold NRPA.adapt_pair_as_specified; rewrite Hlegal, Hsoft; reflexivity|].
  assert (Hcode : NRPA.adapt_moves ∅ s0 (Some 0) legal (replicate 6 (1 / 6)%R)
                    !! (s0, Some 0) = Some 1%R).
  { unfold legal.
    change (replicate 6 (1 / 6)%R) with ((1 / 6)%R :: replicate 5 (1 / 6)%R).
    rewrite adapt_moves_cons.
    rewrite adapt_moves_other by exact Hrest.
    destruct (decide (Some 0 = Some 0)); [|congruence].
    rewrite lookup_insert_eq, Hget. f_equal. lra. }
  assert (Hspec : NRPA.adapt_moves_as_specified ∅ s0 (Some 0) legal
                    (replicate 6 (1 / 6)%R) !! (s0, Some 0)
                  = Some (1 - 1 / 6)%R).
  { unfold legal.
    change (replicate 6 (1 / 6)%R) with ((1 / 6)%R :: replicate 5 (1 / 6)%R).
    rewrite adapt_moves_as_specified_cons.
    rewrite adapt_moves_as_specified_other by exact Hrest.
    destruct (decide (Some 0 = Some 0)); [|congruence].
    rewrite lookup_insert_eq, Hget. f_equal. lra. }
  split; [exact Hcode|]. split; [exact Hspec|].
  intros Heq. rewrite Heq, Hspec in Hcode. inversion Hcode. lra.
Qed.

Lemma valid_moves_length game player :
  (1 <= length (valid_moves game player) <= 6)%nat.
Proof.
  unfold valid_moves.
  pose proof (List.filter_length_le (fun i => 0 <? board_get (board game) i)
                (seqZ (player * 7) 6)) as Hle.
  rewrite length_seqZ in Hle.
  destruct (List.filter _ _) as [|m ms] eqn:E; [simpl; lia|].
  rewrite length_fmap. simpl in *. lia.
Qed.

(* --------------------------------------------------------------------- *)
(** ** Expansion and the PUCT prior *)
(* --------------------------------------------------------------------- *)

Example round_trip_board_stones : zsum round_trip_board = 48.
Proof. reflexivity. Qed.

(** The weights are the binary64 numbers nearest to 7/10 and 2/10. *)
Example weights_as_quotients :
  weight2 = (float_of_Z 7 / float_of_Z 10)%float
  /\ weight3 = (float_of_Z 2 / float_of_Z 10)%float.
Proof. split; reflexivity. Qed.

Example round_trip_scores :
  let game := perform_move (mkGame round_trip_board 0 None) (Some 5) 0 in
  from_board_to_state game = ([1; 1; 1; 1; 1; 1; 3; 6; 5; 4; 7; 8; 8; 1], 0)
  /\ map (fun m => evaluate (perform_move game m 0) 0) (valid_moves game 0)
     = [Some (-1); Some (-1); Some (-1); Some (-1); Some (-1); Some 30]
  /\ map (fun m => evaluate_float (perform_move game m 0) 0) (valid_moves game 0)
     = [Some (-0x1.999999999998p-4)%float; Some (-0x1.999999999998p-4)%float;
        Some (-0x1.999999999998p-4)%float; Some (-0x1.999999999998p-4)%float;
        Some (-0x1.999999999998p-4)%float; Some 3%float].
Proof. vm_compute. repeat split; reflexivity. Qed.


(** A sum of scores that is zero in tenths and positive in binary64: in the
    position that pit 9 leads to from [([6;0;2;2;0;2;6;1;9;7;2;7;0;4], 1)]
    the five candidates score 0.6 twice and -0.4 three times, the sum as the
    program adds it up is 4.44e-16, and the prior is 0 divided by it. *)
Example rounded_sum_is_positive :
  let game := perform_move (mkGame [6; 0; 2; 2; 0; 2; 6; 1; 9; 7; 2; 7; 0; 4] 1 None)
                           (Some 9) 1 in
  from_board_to_state game = ([7; 1; 3; 2; 0; 2; 6; 1; 9; 0; 3; 8; 1; 5], 0)
  /\ map (fun m => evaluate (perform_move game m 0) 0) (valid_moves game 0)
     = [Some 6; Some (-4); Some (-4); Some (-4); Some 6]
  /\ fmap snd (MCTSNode.score_moves game (valid_moves game 0) ∅ 0%float)
     = Some 0x1p-51%float
  /\ MCTSNode.puct_prior game (Some 9) = Some 0%float.
Proof. vm_compute. repeat split; reflexivity. Qed.

Section Expand.

Import MCTSNode.

Lemma score_moves_spec game : forall moves move_scores total_score,
  is_Some (last_pit game) -> NoDup moves ->
  exists ms total,
    score_moves game moves move_scores total_score = Some (ms, total)
    /\ total = foldl PrimFloat.add total_score
                 (map (fun m => default 0%float
                     (evaluate_float (perform_move game m (current_player game))
                                     (current_player game))) moves)
    /\ (forall m, m ∈ moves ->
          ms !! m = evaluate_float (perform_move game m (current_player game))
                                   (current_player game))
    /\ (forall m, m ∉ moves -> ms !! m = move_scores !! m).
Proof.
  induction moves as [|m moves IH]; intros move_scores total_score Hl Hnd.
  - exists move_scores, total_score. simpl.
    split; [reflexivity|]. split; [reflexivity|]. split; [|auto].
    intros m Hm. apply elem_of_nil in Hm. destruct Hm.
  - apply NoDup_cons in Hnd. destruct Hnd as [Hnotin Hnd]. cbn [score_moves].
    destruct (evaluate_float_some (perform_move game m (current_player game))
                (current_player game) (perform_move_last_pit _ _ _ Hl))
      as [score Hscore].
    rewrite Hscore. cbn [mbind option_bind].
    destruct (IH (<[m := score]> move_scores) (total_score + score)%float Hl Hnd)
      as (ms & total & Hrun & Htotal & Hin & Hout).
    exists ms, total. split; [exact Hrun|]. split; [|split].
    + cbn [map foldl]. rewrite Hscore. exact Htotal.
    + intros m' Hm'. apply elem_of_cons in Hm'. destruct Hm' as [->|Hm'].
      * rewrite Hout by exact Hnotin. rewrite lookup_insert_eq. auto.
      * apply Hin, Hm'.
    + intros m' Hm'. apply not_elem_of_cons in Hm'. destruct Hm' as [Hne Hm'].
      rewrite Hout by exact Hm'. apply lookup_insert_ne. auto.
Qed.


End Expand.



(* --------------------------------------------------------------------- *)
(** ** Unbounded best-first minimax *)
(* --------------------------------------------------------------------- *)

Example last_stone_game_facts :
  zsum (board last_stone_game) = 48
  /\ is_terminal last_stone_game = false
  /\ valid_moves last_stone_game 0 = [Some 5]
  /\ is_terminal finished_game = true.
Proof. vm_compute. repeat split; reflexivity. Qed.

(** C7. [run] raises [KeyError] when the loop body never runs (a time limit
    that is already reached, such as 0 seconds), whatever the evaluator, the
    root and the player; and on a terminal root it raises [KeyError] after any
    number of passes, because an iteration on a terminal state creates no
    entry. *)
Theorem run_raises_without_root_entry :
  (forall eval fuel root_game player,
     UBFM.run eval 0 fuel ∅ root_game player = Raise KeyError)
  /\ UBFM.run evaluate 0 10 ∅ new_game 0 = Raise KeyError
  /\ (forall passes,
        UBFM.run evaluate passes 10 ∅ finished_game 0 = Raise KeyError).
Proof.
  split; [|split].
  - intros eval fuel root_game player. unfold UBFM.run. simpl.
    unfold UBFM.best_action. rewrite lookup_empty. reflexivity.
  - vm_compute. reflexivity.
  - intros passes. unfold UBFM.run.
    assert (Hloop : UBFM.run_loop evaluate passes 10 ∅ finished_game 0 = Return ∅).
    { induction passes as [|passes IH]; [vm_compute; reflexivity|].
      cbn [UBFM.run_loop].
      replace (UBFM.unbounded_minimax_iteration evaluate 10 ∅ finished_game 0)
        with (Return (∅ : gmap state_key UBFM.actions, 245))
        by (vm_compute; reflexivity).
      exact IH. }
    rewrite Hloop. vm_compute. reflexivity.
Qed.

(** C6, counterexample. In [last_stone_game] the root is not terminal and
    its only move ends the game.  The first iteration creates the root's
    entry; the second one follows the best move into the terminal state and
    returns with the table exactly as it was: no entry is gained and no branch
    is a ply deeper. *)
Lemma iteration_on_finished_line_adds_nothing :
  exists T1 v,
    UBFM.unbounded_minimax_iteration evaluate 10 ∅ last_stone_game 0
    = Return (T1, v)
    /\ is_terminal last_stone_game = false
    /\ size T1 = 1%nat
    /\ UBFM.unbounded_minimax_iteration evaluate 10 T1 last_stone_game 0
       = Return (T1, v)
    /\ ~ (exists T2 v2,
            UBFM.unbounded_minimax_iteration evaluate 10 T1 last_stone_game 0
            = Return (T2, v2)
            /\ size T2 = S (size T1)).
Proof.
  set (T1 := {[ from_board_to_state last_stone_game := [(Some 5, 245)] ]}
             : gmap state_key UBFM.actions).
  assert (H1 : UBFM.unbounded_minimax_iteration evaluate 10 ∅ last_stone_game 0
               = Return (T1, 245))
    by (vm_compute; reflexivity).
  assert (H2 : UBFM.unbounded_minimax_iteration evaluate 10 T1 last_stone_game 0
               = Return (T1, 245))
    by (vm_compute; reflexivity).
  assert (Hsize : size T1 = 1%nat) by (vm_compute; reflexivity).
  exists T1, 245.
  split; [exact H1|].
  split; [vm_compute; reflexivity|].
  split; [exact Hsize|].
  split; [exact H2|].
  intros (T2 & v2 & Hrun & Hs).
  rewrite H2 in Hrun. inversion Hrun; subst T2.
  rewrite Hsize in Hs. discriminate.
Qed.

(* --------------------------------------------------------------------- *)
(** ** Every legal move makes progress *)
(* --------------------------------------------------------------------- *)

Section Progress.

Lemma weighted_sum_insert : forall (ws b : list Z) (n : nat) v,
  (n < length b)%nat -> length ws = length b ->
  zsum (zip_with Z.mul ws (<[n := v]> b))
  = zsum (zip_with Z.mul ws b)
    + default 0 (ws !! n) * (v - default 0 (b !! n)).
Proof.
  intros ws b. revert ws.
  induction b as [|x b IH]; intros ws n v Hn Hlen; simpl in Hn; [lia|].
  destruct ws as [|w ws]; [discriminate|]. simpl in Hlen.
  destruct n as [|n]; simpl; [lia|].
  rewrite IH by lia. lia.
Qed.

Lemma potential_board_set b i v :
  length b = 14%nat -> 0 <= i < 14 ->
  potential (board_set b i v)
  = potential b + pit_weight i * (v - board_get b i).
Proof.
  intros Hlen Hi. unfold potential, board_set, pit_weight.
  rewrite weighted_sum_insert by (simpl; lia).
  rewrite board_get_nonneg_index by lia. reflexivity.
Qed.

Lemma stores_board_set b i v :
  length b = 14%nat -> 0 <= i < 14 ->
  stores (board_set b i v)
  = stores b + (if (i =? 6) || (i =? 13) then v - board_get b i else 0).
Proof.
  intros Hlen Hi. unfold stores.
  destruct (Z.eq_dec i 6) as [->|H6]; [|destruct (Z.eq_dec i 13) as [->|H13]].
  - rewrite board_get_set_eq, board_get_set_ne by lia. simpl. lia.
  - rewrite board_get_set_eq, board_get_set_ne by lia. simpl. lia.
  - rewrite !board_get_set_ne by lia.
    destruct (Z.eqb_spec i 6); [lia|]. destruct (Z.eqb_spec i 13); [lia|].
    simpl. lia.
Qed.

Lemma pit_weight_next (p i : Z) :
  p = 0 \/ p = 1 -> p * 7 <= i < p * 7 + 5 ->
  pit_weight (i + 1) = pit_weight i - 1.
Proof.
  intros [->| ->] Hi.
  - assert (H : i = 0 \/ i = 1 \/ i = 2 \/ i = 3 \/ i = 4) by lia.
    destruct H as [->|[->|[->|[->| ->]]]]; reflexivity.
  - assert (H : i = 7 \/ i = 8 \/ i = 9 \/ i = 10 \/ i = 11) by lia.
    destruct H as [->|[->|[->|[->| ->]]]]; reflexivity.
Qed.

Lemma sow_loop_progress p s0 phi0 s :
  p = 0 \/ p = 1 ->
  forall fuel b index stones,
    sowing_progress p s0 phi0 s b index stones ->
    let r := sow_loop fuel b index stones (if p =? 1 then 6 else 13) in
    sowing_progress p s0 phi0 s (fst (fst r)) (snd (fst r)) (snd r).
Proof.
  intros Hp. induction fuel as [|fuel IH]; intros b index stones Hinv;
    cbn [sow_loop]; [exact Hinv|].
  destruct (0 <? stones) eqn:Hpos; [|exact Hinv].
  apply Z.ltb_lt in Hpos.
  pose proof (Z.mod_pos_bound (index + 1) 14 ltac:(lia)) as Hm.
  destruct Hinv as [Hlen Hinv].
  destruct ((index + 1) mod 14 =? (if p =? 1 then 6 else 13)) eqn:Hskip.
  - (* the opponent's store is passed over *)
    apply IH. split; [exact Hlen|].
    destruct Hinv as [Hs|(Hs & Hidx & Hphi)]; [left; exact Hs|].
    exfalso. rewrite Z.mod_small in Hskip by lia.
    destruct Hp as [-> | ->]; simpl in Hskip; lia.
  - (* a stone is dropped *)
    apply IH. split; [rewrite length_board_set; exact Hlen|].
    rewrite stores_board_set by (auto; lia).
    destruct Hinv as [Hs|(Hs & Hidx & Hphi)].
    + left. destruct (_ || _); lia.
    + rewrite Z.mod_small in * by lia.
      destruct (Z.eq_dec index (p * 7 + 5)) as [Hlast|Hmid].
      * (* the stone goes into the mover's store *)
        left. subst index.
        destruct Hp as [-> | ->]; simpl; lia.
      * right.
        assert (Hns : (index + 1 =? 6) || (index + 1 =? 13) = false).
        { destruct Hp as [-> | ->]; apply orb_false_intro; lia. }
        rewrite Hns. split; [lia|]. split; [lia|].
        rewrite potential_board_set by (auto; lia).
        rewrite (pit_weight_next p index Hp) in * by lia. nia.
Qed.

Lemma capture_stores b index player :
  length b = 14%nat ->
  capture b index player = b \/ stores b < stores (capture b index player).
Proof.
  intros Hlen. unfold capture.
  destruct ((0 <=? index) && (index <? 6) && (player =? 0)
            && (board_get b index =? 1) && (0 <? board_get b (12 - index))) eqn:C0.
  - right. repeat (apply andb_prop in C0; destruct C0 as [C0 ?]).
    rewrite !stores_board_set by (rewrite ?length_board_set; auto; lia).
    rewrite !board_get_set_ne by lia.
    replace ((index =? 6) || (index =? 13)) with false
      by (symmetry; apply orb_false_intro; lia).
    replace ((12 - index =? 6) || (12 - index =? 13)) with false
      by (symmetry; apply orb_false_intro; lia).
    simpl. lia.
  - destruct ((7 <=? index) && (index <? 13) && (player =? 1)
            && (board_get b index =? 1) && (0 <? board_get b (12 - index))) eqn:C1;
      [|left; reflexivity].
    right. repeat (apply andb_prop in C1; destruct C1 as [C1 ?]).
    rewrite !stores_board_set by (rewrite ?length_board_set; auto; lia).
    rewrite !board_get_set_ne by lia.
    replace ((index =? 6) || (index =? 13)) with false
      by (symmetry; apply orb_false_intro; lia).
    replace ((12 - index =? 6) || (12 - index =? 13)) with false
      by (symmetry; apply orb_false_intro; lia).
    simpl. lia.
Qed.

(** A legal move puts a stone in a store, or else lowers the potential. *)
Lemma perform_move_progress game i p :
  length (board game) = 14%nat ->
  p = 0 \/ p = 1 ->
  p * 7 <= i < p * 7 + 6 ->
  0 < board_get (board game) i ->
  let b' := board (perform_move game (Some i) p) in
  stores (board game) < stores b'
  \/ (stores b' = stores (board game) /\ potential b' < potential (board game)).
Proof.
  intros Hlen Hp Hi Hs. unfold perform_move.
  set (s := board_get (board game) i) in *.
  set (b0 := board_set (board game) i 0).
  assert (Hinv : sowing_progress p (stores (board game)) (potential (board game))
                   s b0 i s).
  { split; [unfold b0; rewrite length_board_set; exact Hlen|].
    right. unfold b0.
    rewrite stores_board_set, potential_board_set by (auto; lia).
    replace ((i =? 6) || (i =? 13)) with false
      by (symmetry; apply orb_false_intro; destruct Hp as [-> | ->]; lia).
    fold s. split; [lia|]. split; [lia|lia]. }
  pose proof (sow_loop_progress p _ _ s Hp (Z.to_nat (2 * s)) b0 i s Hinv) as Hend.
  pose proof (sow_loop_exits b0 i s (if p =? 1 then 6 else 13) ltac:(lia)) as Hexit.
  destruct (sow_loop _ _ _ _ _) as [[b1 i1] s1]. simpl in Hend, Hexit.
  subst s1. destruct Hend as [Hlen1 Hend]. cbn [board].
  destruct (capture_stores b1 i1 p Hlen1) as [-> | Hcap].
  - destruct Hend as [Hgt|(Heq & _ & Hphi)]; [left; exact Hgt|].
    right. split; [exact Heq|lia].
  - left. destruct Hend as [Hgt|(Heq & _)]; lia.
Qed.

Lemma potential_bounds (b : list Z) :
  length b = 14%nat -> Forall (fun x => 0 <= x) b ->
  0 <= potential b <= 6 * (zsum b - stores b) /\ 0 <= stores b <= zsum b.
Proof.
  intros Hlen Hnn.
  do 14 (destruct b as [|? b]; [discriminate|]).
  destruct b; [|discriminate].
  repeat match goal with
         | H : Forall _ (_ :: _) |- _ =>
             apply Forall_cons_1 in H; destruct H
         end.
  unfold potential, stores, board_get. simpl. lia.
Qed.

(** The measure strictly decreases along every legal move of the player to
    move, and is never negative: play from a state is finite. *)
Lemma progress_measure_decreases game move :
  wf_game game ->
  is_terminal game = false ->
  move ∈ valid_moves game (current_player game) ->
  0 <= progress_measure (perform_move game move (current_player game))
     < progress_measure game.
Proof.
  intros Hwf Hterm Hin.
  pose proof (perform_move_wf game move (current_player game) Hwf
                ltac:(apply Hwf) Hin) as Hwf'.
  destruct (valid_moves_not_terminal game move Hwf Hterm Hin) as [i ->].
  destruct (valid_moves_cases _ _ _ Hin) as [Hn|(j & Hj & Hrange & Hpos)];
    [discriminate|]. inversion Hj; subst j.
  destruct Hwf as (Hlen & Hnn & Hcp).
  destruct Hwf' as (Hlen' & Hnn' & _).
  set (g' := perform_move game (Some i) (current_player game)) in *.
  destruct (perform_move_zsum game i (current_player game)) as [Hz _];
    [auto|destruct Hcp as [Hc|Hc]; rewrite Hc in Hrange; lia|lia|].
  fold g' in Hz.
  pose proof (perform_move_progress game i (current_player game) Hlen Hcp
                Hrange Hpos) as Hprog.
  cbv zeta in Hprog. fold g' in Hprog.
  destruct (potential_bounds (board game) Hlen Hnn) as [Hb1 Hb2].
  destruct (potential_bounds (board g') Hlen' Hnn') as [Hb1' Hb2'].
  unfold progress_measure. rewrite Hz.
  set (n := zsum (board game)) in *.
  destruct Hprog as [Hgt|[Heq Hlt]]; [|rewrite Heq; nia].
  nia.
Qed.

End Progress.

(* --------------------------------------------------------------------- *)
(** ** One iteration of the best-first search *)
(* --------------------------------------------------------------------- *)

Section UbfmGrowth.

Import UBFM.

Lemma legal_of_state (state : KalahGame) :
  legal_of (from_board_to_state state)
  = valid_moves state (current_player state).
Proof. reflexivity. Qed.

Lemma measure_of_state (state : KalahGame) :
  progress_measure (game_of (from_board_to_state state)) = progress_measure state.
Proof. reflexivity. Qed.

Lemma actions_set_fresh (d : actions) a v :
  a ∉ map fst d -> actions_set d a v = d ++ [(a, v)].
Proof.
  induction d as [|[a' v'] d IH]; intros Hnot; simpl; [reflexivity|].
  simpl in Hnot. apply not_elem_of_cons in Hnot. destruct Hnot as [Hne Hnot].
  destruct (decide (a' = a)); [congruence|]. rewrite IH by exact Hnot. reflexivity.
Qed.

Lemma actions_set_keys (d : actions) a v :
  a ∈ map fst d -> map fst (actions_set d a v) = map fst d.
Proof.
  induction d as [|[a' v'] d IH]; intros Hin; simpl in *.
  - apply elem_of_nil in Hin. destruct Hin.
  - destruct (decide (a' = a)) as [->|Hne]; [reflexivity|].
    apply elem_of_cons in Hin. destruct Hin as [Heq|Hin]; [congruence|].
    simpl. rewrite IH by exact Hin. reflexivity.
Qed.

Lemma actions_get_in (d : actions) a :
  a ∈ map fst d -> exists v, actions_get d a = Return v.
Proof.
  induction d as [|[a' v'] d IH]; intros Hin; simpl in *.
  - apply elem_of_nil in Hin. destruct Hin.
  - destruct (decide (a' = a)); [eauto|].
    apply elem_of_cons in Hin. destruct Hin as [Heq|Hin]; [congruence|]. auto.
Qed.

Lemma foldl_better_in player (d : actions) : forall x,
  fst (foldl (better player) x d) ∈ map fst (x :: d).
Proof.
  induction d as [|y d IH]; intros x; simpl; [left|].
  specialize (IH (better player x y)). simpl in IH.
  apply elem_of_cons in IH. destruct IH as [Heq|IH].
  - rewrite Heq. unfold better.
    destruct (player =? 0); [destruct (snd x <? snd y)|destruct (snd y <? snd x)];
      simpl; [right; left|left|right; left|left].
  - right. right. exact IH.
Qed.

Lemma best_action_in T key player d :
  T !! key = Some d -> d <> [] ->
  exists a, best_action T key player = Return a /\ a ∈ map fst d.
Proof.
  intros HT Hne. unfold best_action. rewrite HT.
  destruct d as [|x d]; [congruence|].
  eexists. split; [reflexivity|]. apply foldl_better_in.
Qed.

Lemma best_value_in T key player d :
  T !! key = Some d -> d <> [] ->
  exists v, best_value T key player = Return v.
Proof.
  intros HT Hne. unfold best_value.
  destruct (best_action_in T key player d HT Hne) as (a & -> & Ha).
  unfold bind_outcome. rewrite HT. apply actions_get_in, Ha.
Qed.

Variable eval : KalahGame -> Z -> option Z.
Variable player : Z.

(** The evaluator is defined on every state in which a move has been
    played, as [evaluate] is. *)
Hypothesis eval_defined : forall g p, is_Some (last_pit g) -> is_Some (eval g p).

Lemma init_actions_spec state : forall moves d,
  NoDup moves ->
  (forall a, a ∈ moves -> a ∉ map fst d) ->
  (forall a, a ∈ moves -> exists i, a = Some i) ->
  init_actions eval state player moves d
  = Return (d ++ map (fun a => (a, default 0
                (eval (perform_move state a (current_player state)) player)))
              moves).
Proof.
  induction moves as [|a moves IH]; intros d Hnd Hfresh Hsome; simpl.
  - rewrite app_nil_r. reflexivity.
  - apply NoDup_cons in Hnd. destruct Hnd as [Hnotin Hnd].
    destruct (Hsome a ltac:(left)) as [i ->].
    unfold call_eval.
    destruct (eval_defined (perform_move state (Some i) (current_player state))
                player (perform_move_some_last_pit _ _ _)) as [v Hv].
    rewrite Hv. simpl.
    rewrite actions_set_fresh by (apply Hfresh; left).
    rewrite IH; [rewrite <- app_assoc; reflexivity|exact Hnd| |].
    + intros a Ha. rewrite map_app. simpl. intros Hin.
      apply elem_of_app in Hin. destruct Hin as [Hin|Hin].
      * eapply Hfresh; [right; exact Ha|exact Hin].
      * apply list_elem_of_singleton in Hin. subst a. contradiction.
    + intros a Ha. apply Hsome. right. exact Ha.
Qed.

Lemma iteration_spec : forall fuel state T,
  progress_measure state < Z.of_nat fuel ->
  wf_game state ->
  (is_terminal state = true -> is_Some (last_pit state)) ->
  table_ok T ->
  exists T' v,
    unbounded_minimax_iteration eval fuel T state player = Return (T', v)
    /\ grows eval player state T T'.
Proof.
  induction fuel as [|fuel IH]; intros state T Hfuel Hwf Hlast Hok.
  { destruct (potential_bounds (board state)) as [Hb1 Hb2]; try apply Hwf.
    unfold progress_measure in Hfuel. simpl in Hfuel. nia. }
  cbn [unbounded_minimax_iteration].
  destruct (is_terminal state) eqn:Hterm.
  - (* a terminal state is evaluated *)
    unfold call_eval.
    destruct (eval_defined state player (Hlast eq_refl)) as [v ->]. simpl.
    exists T, v. split; [reflexivity|].
    split; [exact Hok|]. split; [auto|]. split; [auto|]. left. auto.
  - set (key := from_board_to_state state).
    assert (Hmoves : forall a, a ∈ valid_moves state (current_player state) ->
                               exists i, a = Some i).
    { intros a Ha. eapply valid_moves_not_terminal; eauto. }
    destruct (T !! key) as [d|] eqn:HT.
    + (* a known state: one step down the best branch *)
      pose proof (Hok key d HT) as Hkeys.
      change (legal_of key) with (valid_moves state (current_player state)) in Hkeys.
      assert (Hne : d <> []).
      { intros ->. simpl in Hkeys. symmetry in Hkeys.
        eapply valid_moves_nonempty; eauto. }
      destruct (best_action_in T key player d HT Hne) as (a & Hbest & Ha).
      rewrite Hbest. cbn [bind_outcome].
      rewrite Hkeys in Ha.
      set (s' := perform_move state a (current_player state)).
      pose proof (progress_measure_decreases state a Hwf Hterm Ha) as Hdec.
      fold s' in Hdec.
      destruct (Hmoves a Ha) as [i Hi].
      destruct (IH s' T) as (T1 & v1 & Hrun & Hok1 & Hframe1 & Hkept1 & Hcase1).
      { lia. }
      { apply perform_move_wf; auto. apply Hwf. }
      { intros _. unfold s'. rewrite Hi. apply perform_move_some_last_pit. }
      { exact Hok. }
      rewrite Hrun. cbn [bind_outcome fst snd].
      assert (HT1 : T1 !! key = Some d).
      { rewrite Hframe1; [exact HT|]. unfold key. rewrite measure_of_state. lia. }
      rewrite HT1.
      set (d2 := actions_set d a v1).
      set (T2 := <[key := d2]> T1).
      assert (Hkeys2 : map fst d2 = map fst d).
      { apply actions_set_keys. rewrite Hkeys. exact Ha. }
      assert (HT2 : T2 !! key = Some d2) by apply lookup_insert_eq.
      destruct (best_value_in T2 key player d2 HT2) as [v Hv].
      { intros Hd2. rewrite Hd2 in Hkeys2. destruct d; [congruence|discriminate]. }
      cbn [bind_outcome]. rewrite Hv. cbn [bind_outcome].
      exists T2, v. split; [reflexivity|].
      assert (Hdom2 : dom T2 = dom T1).
      { unfold T2. rewrite dom_insert_L.
        assert (Hin : key ∈ dom T1) by (apply elem_of_dom; eauto).
        apply set_eq. intros k. rewrite elem_of_union, elem_of_singleton.
        split; [intros [->|Hk]; auto|auto]. }
      assert (Hsize2 : size T2 = size T1).
      { rewrite <- !size_dom. rewrite Hdom2. reflexivity. }
      split; [|split; [|split]].
      * intros k dk Hk. destruct (decide (k = key)) as [->|Hneq].
        -- rewrite HT2 in Hk. inversion Hk; subst dk.
           rewrite Hkeys2. apply (Hok key d HT).
        -- unfold T2 in Hk. rewrite lookup_insert_ne in Hk by auto. eauto.
      * intros k Hk. assert (k <> key).
        { intros ->. unfold key in Hk. rewrite measure_of_state in Hk. lia. }
        unfold T2. rewrite lookup_insert_ne by auto. apply Hframe1. lia.
      * intros k dk Hk. destruct (decide (k = key)) as [->|Hneq].
        -- rewrite HT in Hk. inversion Hk; subst dk. right.
           exists a, v1. split; [rewrite Hkeys; exact Ha|exact HT2].
        -- unfold T2. rewrite lookup_insert_ne by auto. apply Hkept1, Hk.
      * right. destruct Hcase1 as [[-> _]|[[Hd Hs]|(s & Hs1 & Hs2 & Hs3 & Hs4 & Hs5 & Hs6)]].
        -- left. auto.
        -- left. split; congruence.
        -- right. exists s.
           split; [exact Hs1|]. split; [exact Hs2|]. split; [exact Hs3|].
           split; [|split; congruence].
           unfold T2. rewrite lookup_insert_ne; [exact Hs4|].
           intros Heq. rewrite <- Heq in Hs3. congruence.
    + (* a state met for the first time: its entry is created *)
      rewrite (init_actions_spec state _ []); cycle 1.
      { apply valid_moves_NoDup. }
      { intros a _ Hin. apply elem_of_nil in Hin. destruct Hin. }
      { exact Hmoves. }
      cbn [bind_outcome app]. fold (fresh_entry eval player state).
      set (T' := <[key := fresh_entry eval player state]> T).
      assert (HT' : T' !! key = Some (fresh_entry eval player state))
        by apply lookup_insert_eq.
      assert (Hfk : map fst (fresh_entry eval player state)
                    = valid_moves state (current_player state)).
      { unfold fresh_entry. rewrite map_map. simpl. apply map_id. }
      destruct (best_value_in T' key player (fresh_entry eval player state) HT')
        as [v Hv].
      { intros Hd. rewrite Hd in Hfk. symmetry in Hfk.
        eapply valid_moves_nonempty; eauto. }
      rewrite Hv. cbn [bind_outcome].
      exists T', v. split; [reflexivity|].
      split; [|split; [|split]].
      * intros k dk Hk. destruct (decide (k = key)) as [->|Hneq].
        -- rewrite HT' in Hk. inversion Hk; subst dk. exact Hfk.
        -- unfold T' in Hk. rewrite lookup_insert_ne in Hk by auto. eauto.
      * intros k Hk. assert (k <> key).
        { intros ->. unfold key in Hk. rewrite measure_of_state in Hk. lia. }
        unfold T'. rewrite lookup_insert_ne by auto. reflexivity.
      * intros k dk Hk. left. assert (k <> key) by congruence.
        unfold T'. rewrite lookup_insert_ne by auto. exact Hk.
      * right. right. exists state.
        split; [exact Hwf|]. split; [exact Hterm|]. split; [exact HT|].
        split; [exact HT'|]. split; [apply dom_insert_L|].
        apply map_size_insert_None. exact HT.
Qed.

Lemma iteration_unfold fuel T state :
  unbounded_minimax_iteration eval (S fuel) T state player
  = if is_terminal state then
      bind_outcome (call_eval eval state player) (fun v => Return (T, v))
    else
      let key := from_board_to_state state in
      bind_outcome
        (match T !! key with
         | None =>
             bind_outcome
               (init_actions eval state player
                  (valid_moves state (current_player state)) [])
               (fun d => Return (<[key := d]> T))
         | Some _ =>
             bind_outcome (best_action T key player) (fun best_a =>
             let s_prime := perform_move state best_a (current_player state) in
             bind_outcome
               (unbounded_minimax_iteration eval fuel T s_prime player)
               (fun r =>
                  match fst r !! key with
                  | None => Raise KeyError
                  | Some d =>
                      Return (<[key := actions_set d best_a (snd r)]> (fst r))
                  end))
         end)
        (fun T => bind_outcome (best_value T key player) (fun v =>
                  Return (T, v))).
Proof. reflexivity. Qed.

(** More fuel does not change what a call returns. *)
Lemma iteration_fuel_mono : forall fuel T state r,
  unbounded_minimax_iteration eval fuel T state player = Return r ->
  unbounded_minimax_iteration eval (S fuel) T state player = Return r.
Proof.
  induction fuel as [|fuel IH]; intros T state r Hrun; [discriminate|].
  rewrite iteration_unfold in Hrun. rewrite iteration_unfold.
  destruct (is_terminal state); [exact Hrun|].
  cbv zeta in *.
  destruct (T !! from_board_to_state state); [|exact Hrun].
  destruct (best_action T (from_board_to_state state) player) as [a|e];
    [|exact Hrun].
  unfold bind_outcome at 2. unfold bind_outcome at 2 in Hrun.
  destruct (unbounded_minimax_iteration eval fuel T
              (perform_move state a (current_player state)) player)
    as [r1|e] eqn:Hrec; [|discriminate].
  rewrite (IH _ _ _ Hrec). exact Hrun.
Qed.

Lemma iteration_fuel_le fuel fuel' T state r :
  (fuel <= fuel')%nat ->
  unbounded_minimax_iteration eval fuel T state player = Return r ->
  unbounded_minimax_iteration eval fuel' T state player = Return r.
Proof.
  induction 1 as [|fuel' _ IH]; [auto|].
  intros Hrun. apply iteration_fuel_mono, IH, Hrun.
Qed.

End UbfmGrowth.

Section UbfmLine.

Import UBFM.

Variable eval : KalahGame -> Z -> option Z.
Variable player : Z.

Hypothesis eval_defined : forall g p, is_Some (last_pit g) -> is_Some (eval g p).

(** [best_action] and [best_value] read one entry of the table. *)
Lemma best_value_entry (T1 T2 : gmap state_key actions) key :
  T2 !! key = T1 !! key -> best_value T2 key player = best_value T1 key player.
Proof.
  intros H. unfold best_value, best_action. rewrite H. reflexivity.
Qed.

Lemma backed_up_entry (T1 T2 : gmap state_key actions) state :
  T2 !! from_board_to_state state = T1 !! from_board_to_state state ->
  backed_up eval player T2 state = backed_up eval player T1 state.
Proof.
  intros H. unfold backed_up. rewrite (best_value_entry T1 T2 _ H). reflexivity.
Qed.

Lemma key_measure (s s' : KalahGame) :
  progress_measure s' < progress_measure s ->
  from_board_to_state s' <> from_board_to_state s.
Proof.
  intros Hlt Heq.
  rewrite <- (measure_of_state s), <- (measure_of_state s'), Heq in Hlt. lia.
Qed.


Lemma iteration_line : forall fuel state T T' v,
  wf_game state ->
  (is_terminal state = true -> is_Some (last_pit state)) ->
  table_ok T ->
  unbounded_minimax_iteration eval fuel T state player = Return (T', v) ->
  exists line last, along_line eval player state T T' v line last.
Proof.
  induction fuel as [|fuel IH]; intros state T T' v Hwf Hlast Hok Hrun;
    [discriminate|].
  rewrite iteration_unfold in Hrun.
  destruct (is_terminal state) eqn:Hterm.
  - (* a terminal state: the line ends here *)
    unfold call_eval in Hrun.
    destruct (eval state player) as [v0|] eqn:Hv; [|discriminate].
    simpl in Hrun. injection Hrun as <- <-.
    exists [], state. unfold along_line.
    split; [constructor; left; exact Hterm|].
    split; [unfold backed_up; rewrite Hterm; exact Hv|].
    split; [lia|]. rewrite Hterm.
    split; [reflexivity|].
    split; [intros s a Hin; inversion Hin|].
    intros k d _ Hk. exact Hk.
  - cbv zeta in Hrun.
    set (key := from_board_to_state state) in *.
    assert (Hmoves : forall a, a ∈ valid_moves state (current_player state) ->
                               exists i, a = Some i).
    { intros a Ha. eapply valid_moves_not_terminal; eauto. }
    destruct (T !! key) as [d|] eqn:HT.
    + (* a known state: one step down the best line *)
      pose proof (Hok key d HT) as Hkeys.
      change (legal_of key) with (valid_moves state (current_player state)) in Hkeys.
      assert (Hne : d <> []).
      { intros ->. simpl in Hkeys. symmetry in Hkeys.
        eapply valid_moves_nonempty; eauto. }
      destruct (best_action_in T key player d HT Hne) as (a & Hbest & Ha).
      rewrite Hbest in Hrun. cbn [bind_outcome] in Hrun.
      set (s' := perform_move state a (current_player state)) in *.
      assert (Hlegal : a ∈ valid_moves state (current_player state))
        by (rewrite <- Hkeys; exact Ha).
      pose proof (progress_measure_decreases state a Hwf Hterm Hlegal) as Hdec.
      fold s' in Hdec.
      destruct (Hmoves a Hlegal) as [i Hi].
      destruct (unbounded_minimax_iteration eval fuel T s' player)
        as [[T1 v1]|e] eqn:Hrec; [|discriminate].
      cbn [bind_outcome fst snd] in Hrun.
      destruct (IH s' T T1 v1) as (line & last & Hline & Hv1 & Hm & Hend & Hon & Hoff).
      { apply perform_move_wf; auto. apply Hwf. }
      { intros _. unfold s'. rewrite Hi. apply perform_move_some_last_pit. }
      { exact Hok. }
      { exact Hrec. }
      assert (Hfresh : forall s a0, (s, a0) ∈ line -> key <> from_board_to_state s).
      { intros s a0 Hin. destruct (Hon s a0 Hin) as [Hms _].
        intros Heq. symmetry in Heq. revert Heq. apply key_measure. lia. }
      assert (HT1 : T1 !! key = Some d) by (apply Hoff; auto).
      rewrite HT1 in Hrun.
      set (d2 := actions_set d a v1) in *.
      set (T2 := <[key := d2]> T1) in *.
      cbn [bind_outcome] in Hrun.
      destruct (best_value T2 key player) as [v2|e] eqn:Hbv;
        cbn [bind_outcome] in Hrun; [|discriminate].
      injection Hrun as <- <-.
      assert (Hother : forall k, k <> key -> T2 !! k = T1 !! k).
      { intros k Hk. unfold T2. apply lookup_insert_ne. auto. }
      exists ((state, a) :: line), last. unfold along_line.
      split; [apply best_line_step; assumption|].
      split; [unfold backed_up; rewrite Hterm; fold key; rewrite Hbv; reflexivity|].
      split; [lia|].
      assert (Hlastkey : from_board_to_state last <> key)
        by (apply key_measure; lia).
      assert (Hdom : dom T2 = dom T1).
      { unfold T2. rewrite dom_insert_L.
        assert (Hin : key ∈ dom T1) by (apply elem_of_dom; eauto).
        apply set_eq. intros k. rewrite elem_of_union, elem_of_singleton.
        split; [intros [->|Hk]; auto|auto]. }
      split; [|split].
      * destruct (is_terminal last).
        -- rewrite Hdom. exact Hend.
        -- destruct Hend as (He1 & He2 & He3).
           split; [exact He1|]. split; [rewrite Hother by exact Hlastkey; exact He2|].
           rewrite Hdom. exact He3.
      * intros s a0 Hin. apply elem_of_cons in Hin.
        destruct Hin as [Heq|Hin].
        -- injection Heq as -> ->. fold s'.
           split; [lia|]. exists d, v1.
           split; [exact HT|]. split; [exact Ha|].
           split; [|apply lookup_insert_eq].
           rewrite (backed_up_entry T1 T2); [exact Hv1|].
           apply Hother. apply key_measure. lia.
        -- destruct (Hon s a0 Hin) as (Hms & d0 & w & Hd0 & Ha0 & Hw & Hs).
           split; [lia|]. exists d0, w.
           split; [exact Hd0|]. split; [exact Ha0|].
           split.
           ++ rewrite (backed_up_entry T1 T2); [exact Hw|].
              apply Hother. apply key_measure. lia.
           ++ rewrite Hother; [exact Hs|]. apply key_measure. lia.
      * intros k dk Hk HTk.
        assert (k <> key)
          by (intros ->; apply (Hk state a ltac:(left)); reflexivity).
        rewrite Hother by assumption.
        apply Hoff; [|exact HTk].
        intros s a0 Hin. apply (Hk s a0). right. exact Hin.
    + (* a state met for the first time: the line ends here *)
      rewrite (init_actions_spec eval player eval_defined state _ []) in Hrun;
        cycle 1.
      { apply valid_moves_NoDup. }
      { intros a _ Hin. apply elem_of_nil in Hin. destruct Hin. }
      { exact Hmoves. }
      cbn [bind_outcome app] in Hrun. fold (fresh_entry eval player state) in Hrun.
      set (T1 := <[key := fresh_entry eval player state]> T) in *.
      cbn [bind_outcome] in Hrun.
      destruct (best_value T1 key player) as [v1|e] eqn:Hbv;
        cbn [bind_outcome] in Hrun; [|discriminate].
      injection Hrun as <- <-.
      exists [], state. unfold along_line.
      split; [constructor; right; exact HT|].
      split; [unfold backed_up; rewrite Hterm; fold key; rewrite Hbv; reflexivity|].
      split; [lia|]. rewrite Hterm. fold key.
      split; [split; [exact HT|split; [apply lookup_insert_eq|apply dom_insert_L]]|].
      split; [intros s a Hin; inversion Hin|].
      intros k d _ Hk. unfold T1. rewrite lookup_insert_ne; [exact Hk|].
      intros <-. congruence.
Qed.

End UbfmLine.

(** C6 (as the code has it). With an evaluator that is defined wherever a
    move has been played and a table whose entries list the legal moves of
    their states, one iteration on a well-formed state that is not terminal
    returns (with any allowance of nested calls beyond a bound), and what it
    does to the table is fixed by the best line of the table from that state,
    which passes through known states and ends in a terminal state or in the
    first state that has no entry.  If the line ends in a state without entry,
    the table gains exactly the entry of that state, with each legal move of
    the state evaluated once; if it ends in a terminal state, the table keeps
    exactly the keys it had.  Each known state on the line keeps its entry
    with one value overwritten, the value of its best move, by the value
    handed back from the state that move leads to; every other entry is as it
    was, so that no known state has its moves evaluated again from
    scratch.  The call returns the value of the best move of its state in the
    new table. *)
Theorem iteration_grows_table (eval : KalahGame -> Z -> option Z) (player : Z)
    (T : gmap state_key UBFM.actions) (state : KalahGame) :
  (forall g p, is_Some (last_pit g) -> is_Some (eval g p)) ->
  wf_game state ->
  is_terminal state = false ->
  table_ok T ->
  exists fuel T' v line last,
    (forall fuel', (fuel <= fuel')%nat ->
       UBFM.unbounded_minimax_iteration eval fuel' T state player
       = Return (T', v))
    /\ best_line T player state line last
    /\ table_ok T'
    /\ (if is_terminal last
        then dom T' = dom T /\ size T' = size T
        else T !! from_board_to_state last = None
             /\ T' !! from_board_to_state last
                = Some (fresh_entry eval player last)
             /\ dom T' = {[ from_board_to_state last ]} ∪ dom T
             /\ size T' = S (size T))
    /\ (forall s a, (s, a) ∈ line ->
          exists d w,
            T !! from_board_to_state s = Some d
            /\ a ∈ map fst d
            /\ backed_up eval player T' (perform_move s a (current_player s))
               = Some w
            /\ T' !! from_board_to_state s = Some (UBFM.actions_set d a w))
    /\ (forall k d,
          (forall s a, (s, a) ∈ line -> k <> from_board_to_state s) ->
          T !! k = Some d -> T' !! k = Some d)
    /\ (forall key d, T !! key = Some d ->
          T' !! key = Some d
          \/ exists a w, a ∈ map fst d
                         /\ T' !! key = Some (UBFM.actions_set d a w))
    /\ backed_up eval player T' state = Some v.
Proof.
  intros Heval Hwf Hterm Hok.
  set (fuel := S (Z.to_nat (progress_measure state))).
  destruct (iteration_spec eval player Heval fuel state T)
    as (T' & v & Hrun & Hok' & _ & Hkept & _).
  { destruct (potential_bounds (board state)) as [Hb1 Hb2]; try apply Hwf.
    unfold fuel, progress_measure in *. lia. }
  { exact Hwf. }
  { congruence. }
  { exact Hok. }
  destruct (iteration_line eval player Heval fuel state T T' v Hwf
              ltac:(congruence) Hok Hrun)
    as (line & last & Hline & Hv & _ & Hend & Hon & Hoff).
  exists fuel, T', v, line, last.
  split; [intros fuel' Hle; eapply iteration_fuel_le; eauto|].
  split; [exact Hline|]. split; [exact Hok'|].
  split; [|split; [|split; [exact Hoff|split; [exact Hkept|exact Hv]]]].
  - destruct (is_terminal last).
    + split; [exact Hend|]. rewrite <- !size_dom, Hend. reflexivity.
    + destruct Hend as (He1 & He2 & He3).
      split; [exact He1|]. split; [exact He2|]. split; [exact He3|].
      rewrite <- !size_dom, He3. rewrite size_union.
      * rewrite size_singleton. reflexivity.
      * apply disjoint_singleton_l. apply not_elem_of_dom. exact He1.
  - intros s a Hin. destruct (Hon s a Hin) as (_ & d & w & H).
    exists d, w. exact H.
Qed.

Lemma iteration_grows_table_witness :
  exists fuel T' v line last,
    (forall fuel', (fuel <= fuel')%nat ->
       UBFM.unbounded_minimax_iteration evaluate fuel' root_table new_game 0
       = Return (T', v))
    /\ best_line root_table 0 new_game line last
    /\ table_ok T'
    /\ (if is_terminal last
        then dom T' = dom root_table /\ size T' = size root_table
        else root_table !! from_board_to_state last = None
             /\ T' !! from_board_to_state last
                = Some (fresh_entry evaluate 0 last)
             /\ dom T' = {[ from_board_to_state last ]} ∪ dom root_table
             /\ size T' = S (size root_table))
    /\ (forall s a, (s, a) ∈ line ->
          exists d w,
            root_table !! from_board_to_state s = Some d
            /\ a ∈ map fst d
            /\ backed_up evaluate 0 T' (perform_move s a (current_player s))
               = Some w
            /\ T' !! from_board_to_state s = Some (UBFM.actions_set d a w))
    /\ (forall k d,
          (forall s a, (s, a) ∈ line -> k <> from_board_to_state s) ->
          root_table !! k = Some d -> T' !! k = Some d)
    /\ (forall key d, root_table !! key = Some d ->
          T' !! key = Some d
          \/ exists a w, a ∈ map fst d
                         /\ T' !! key = Some (UBFM.actions_set d a w))
    /\ backed_up evaluate 0 T' new_game = Some v.
Proof.
  apply (iteration_grows_table evaluate 0 root_table new_game).
  - exact evaluate_some.
  - repeat split; [|left; reflexivity]. simpl. repeat constructor; lia.
  - vm_compute. reflexivity.
  - intros key d H. unfold root_table in H.
    apply lookup_singleton_Some in H. destruct H as [<- <-].
    vm_compute. reflexivity.
Defined.

(** The second iteration at the start of the game: the best line of
    [root_table] passes the initial position, whose best move is pit 2, and
    ends in the position after that move, which gains its entry; the value of
    pit 2 at the root goes from 8 to 11 tenths. *)
Example second_iteration_from_the_start :
  best_line root_table 0 new_game [(new_game, Some 2)]
            (perform_move new_game (Some 2) 0)
  /\ exists T',
       UBFM.unbounded_minimax_iteration evaluate 10 root_table new_game 0
       = Return (T', 11)
       /\ size T' = 2%nat
       /\ T' !! from_board_to_state (perform_move new_game (Some 2) 0)
          = Some (fresh_entry evaluate 0 (perform_move new_game (Some 2) 0))
       /\ T' !! from_board_to_state new_game
          = Some (UBFM.actions_set (fresh_entry evaluate 0 new_game) (Some 2) 11).
Proof.
  split.
  - apply best_line_step; [reflexivity|vm_compute; reflexivity|].
    apply best_line_end. right. vm_compute. reflexivity.
  - exists (<[from_board_to_state new_game
               := UBFM.actions_set (fresh_entry evaluate 0 new_game) (Some 2) 11]>
              (<[from_board_to_state (perform_move new_game (Some 2) 0)
                 := fresh_entry evaluate 0 (perform_move new_game (Some 2) 0)]>
                 root_table)).
    split; [vm_compute; reflexivity|].
    split; [vm_compute; reflexivity|].
    split; [|apply lookup_insert_eq].
    rewrite lookup_insert_ne by (vm_compute; discriminate).
    apply lookup_insert_eq.
Qed.

(* --------------------------------------------------------------------- *)
(** ** The rules of play *)
(* --------------------------------------------------------------------- *)

Section Rules.

Implicit Types (game : KalahGame) (move : option Z) (player : Z) (b : list Z).

Lemma valid_moves_sentinel game player :
  valid_moves game player = [None]
  <-> forall i, player * 7 <= i < player * 7 + 6 -> board_get (board game) i <= 0.
Proof.
  unfold valid_moves.
  destruct (List.filter _ _) as [|m ms] eqn:E; split.
  - intros _ i Hi.
    destruct (Z.ltb_spec 0 (board_get (board game) i)) as [Hp|]; [|lia].
    exfalso.
    assert (Hf : In i (List.filter (fun i => 0 <? board_get (board game) i)
                                   (seqZ (player * 7) 6))).
    { apply filter_In. split; [|lia]. apply list_elem_of_In, elem_of_seqZ. lia. }
    rewrite E in Hf. destruct Hf.
  - reflexivity.
  - discriminate.
  - intros Hnone. exfalso.
    assert (Hf : In m (List.filter (fun i => 0 <? board_get (board game) i)
                                   (seqZ (player * 7) 6)))
      by (rewrite E; left; reflexivity).
    apply filter_In in Hf. destruct Hf as [Hin Hpos].
    apply list_elem_of_In, elem_of_seqZ in Hin.
    specialize (Hnone m ltac:(lia)). lia.
Qed.

Lemma valid_moves_some game player i :
  Some i ∈ valid_moves game player
  <-> player * 7 <= i < player * 7 + 6 /\ 0 < board_get (board game) i.
Proof.
  split.
  - intros Hin. apply valid_moves_cases in Hin.
    destruct Hin as [?|(j & Hj & ? & ?)]; [discriminate|].
    injection Hj as ->. auto.
  - intros [Hi Hpos]. unfold valid_moves.
    assert (Hf : In i (List.filter (fun i => 0 <? board_get (board game) i)
                                   (seqZ (player * 7) 6))).
    { apply filter_In. split; [|lia]. apply list_elem_of_In, elem_of_seqZ. lia. }
    destruct (List.filter _ _) as [|m ms] eqn:E; [destruct Hf|].
    apply list_elem_of_fmap. exists i. split; [reflexivity|].
    apply list_elem_of_In. exact Hf.
Qed.

Lemma valid_moves_none game player :
  None ∈ valid_moves game player -> valid_moves game player = [None].
Proof.
  unfold valid_moves.
  destruct (List.filter _ _) as [|m ms] eqn:E; [reflexivity|].
  intros Hin. apply list_elem_of_fmap in Hin.
  destruct Hin as (? & ? & _). discriminate.
Qed.

(** A row of six pits holds no stone exactly when each pit is empty. *)
Lemma zsum_zero_iff (xs : list Z) :
  Forall (fun x => 0 <= x) xs ->
  zsum xs = 0 <-> Forall (fun x => x = 0) xs.
Proof.
  induction 1 as [|x xs Hx Hxs IH]; simpl.
  - split; auto.
  - pose proof (zsum_nonneg xs Hxs). split.
    + intros Hs. constructor; [lia|]. apply IH. lia.
    + intros Hall. inversion Hall; subst. apply IH in H3. lia.
Qed.

Lemma row_empty_iff b (start : nat) :
  length b = 14%nat -> (start + 6 <= 14)%nat ->
  Forall (fun x => 0 <= x) b ->
  zsum (take 6 (drop start b)) = 0
  <-> forall i, Z.of_nat start <= i < Z.of_nat start + 6 -> board_get b i <= 0.
Proof.
  intros Hlen Hs Hnn.
  rewrite zsum_zero_iff by (apply Forall_take, Forall_drop; auto).
  rewrite Forall_lookup. split.
  - intros Hall i Hi.
    rewrite board_get_nonneg_index by lia.
    destruct (b !! Z.to_nat i) as [x|] eqn:E; simpl; [|lia].
    specialize (Hall (Z.to_nat i - start)%nat x).
    rewrite lookup_take_lt, lookup_drop in Hall by lia.
    replace (start + (Z.to_nat i - start))%nat with (Z.to_nat i) in Hall by lia.
    specialize (Hall E). lia.
  - intros Hnone n x Hn.
    pose proof (lookup_lt_Some _ _ _ Hn) as Hlt. rewrite length_take in Hlt.
    rewrite lookup_take_lt, lookup_drop in Hn by lia.
    specialize (Hnone (Z.of_nat (start + n)) ltac:(lia)).
    rewrite board_get_nonneg_index, Nat2Z.id, Hn in Hnone by lia. simpl in Hnone.
    eapply Forall_lookup_1 in Hnn; eauto. simpl in Hnn. lia.
Qed.

Lemma is_terminal_sentinel game :
  wf_game game ->
  is_terminal game = true
  <-> valid_moves game 0 = [None] \/ valid_moves game 1 = [None].
Proof.
  intros (Hlen & Hnn & _). unfold is_terminal.
  rewrite orb_true_iff, !Z.eqb_eq, !valid_moves_sentinel.
  change (take 6 (board game)) with (take 6 (drop 0 (board game))).
  rewrite (row_empty_iff (board game) 0), (row_empty_iff (board game) 7)
    by (auto; lia).
  reflexivity.
Qed.

Lemma valid_moves_no_sentinel game player :
  wf_game game -> is_terminal game = false ->
  player = 0 \/ player = 1 ->
  None ∉ valid_moves game player.
Proof.
  intros Hwf Hterm Hp Hin.
  apply valid_moves_none in Hin.
  assert (Ht : is_terminal game = true).
  { apply is_terminal_sentinel; [exact Hwf|].
    destruct Hp as [->| ->]; [left|right]; exact Hin. }
  congruence.
Qed.

End Rules.

Section SowingRules.

Implicit Types (game : KalahGame) (player : Z) (b : list Z)
         (index stones skip : Z).

Lemma sow_loop_empty_hand fuel b index skip :
  sow_loop fuel b index 0 skip = (b, index, 0).
Proof. destruct fuel; reflexivity. Qed.

(** The loop never takes a stone off the board. *)
Lemma sow_loop_grows fuel : forall b index stones skip j,
  0 <= j ->
  board_get b j <= board_get (fst (fst (sow_loop fuel b index stones skip))) j.
Proof.
  induction fuel as [|fuel IH]; intros b index stones skip j Hj; simpl; [lia|].
  destruct (0 <? stones); simpl; [|lia].
  pose proof (Z.mod_pos_bound (index + 1) 14 ltac:(lia)) as Hm.
  destruct (_ =? skip); [apply IH; auto|].
  etransitivity; [|apply IH; auto].
  destruct (Z.eq_dec ((index + 1) mod 14) j) as [->|Hne].
  - rewrite !board_get_nonneg_index by lia. unfold board_set.
    destruct (decide (Z.to_nat j < length b)%nat) as [Hlt|Hge].
    + rewrite list_lookup_insert_eq by lia. simpl. lia.
    + rewrite list_insert_ge by lia. lia.
  - rewrite board_get_set_ne by lia. lia.
Qed.

(** The skipped store keeps its count. *)
Lemma sow_loop_skips fuel : forall b index stones skip,
  0 <= skip ->
  board_get (fst (fst (sow_loop fuel b index stones skip))) skip
  = board_get b skip.
Proof.
  induction fuel as [|fuel IH]; intros b index stones skip Hk; simpl; [auto|].
  destruct (0 <? stones); simpl; [|auto].
  pose proof (Z.mod_pos_bound (index + 1) 14 ltac:(lia)) as Hm.
  destruct (Z.eqb_spec ((index + 1) mod 14) skip) as [He|Hne]; [apply IH; auto|].
  rewrite IH by auto. apply board_get_set_ne; lia.
Qed.

(** A hand that held a stone is never emptied into the skipped store. *)
Lemma sow_loop_ends_off_skip fuel : forall b index stones skip,
  0 < stones ->
  snd (sow_loop fuel b index stones skip) = 0 ->
  snd (fst (sow_loop fuel b index stones skip)) <> skip.
Proof.
  induction fuel as [|fuel IH]; intros b index stones skip Hs; simpl; [lia|].
  destruct (Z.ltb_spec 0 stones) as [_|]; [|lia].
  destruct (Z.eqb_spec ((index + 1) mod 14) skip) as [He|Hne]; [apply IH; auto|].
  destruct (Z.eq_dec stones 1) as [->|H1].
  - rewrite sow_loop_empty_hand. simpl. auto.
  - apply IH. lia.
Qed.

(** Sowing that neither wraps around the board nor meets the skipped store:
    the slots after the pit gain one stone each. *)
Lemma sow_loop_short fuel : forall b index stones skip,
  length b = 14%nat ->
  0 <= index -> 0 <= stones -> index + stones <= 13 ->
  skip <= index \/ index + stones < skip ->
  (Z.to_nat stones <= fuel)%nat ->
  exists b',
    sow_loop fuel b index stones skip = (b', index + stones, 0)
    /\ length b' = 14%nat
    /\ forall j, 0 <= j < 14 ->
         board_get b' j
         = if (index <? j) && (j <=? index + stones)
           then board_get b j + 1 else board_get b j.
Proof.
  induction fuel as [|fuel IH]; intros b index stones skip Hlen Hi Hs Hle Hk Hf.
  - assert (stones = 0) as -> by lia. simpl. exists b.
    rewrite Z.add_0_r. split; [reflexivity|]. split; [auto|].
    intros j Hj. destruct (Z.ltb_spec index j), (Z.leb_spec j index); simpl; lia.
  - simpl. destruct (Z.ltb_spec 0 stones) as [Hpos|Hz].
    + rewrite Z.mod_small by lia.
      destruct (Z.eqb_spec (index + 1) skip) as [He|Hne]; [lia|].
      destruct (IH (board_set b (index + 1) (board_get b (index + 1) + 1))
                   (index + 1) (stones - 1) skip) as (b' & E & Hl & Hb');
        [rewrite length_board_set; auto|lia|lia|lia|lia|lia|].
      exists b'. rewrite E. split; [f_equal; f_equal; lia|]. split; [auto|].
      intros j Hj. rewrite Hb' by auto.
      destruct (Z.eq_dec j (index + 1)) as [->|Hj1].
      * rewrite board_get_set_eq by lia.
        destruct (Z.ltb_spec (index + 1) (index + 1)),
                 (Z.ltb_spec index (index + 1)),
                 (Z.leb_spec (index + 1) (index + stones)); simpl; lia.
      * rewrite board_get_set_ne by lia.
        destruct (Z.ltb_spec (index + 1) j), (Z.ltb_spec index j),
                 (Z.leb_spec j (index + 1 + (stones - 1))),
                 (Z.leb_spec j (index + stones)); simpl; lia.
    + assert (stones = 0) as -> by lia. exists b.
      rewrite Z.add_0_r. split; [reflexivity|]. split; [auto|].
      intros j Hj. destruct (Z.ltb_spec index j), (Z.leb_spec j index); simpl; lia.
Qed.

(** What [perform_move] computes, with the sowing loop named. *)
Lemma perform_move_unfold game i player b' index' stones' :
  sow_loop (Z.to_nat (2 * board_get (board game) i))
           (board_set (board game) i 0) i (board_get (board game) i)
           (if player =? 1 then 6 else 13) = (b', index', stones') ->
  perform_move game (Some i) player
  = mkGame (capture b' index' player)
           (if index' =? (if player =? 0 then 6 else 13)
            then current_player game else 1 - player)
           (Some index').
Proof. intros E. unfold perform_move. rewrite E. reflexivity. Qed.

(** The capture rule leaves the store of the player's opponent alone, and
    never lowers the player's own. *)
Lemma capture_store_of b index player :
  length b = 14%nat -> Forall (fun x => 0 <= x) b ->
  player = 0 \/ player = 1 ->
  board_get (capture b index player) (store_of (1 - player))
  = board_get b (store_of (1 - player))
  /\ board_get b (store_of player)
     <= board_get (capture b index player) (store_of player).
Proof.
  intros Hlen Hnn Hp. unfold capture.
  pose proof (board_get_nonneg b index Hnn).
  pose proof (board_get_nonneg b (12 - index) Hnn).
  destruct ((0 <=? index) && (index <? 6) && (player =? 0)
            && (board_get b index =? 1) && (0 <? board_get b (12 - index))) eqn:C0.
  - repeat (apply andb_prop in C0; destruct C0 as [C0 ?]).
    assert (player = 0) as -> by lia.
    change (store_of (1 - 0)) with 13. change (store_of 0) with 6.
    split; [rewrite !board_get_set_ne by lia; reflexivity|].
    rewrite !board_get_set_ne by lia.
    rewrite board_get_set_eq by lia. lia.
  - destruct ((7 <=? index) && (index <? 13) && (player =? 1)
            && (board_get b index =? 1) && (0 <? board_get b (12 - index))) eqn:C1;
      [|lia].
    repeat (apply andb_prop in C1; destruct C1 as [C1 ?]).
    assert (player = 1) as -> by lia.
    change (store_of (1 - 1)) with 6. change (store_of 1) with 13.
    split; [rewrite !board_get_set_ne by lia; reflexivity|].
    rewrite !board_get_set_ne by lia.
    rewrite board_get_set_eq by lia. lia.
Qed.

End SowingRules.

(** X1. [valid_moves]: on a well-formed state the list holds pit [i] exactly
    when [i] is one of the player's six pits and holds a stone; it holds the
    sentinel [None] exactly when the six pits are all empty, and then holds
    nothing else; it is never empty, never longer than six and has no
    repeated entry. *)
Theorem valid_moves_characterised (game : KalahGame) (player : Z) :
  wf_game game -> player = 0 \/ player = 1 ->
  (forall i, Some i ∈ valid_moves game player
             <-> player * 7 <= i < player * 7 + 6
                 /\ 0 < board_get (board game) i)
  /\ (None ∈ valid_moves game player
      <-> forall i, player * 7 <= i < player * 7 + 6 ->
                    board_get (board game) i = 0)
  /\ (None ∈ valid_moves game player -> valid_moves game player = [None])
  /\ (1 <= length (valid_moves game player) <= 6)%nat
  /\ NoDup (valid_moves game player).
Proof.
  intros (Hlen & Hnn & _) Hp.
  split; [intros i; apply valid_moves_some|].
  split; [|split; [apply valid_moves_none|
                   split; [apply valid_moves_length|apply valid_moves_NoDup]]].
  split.
  - intros Hin i Hi. apply valid_moves_none in Hin.
    pose proof (proj1 (valid_moves_sentinel game player) Hin i Hi).
    pose proof (board_get_nonneg (board game) i Hnn). lia.
  - intros Hall.
    assert (E : valid_moves game player = [None]).
    { apply valid_moves_sentinel. intros i Hi. rewrite Hall by auto. lia. }
    rewrite E. apply list_elem_of_singleton. reflexivity.
Qed.

Lemma valid_moves_characterised_witness :
  Some 3 ∈ valid_moves new_game 0
  /\ (1 <= length (valid_moves new_game 1) <= 6)%nat.
Proof.
  split.
  - apply (valid_moves_characterised new_game 0).
    + repeat split; [|left; reflexivity]. simpl. repeat constructor; lia.
    + left; reflexivity.
    + split; [lia|reflexivity].
  - apply (valid_moves_characterised new_game 1).
    + repeat split; [|left; reflexivity]. simpl. repeat constructor; lia.
    + right; reflexivity.
Defined.

(** X2. [is_terminal] holds exactly when one of the two players has no stone
    to play, that is, when [valid_moves] gives the sentinel list [[None]] for
    player 0 or for player 1; so in a state that is not terminal no move
    list holds the sentinel. *)
Theorem is_terminal_iff_no_move (game : KalahGame) :
  wf_game game ->
  (is_terminal game = true
   <-> valid_moves game 0 = [None] \/ valid_moves game 1 = [None])
  /\ (is_terminal game = false ->
      forall player, player = 0 \/ player = 1 ->
                     None ∉ valid_moves game player).
Proof.
  intros Hwf. split; [apply is_terminal_sentinel, Hwf|].
  intros Hterm player Hp. apply valid_moves_no_sentinel; auto.
Qed.

Lemma is_terminal_iff_no_move_witness :
  is_terminal finished_game = true
  <-> valid_moves finished_game 0 = [None]
      \/ valid_moves finished_game 1 = [None].
Proof.
  apply (is_terminal_iff_no_move finished_game).
  repeat split; [|left; reflexivity]. vm_compute. repeat constructor; discriminate.
Defined.

(** X3. A legal move never changes the store of the mover's opponent and
    never lowers the mover's own store. *)
Theorem perform_move_stores (game : KalahGame) (player : Z) (move : option Z) :
  wf_game game -> player = 0 \/ player = 1 ->
  move ∈ valid_moves game player ->
  get_store (perform_move game move player) (1 - player)
  = get_store game (1 - player)
  /\ get_store game player <= get_store (perform_move game move player) player.
Proof.
  intros (Hlen & Hnn & _) Hp Hin.
  destruct (valid_moves_cases _ _ _ Hin) as [->|(i & -> & Hi & Hpos)];
    [split; [reflexivity|simpl; lia]|].
  set (skip := if player =? 1 then 6 else 13).
  destruct (sow_loop (Z.to_nat (2 * board_get (board game) i))
              (board_set (board game) i 0) i (board_get (board game) i) skip)
    as [[b' index'] stones'] eqn:E.
  rewrite (perform_move_unfold game i player b' index' stones' E).
  pose proof (sow_loop_conserves _ _ _ _ _ _ _ _
                ltac:(rewrite length_board_set; exact Hlen) E) as [Hl' _].
  pose proof (sow_loop_nonneg (Z.to_nat (2 * board_get (board game) i))
                (board_set (board game) i 0) i (board_get (board game) i) skip
                ltac:(apply Forall_nonneg_board_set; [exact Hnn|lia])) as Hnn'.
  pose proof (sow_loop_skips (Z.to_nat (2 * board_get (board game) i))
                (board_set (board game) i 0) i (board_get (board game) i) skip
                ltac:(subst skip; destruct (player =? 1); lia)) as Hskip.
  pose proof (sow_loop_grows (Z.to_nat (2 * board_get (board game) i))
                (board_set (board game) i 0) i (board_get (board game) i) skip
                (store_of player)
                ltac:(unfold store_of; destruct (player =? 0); lia)) as Hgrow.
  rewrite E in Hnn', Hskip, Hgrow. simpl in Hnn', Hskip, Hgrow.
  destruct (capture_store_of b' index' player Hl' Hnn' Hp) as [Hc1 Hc2].
  assert (Hk : skip = store_of (1 - player))
    by (subst skip; destruct Hp as [->| ->]; reflexivity).
  rewrite Hk in Hskip.
  assert (Hg1 : forall g, get_store g (1 - player)
                          = board_get (board g) (store_of (1 - player)))
    by (intros g; destruct Hp as [->| ->]; reflexivity).
  assert (Hg2 : forall g, get_store g player
                          = board_get (board g) (store_of player))
    by (intros g; destruct Hp as [->| ->]; reflexivity).
  rewrite !Hg1, !Hg2. simpl.
  rewrite Hc1, Hskip.
  rewrite board_get_set_ne in Hgrow
    by (unfold store_of; destruct Hp as [->| ->]; simpl; lia).
  rewrite board_get_set_ne
    by (unfold store_of; destruct Hp as [->| ->]; simpl; lia).
  split; [reflexivity|lia].
Qed.

Lemma perform_move_stores_witness :
  get_store (perform_move new_game (Some 2) 0) (1 - 0) = get_store new_game (1 - 0)
  /\ get_store new_game 0 <= get_store (perform_move new_game (Some 2) 0) 0.
Proof.
  apply (perform_move_stores new_game 0 (Some 2)).
  - repeat split; [|left; reflexivity]. simpl. repeat constructor; lia.
  - left; reflexivity.
  - vm_compute. apply list_elem_of_In. simpl. tauto.
Defined.

(** The slot in which the last stone of a move lands. *)
Lemma perform_move_lands game player i :
  wf_game game -> player = 0 \/ player = 1 ->
  Some i ∈ valid_moves game player ->
  exists e,
    last_pit (perform_move game (Some i) player) = Some e
    /\ 0 <= e < 14 /\ e <> store_of (1 - player)
    /\ current_player (perform_move game (Some i) player)
       = (if e =? store_of player then current_player game else 1 - player).
Proof.
  intros Hwf Hp Hin.
  destruct (valid_moves_cases _ _ _ Hin) as [?|(j & Hj & Hi & Hpos)];
    [discriminate|]. injection Hj as <-.
  set (skip := if player =? 1 then 6 else 13).
  destruct (sow_loop (Z.to_nat (2 * board_get (board game) i))
              (board_set (board game) i 0) i (board_get (board game) i) skip)
    as [[b' index'] stones'] eqn:E.
  rewrite (perform_move_unfold game i player b' index' stones' E).
  exists index'. simpl.
  pose proof (sow_loop_index (Z.to_nat (2 * board_get (board game) i))
                (board_set (board game) i 0) i (board_get (board game) i) skip
                ltac:(lia)) as Hidx.
  pose proof (sow_loop_exits (board_set (board game) i 0) i
                (board_get (board game) i) skip ltac:(lia)) as Hexit.
  pose proof (sow_loop_ends_off_skip (Z.to_nat (2 * board_get (board game) i))
                (board_set (board game) i 0) i (board_get (board game) i) skip
                Hpos Hexit) as Hoff.
  rewrite E in Hidx, Hoff. simpl in Hidx, Hoff.
  split; [reflexivity|]. split; [exact Hidx|]. split.
  - subst skip. destruct Hp as [->| ->]; exact Hoff.
  - destruct Hp as [->| ->]; reflexivity.
Qed.

(** X4. A legal move from a pit leaves a well-formed state whose [last_pit]
    is a slot of the board other than the store of the mover's opponent; the
    mover keeps the turn exactly when that slot is the mover's own store. *)
Theorem perform_move_last_stone (game : KalahGame) (player i : Z) :
  wf_game game -> player = 0 \/ player = 1 ->
  Some i ∈ valid_moves game player ->
  wf_game (perform_move game (Some i) player)
  /\ exists e,
       last_pit (perform_move game (Some i) player) = Some e
       /\ 0 <= e < 14 /\ e <> store_of (1 - player)
       /\ current_player (perform_move game (Some i) player)
          = (if e =? store_of player then current_player game else 1 - player).
Proof.
  intros Hwf Hp Hin. split.
  - apply perform_move_wf; auto.
  - apply perform_move_lands; auto.
Qed.

Lemma perform_move_last_stone_witness :
  wf_game (perform_move new_game (Some 2) 0)
  /\ exists e,
       last_pit (perform_move new_game (Some 2) 0) = Some e
       /\ 0 <= e < 14 /\ e <> store_of (1 - 0)
       /\ current_player (perform_move new_game (Some 2) 0)
          = (if e =? store_of 0 then current_player new_game else 1 - 0).
Proof.
  apply (perform_move_last_stone new_game 0 2).
  - repeat split; [|left; reflexivity]. simpl. repeat constructor; lia.
  - left; reflexivity.
  - vm_compute. apply list_elem_of_In. simpl. tauto.
Defined.

Section ShortMoves.

Implicit Types (game : KalahGame) (player : Z) (b : list Z).

(** A move whose stones all fall in the mover's own row and store. *)
Lemma perform_move_short game player i :
  wf_game game -> player = 0 \/ player = 1 ->
  Some i ∈ valid_moves game player ->
  i + board_get (board game) i <= store_of player ->
  exists b1,
    perform_move game (Some i) player
    = mkGame (capture b1 (i + board_get (board game) i) player)
             (if i + board_get (board game) i =? store_of player
              then current_player game else 1 - player)
             (Some (i + board_get (board game) i))
    /\ length b1 = 14%nat
    /\ forall j, 0 <= j < 14 ->
         board_get b1 j = sown (board game) i (board_get (board game) i) j.
Proof.
  intros (Hlen & Hnn & _) Hp Hin Hshort.
  apply valid_moves_some in Hin. destruct Hin as [Hi Hpos].
  set (s := board_get (board game) i) in *.
  assert (Hst : 0 <= i /\ store_of player <= 13)
    by (unfold store_of; destruct Hp as [->| ->]; simpl; lia).
  destruct (sow_loop_short (Z.to_nat (2 * s)) (board_set (board game) i 0) i s
              (if player =? 1 then 6 else 13))
    as (b1 & E & Hl1 & Hb1);
    [rewrite length_board_set; exact Hlen|lia|lia|lia| |lia|].
  { revert Hshort. unfold store_of. destruct Hp as [->| ->]; simpl; lia. }
  exists b1. split; [|split; [exact Hl1|]].
  - rewrite (perform_move_unfold game i player b1 (i + s) 0 E).
    unfold store_of. reflexivity.
  - intros j Hj. rewrite Hb1 by exact Hj. unfold sown.
    destruct (Z.eqb_spec j i) as [->|Hne].
    + rewrite board_get_set_eq by lia.
      destruct (Z.ltb_spec i i); [lia|]. reflexivity.
    + rewrite board_get_set_ne by lia. reflexivity.
Qed.


End ShortMoves.

(** X5. The extra-turn rule.  When the pit played holds exactly as many
    stones as there are slots from it to the mover's own store, the last stone
    lands in that store: the pit is emptied, each slot after it up to and
    including the store gains one stone, every other slot is unchanged, and
    the player to move stays who it was. *)
Theorem perform_move_extra_turn (game : KalahGame) (player i : Z) :
  wf_game game -> player = 0 \/ player = 1 ->
  Some i ∈ valid_moves game player ->
  i + board_get (board game) i = store_of player ->
  last_pit (perform_move game (Some i) player) = Some (store_of player)
  /\ current_player (perform_move game (Some i) player) = current_player game
  /\ forall j, 0 <= j < 14 ->
       board_get (board (perform_move game (Some i) player)) j
       = sown (board game) i (board_get (board game) i) j.
Proof.
  intros Hwf Hp Hin Hexact.
  destruct (perform_move_short game player i Hwf Hp Hin ltac:(lia))
    as (b1 & -> & Hl1 & Hb1).
  rewrite Hexact, Z.eqb_refl. simpl.
  split; [reflexivity|]. split; [reflexivity|].
  intros j Hj. rewrite <- Hb1 by exact Hj. f_equal.
  unfold capture, store_of.
  destruct Hp as [->| ->]; reflexivity.
Qed.

Lemma perform_move_extra_turn_witness :
  last_pit (perform_move new_game (Some 2) 0) = Some (store_of 0)
  /\ current_player (perform_move new_game (Some 2) 0) = current_player new_game
  /\ forall j, 0 <= j < 14 ->
       board_get (board (perform_move new_game (Some 2) 0)) j
       = sown (board new_game) 2 (board_get (board new_game) 2) j.
Proof.
  apply (perform_move_extra_turn new_game 0 2).
  - repeat split; [|left; reflexivity]. simpl. repeat constructor; lia.
  - left; reflexivity.
  - vm_compute. apply list_elem_of_In. simpl. tauto.
  - reflexivity.
Defined.

(* --------------------------------------------------------------------- *)
(** ** Sowing round the board *)
(* --------------------------------------------------------------------- *)

Section SowingRound.

Implicit Types (b : list Z) (index stones skip : Z).

(** One stone further on the ring. *)
Lemma ring_step p q s :
  0 <= p < 13 -> 0 <= q < 13 -> 1 <= s ->
  (if q =? (p + 1) mod 13 then 1 else 0)
  + ((s - 1) / 13
     + (if (q - (p + 1) mod 13 - 1) mod 13 + 1 <=? (s - 1) mod 13
        then 1 else 0))
  = s / 13 + (if (q - p - 1) mod 13 + 1 <=? s mod 13 then 1 else 0).
Proof.
  intros Hp Hq Hs.
  destruct (Z.eqb_spec q ((p + 1) mod 13)),
           (Z.leb_spec ((q - (p + 1) mod 13 - 1) mod 13 + 1) ((s - 1) mod 13)),
           (Z.leb_spec ((q - p - 1) mod 13 + 1) (s mod 13));
    Z.to_euclidean_division_equations; lia.
Qed.

Lemma ring_place_bounds skip j :
  skip = 6 \/ skip = 13 -> 0 <= j < 14 -> 0 <= ring_place skip j < 13.
Proof.
  intros Hk Hj. unfold ring_place.
  destruct (Z.ltb_spec j skip); destruct Hk; subst; lia.
Qed.

(** The slot that receives the next stone. *)
Lemma ring_place_next skip index :
  skip = 6 \/ skip = 13 -> 0 <= index < 14 ->
  (index + 1) mod 14 <> skip ->
  ring_place skip ((index + 1) mod 14) = (ring_place skip index + 1) mod 13.
Proof.
  intros Hk Hi Hne. unfold ring_place in *.
  destruct (Z.ltb_spec ((index + 1) mod 14) skip), (Z.ltb_spec index skip);
    destruct Hk; subst; Z.to_euclidean_division_equations; lia.
Qed.

Lemma ring_place_skip skip index :
  skip = 6 \/ skip = 13 -> 0 <= index < 14 ->
  (index + 1) mod 14 = skip ->
  ring_place skip ((index + 1) mod 14) = ring_place skip index.
Proof.
  intros Hk Hi He. rewrite He. unfold ring_place.
  destruct (Z.ltb_spec skip skip), (Z.ltb_spec index skip);
    destruct Hk; subst; Z.to_euclidean_division_equations; lia.
Qed.

Lemma ring_slot_place skip j :
  skip = 6 \/ skip = 13 -> 0 <= j < 14 -> j <> skip ->
  ring_slot skip (ring_place skip j) = j.
Proof.
  intros Hk Hj Hne. unfold ring_slot, ring_place.
  destruct (Z.ltb_spec j skip).
  - destruct (Z.ltb_spec j skip); lia.
  - destruct (Z.ltb_spec (j - 1) skip); lia.
Qed.

(** The sowing loop in closed form, from any slot and for any number of
    stones. *)
Lemma sow_loop_round fuel : forall b index stones skip,
  length b = 14%nat ->
  skip = 6 \/ skip = 13 ->
  0 <= index < 14 -> 0 <= stones ->
  2 * stones - (if index =? skip then 1 else 0) <= Z.of_nat fuel ->
  exists b',
    sow_loop fuel b index stones skip
    = (b', if stones =? 0 then index else landing_slot skip index stones, 0)
    /\ length b' = 14%nat
    /\ board_get b' skip = board_get b skip
    /\ forall j, 0 <= j < 14 -> j <> skip ->
         board_get b' j
         = board_get b j
           + (stones / 13
              + (if places_after skip index j <=? stones mod 13 then 1 else 0)).
Proof.
  induction fuel as [|fuel IH]; intros b index stones skip Hlen Hk Hi Hs Hf.
  - assert (stones = 0) as -> by (destruct (index =? skip); lia).
    exists b. simpl. split; [reflexivity|]. split; [exact Hlen|].
    split; [reflexivity|]. intros j Hj Hne. unfold places_after.
    change (0 / 13) with 0. change (0 mod 13) with 0.
    destruct (Z.leb_spec ((ring_place skip j - ring_place skip index - 1) mod 13 + 1) 0);
      Z.to_euclidean_division_equations; lia.
  - cbn [sow_loop]. destruct (Z.ltb_spec 0 stones) as [Hpos|Hz].
    + destruct (Z.eqb_spec stones 0) as [|_]; [lia|].
      pose proof (Z.mod_pos_bound (index + 1) 14 ltac:(lia)) as Hm.
      destruct (Z.eqb_spec ((index + 1) mod 14) skip) as [He|Hne].
      * (* the skipped store: nothing is dropped *)
        destruct (IH b ((index + 1) mod 14) stones skip Hlen Hk Hm Hs)
          as (b' & E & Hl & Hsk & Hb').
        { destruct (Z.eqb_spec ((index + 1) mod 14) skip); [|lia].
          destruct (Z.eqb_spec index skip);
            [destruct Hk; subst; Z.to_euclidean_division_equations; lia|lia]. }
        exists b'. destruct (Z.eqb_spec stones 0) as [|_]; [lia|].
        unfold landing_slot, places_after in *.
        rewrite (ring_place_skip skip index Hk Hi He) in E, Hb'.
        split; [exact E|]. split; [exact Hl|]. split; [exact Hsk|exact Hb'].
      * (* a stone is dropped in the next slot *)
        set (nx := (index + 1) mod 14) in *.
        destruct (IH (board_set b nx (board_get b nx + 1)) nx (stones - 1) skip)
          as (b' & E & Hl & Hsk & Hb').
        { rewrite length_board_set. exact Hlen. }
        { exact Hk. }
        { exact Hm. }
        { lia. }
        { destruct (Z.eqb_spec nx skip); [lia|].
          destruct (index =? skip); lia. }
        exists b'.
        pose proof (ring_place_next skip index Hk Hi Hne) as Hnx. fold nx in Hnx.
        pose proof (ring_place_bounds skip index Hk Hi) as Hpb.
        split; [|split; [exact Hl|split]].
        -- rewrite E. f_equal. f_equal.
           unfold landing_slot. rewrite Hnx.
           destruct (Z.eqb_spec (stones - 1) 0) as [H1|H1].
           ++ assert (stones = 1) as -> by lia.
              rewrite <- Hnx. symmetry. apply ring_slot_place; auto.
           ++ f_equal. Z.to_euclidean_division_equations; lia.
        -- rewrite Hsk. apply board_get_set_ne; lia.
        -- intros j Hj Hjk. rewrite (Hb' j Hj Hjk).
           pose proof (ring_place_bounds skip j Hk Hj) as Hqb.
           unfold places_after. rewrite Hnx.
           rewrite <- (ring_step (ring_place skip index) (ring_place skip j) stones)
             by lia.
           destruct (Z.eq_dec j nx) as [->|Hjn].
           ++ rewrite board_get_set_eq by lia.
              rewrite Hnx. rewrite Z.eqb_refl. lia.
           ++ rewrite board_get_set_ne by lia.
              destruct (Z.eqb_spec (ring_place skip j)
                          ((ring_place skip index + 1) mod 13)) as [Heq|_]; [|lia].
              exfalso. apply Hjn.
              rewrite <- (ring_slot_place skip j Hk Hj Hjk).
              rewrite <- (ring_slot_place skip nx Hk Hm Hne).
              rewrite Heq, Hnx. reflexivity.
    + assert (stones = 0) as -> by lia.
      exists b. simpl. split; [reflexivity|]. split; [exact Hlen|].
      split; [reflexivity|]. intros j Hj Hne. unfold places_after.
      change (0 / 13) with 0. change (0 mod 13) with 0.
      destruct (Z.leb_spec ((ring_place skip j - ring_place skip index - 1) mod 13 + 1) 0);
        Z.to_euclidean_division_equations; lia.
Qed.

(** A legal move in closed form: the board after sowing, the slot of the last
    stone, and then the capture rule and the turn. *)
Lemma perform_move_round (game : KalahGame) (player i : Z) :
  wf_game game -> player = 0 \/ player = 1 ->
  Some i ∈ valid_moves game player ->
  let skip := store_of (1 - player) in
  let stones := board_get (board game) i in
  let e := landing_slot skip i stones in
  exists b1,
    perform_move game (Some i) player
    = mkGame (capture b1 e player)
             (if e =? store_of player then current_player game else 1 - player)
             (Some e)
    /\ length b1 = 14%nat
    /\ 0 <= e < 14 /\ e <> skip
    /\ forall j, 0 <= j < 14 ->
         board_get b1 j = sown_round skip (board game) i stones j.
Proof.
  intros (Hlen & Hnn & _) Hp Hin skip stones e.
  apply valid_moves_some in Hin. destruct Hin as [Hi Hpos]. fold stones in Hpos.
  assert (Hskip : skip = (if player =? 1 then 6 else 13)
                  /\ (skip = 6 \/ skip = 13) /\ i <> skip /\ 0 <= i < 14).
  { unfold skip, store_of. destruct Hp as [->| ->]; simpl; lia. }
  destruct Hskip as (Hskip & Hk & Hik & Hi14).
  destruct (sow_loop_round (Z.to_nat (2 * stones)) (board_set (board game) i 0)
              i stones skip) as (b1 & E & Hl1 & Hsk & Hb1).
  { rewrite length_board_set. exact Hlen. }
  { exact Hk. }
  { exact Hi14. }
  { lia. }
  { destruct (i =? skip); lia. }
  destruct (Z.eqb_spec stones 0) as [|_]; [lia|]. fold e in E.
  exists b1.
  assert (He : 0 <= e < 14 /\ e <> skip).
  { unfold e, landing_slot, ring_slot.
    pose proof (Z.mod_pos_bound (ring_place skip i + stones) 13 ltac:(lia)).
    destruct (Z.ltb_spec ((ring_place skip i + stones) mod 13) skip);
      destruct Hk; subst skip; lia. }
  split; [|split; [exact Hl1|split; [apply He|split; [apply He|]]]].
  - rewrite Hskip in E.
    rewrite (perform_move_unfold game i player b1 e 0 E).
    unfold store_of. reflexivity.
  - intros j Hj. unfold sown_round.
    destruct (Z.eqb_spec j skip) as [->|Hjk].
    + rewrite Hsk. apply board_get_set_ne; lia.
    + rewrite (Hb1 j Hj Hjk).
      destruct (Z.eqb_spec j i) as [->|Hji].
      * rewrite board_get_set_eq by lia. lia.
      * rewrite board_get_set_ne by lia. lia.
Qed.

End SowingRound.

(** X6. The capture rule.  For every legal move, however many times its
    stones go round the board: the slot of the last stone and the board after
    sowing are given in closed form by [landing_slot] and [sown_round]; when
    the last stone lands in a pit of the mover's own row that then holds that
    stone alone, and the pit opposite then holds stones, both pits are emptied
    into the mover's store, which receives the one stone and the stones
    opposite; every other slot is as the sowing left it, and the turn passes
    to the opponent. *)
Theorem perform_move_capture (game : KalahGame) (player i : Z) :
  wf_game game -> player = 0 \/ player = 1 ->
  Some i ∈ valid_moves game player ->
  let skip := store_of (1 - player) in
  let stones := board_get (board game) i in
  let e := landing_slot skip i stones in
  let after := sown_round skip (board game) i stones in
  player * 7 <= e < store_of player ->
  after e = 1 ->
  0 < after (12 - e) ->
  last_pit (perform_move game (Some i) player) = Some e
  /\ current_player (perform_move game (Some i) player) = 1 - player
  /\ board_get (board (perform_move game (Some i) player)) (store_of player)
     = after (store_of player) + 1 + after (12 - e)
  /\ board_get (board (perform_move game (Some i) player)) e = 0
  /\ board_get (board (perform_move game (Some i) player)) (12 - e) = 0
  /\ forall j, 0 <= j < 14 -> j <> e -> j <> 12 - e -> j <> store_of player ->
       board_get (board (perform_move game (Some i) player)) j = after j.
Proof.
  intros Hwf Hp Hin skip stones e after Hrow Hone Hopp.
  destruct (perform_move_round game player i Hwf Hp Hin)
    as (b1 & -> & Hl1 & He & Hek & Hb1).
  fold skip stones e in Hb1 |- *. fold after in Hb1.
  simpl.
  assert (Hst : store_of player = player * 7 + 6)
    by (unfold store_of; destruct Hp as [->| ->]; reflexivity).
  destruct (Z.eqb_spec e (store_of player)) as [|_]; [lia|].
  split; [reflexivity|]. split; [reflexivity|].
  assert (He1 : board_get b1 e = 1) by (rewrite Hb1 by lia; exact Hone).
  assert (Ho1 : board_get b1 (12 - e) = after (12 - e))
    by (apply Hb1; destruct Hp as [->| ->]; lia).
  assert (Hs1 : board_get b1 (store_of player) = after (store_of player))
    by (apply Hb1; destruct Hp as [->| ->]; lia).
  unfold capture.
  destruct Hp as [->| ->]; change (store_of 0) with 6 in *;
    change (store_of 1) with 13 in *.
  - destruct (Z.leb_spec 0 e); [|lia]. destruct (Z.ltb_spec e 6); [|lia].
    rewrite He1, Ho1. destruct (Z.ltb_spec 0 (after (12 - e))); [|lia]. simpl.
    rewrite Hs1.
    split; [rewrite !board_get_set_ne, board_get_set_eq by
              (rewrite ?length_board_set; lia); lia|].
    split; [rewrite board_get_set_ne, board_get_set_eq by
              (rewrite ?length_board_set; lia); reflexivity|].
    split; [rewrite board_get_set_eq by (rewrite ?length_board_set; lia);
            reflexivity|].
    intros j Hj Hje Hjo Hjs. rewrite !board_get_set_ne by lia.
    apply Hb1, Hj.
  - destruct (Z.leb_spec 0 e); [|lia]. destruct (Z.ltb_spec e 6); [lia|].
    destruct (Z.leb_spec 7 e); [|lia]. destruct (Z.ltb_spec e 13); [|lia].
    rewrite He1, Ho1. destruct (Z.ltb_spec 0 (after (12 - e))); [|lia]. simpl.
    rewrite Hs1.
    split; [rewrite !board_get_set_ne, board_get_set_eq by
              (rewrite ?length_board_set; lia); lia|].
    split; [rewrite board_get_set_ne, board_get_set_eq by
              (rewrite ?length_board_set; lia); reflexivity|].
    split; [rewrite board_get_set_eq by (rewrite ?length_board_set; lia);
            reflexivity|].
    intros j Hj Hje Hjo Hjs. rewrite !board_get_set_ne by lia.
    apply Hb1, Hj.
Qed.

Lemma perform_move_capture_witness :
  last_pit (perform_move lap_capture_position (Some 5) 0) = Some 0
  /\ current_player (perform_move lap_capture_position (Some 5) 0) = 1 - 0
  /\ board_get (board (perform_move lap_capture_position (Some 5) 0)) (store_of 0)
     = sown_round 13 (board lap_capture_position) 5 8 (store_of 0) + 1
       + sown_round 13 (board lap_capture_position) 5 8 (12 - 0)
  /\ board_get (board (perform_move lap_capture_position (Some 5) 0)) 0 = 0
  /\ board_get (board (perform_move lap_capture_position (Some 5) 0)) (12 - 0) = 0
  /\ forall j, 0 <= j < 14 -> j <> 0 -> j <> 12 - 0 -> j <> store_of 0 ->
       board_get (board (perform_move lap_capture_position (Some 5) 0)) j
       = sown_round 13 (board lap_capture_position) 5 8 j.
Proof.
  apply (perform_move_capture lap_capture_position 0 5).
  - repeat split; [|left; reflexivity]. simpl. repeat constructor; lia.
  - left; reflexivity.
  - vm_compute. apply list_elem_of_In. simpl. tauto.
  - change (0 <= 0 < 6). lia.
  - reflexivity.
  - reflexivity.
Defined.

(** X7. A move without capture.  For every legal move, however many times its
    stones go round the board: unless the last stone lands in a pit of the
    mover's own row that then holds that stone alone while the pit opposite
    then holds stones, nothing is captured, and the board is the board in
    closed form that the sowing leaves; the mover keeps the turn when the
    last stone lands in the mover's own store, and otherwise the turn passes
    to the opponent. *)
Theorem perform_move_no_capture (game : KalahGame) (player i : Z) :
  wf_game game -> player = 0 \/ player = 1 ->
  Some i ∈ valid_moves game player ->
  let skip := store_of (1 - player) in
  let stones := board_get (board game) i in
  let e := landing_slot skip i stones in
  let after := sown_round skip (board game) i stones in
  ~ (player * 7 <= e < store_of player /\ after e = 1 /\ 0 < after (12 - e)) ->
  last_pit (perform_move game (Some i) player) = Some e
  /\ current_player (perform_move game (Some i) player)
     = (if e =? store_of player then current_player game else 1 - player)
  /\ forall j, 0 <= j < 14 ->
       board_get (board (perform_move game (Some i) player)) j = after j.
Proof.
  intros Hwf Hp Hin skip stones e after Hno.
  destruct (perform_move_round game player i Hwf Hp Hin)
    as (b1 & -> & Hl1 & He & Hek & Hb1).
  fold skip stones e in Hb1 |- *. fold after in Hb1.
  simpl. split; [reflexivity|]. split; [reflexivity|].
  intros j Hj. rewrite <- (Hb1 j Hj). f_equal.
  unfold capture.
  destruct ((0 <=? e) && (e <? 6) && (player =? 0)
            && (board_get b1 e =? 1) && (0 <? board_get b1 (12 - e))) eqn:C0.
  - exfalso. apply Hno.
    repeat (apply andb_prop in C0; destruct C0 as [C0 ?]).
    assert (player = 0) as -> by lia. change (store_of 0) with 6.
    rewrite <- !Hb1 by lia. lia.
  - destruct ((7 <=? e) && (e <? 13) && (player =? 1)
              && (board_get b1 e =? 1) && (0 <? board_get b1 (12 - e))) eqn:C1;
      [|reflexivity].
    exfalso. apply Hno.
    repeat (apply andb_prop in C1; destruct C1 as [C1 ?]).
    assert (player = 1) as -> by lia. change (store_of 1) with 13.
    rewrite <- !Hb1 by lia. lia.
Qed.

Lemma perform_move_no_capture_witness :
  last_pit (perform_move new_game (Some 5) 0) = Some 9
  /\ current_player (perform_move new_game (Some 5) 0)
     = (if 9 =? store_of 0 then current_player new_game else 1 - 0)
  /\ forall j, 0 <= j < 14 ->
       board_get (board (perform_move new_game (Some 5) 0)) j
       = sown_round 13 (board new_game) 5 4 j.
Proof.
  apply (perform_move_no_capture new_game 0 5).
  - repeat split; [|left; reflexivity]. simpl. repeat constructor; lia.
  - left; reflexivity.
  - vm_compute. apply list_elem_of_In. simpl. tauto.
  - vm_compute. intros [[_ H] _]. discriminate.
Defined.

(* --------------------------------------------------------------------- *)
(** ** What the evaluator counts *)
(* --------------------------------------------------------------------- *)

Section EvaluatorCounts.

Implicit Types (game : KalahGame) (move : option Z) (player : Z) (b : list Z).

(** The last stone of a hand raises the count of the slot it lands in. *)
Lemma sow_loop_last_gain fuel : forall b index stones skip,
  length b = 14%nat -> 0 <= index < 14 ->
  0 < stones ->
  snd (sow_loop fuel b index stones skip) = 0 ->
  board_get b (snd (fst (sow_loop fuel b index stones skip))) + 1
  <= board_get (fst (fst (sow_loop fuel b index stones skip)))
               (snd (fst (sow_loop fuel b index stones skip))).
Proof.
  induction fuel as [|fuel IH]; intros b index stones skip Hlen Hi Hs; simpl; [lia|].
  destruct (Z.ltb_spec 0 stones) as [_|]; [|lia].
  pose proof (Z.mod_pos_bound (index + 1) 14 ltac:(lia)) as Hm.
  destruct (Z.eqb_spec ((index + 1) mod 14) skip) as [He|Hne]; [apply IH; auto|].
  destruct (Z.eq_dec stones 1) as [->|H1].
  - rewrite sow_loop_empty_hand. simpl. intros _.
    rewrite board_get_set_eq by lia. lia.
  - intros Hexit.
    set (b1 := board_set b ((index + 1) mod 14)
                         (board_get b ((index + 1) mod 14) + 1)) in *.
    specialize (IH b1 ((index + 1) mod 14) (stones - 1) skip
                  ltac:(subst b1; rewrite length_board_set; exact Hlen)
                  Hm ltac:(lia) Hexit).
    pose proof (sow_loop_index fuel b1 ((index + 1) mod 14) (stones - 1) skip Hm)
      as Hidx.
    set (e := snd (fst (sow_loop fuel b1 ((index + 1) mod 14) (stones - 1) skip)))
      in *.
    assert (board_get b e <= board_get b1 e); [|lia].
    subst b1. destruct (Z.eq_dec ((index + 1) mod 14) e) as [->|Hne'].
    + rewrite board_get_set_eq by lia. lia.
    + rewrite board_get_set_ne by lia. lia.
Qed.

(** After the capture rule has been applied, no pit of the mover's row holds
    a single stone opposite a pit that holds stones. *)
Lemma capture_leaves_none b index player :
  length b = 14%nat -> Forall (fun x => 0 <= x) b ->
  player = 0 \/ player = 1 ->
  player * 7 <= index < player * 7 + 6 ->
  board_get (capture b index player) index = 1 ->
  0 < board_get (capture b index player) (12 - index) ->
  False.
Proof.
  intros Hlen Hnn Hp Hi. unfold capture.
  destruct ((0 <=? index) && (index <? 6) && (player =? 0)
            && (board_get b index =? 1) && (0 <? board_get b (12 - index))) eqn:C0.
  - repeat (apply andb_prop in C0; destruct C0 as [C0 ?]).
    rewrite board_get_set_ne, board_get_set_eq
      by (rewrite ?length_board_set; lia). lia.
  - destruct ((7 <=? index) && (index <? 13) && (player =? 1)
            && (board_get b index =? 1) && (0 <? board_get b (12 - index))) eqn:C1.
    + repeat (apply andb_prop in C1; destruct C1 as [C1 ?]).
      rewrite board_get_set_ne, board_get_set_eq
        by (rewrite ?length_board_set; lia). lia.
    + intros H1 H2. destruct Hp as [->| ->].
      * destruct (Z.leb_spec 0 index); [|lia]. destruct (Z.ltb_spec index 6); [|lia].
        rewrite H1 in C0. simpl in C0.
        destruct (Z.ltb_spec 0 (board_get b (12 - index))); [discriminate|lia].
      * destruct (Z.leb_spec 7 index); [|lia]. destruct (Z.ltb_spec index 13); [|lia].
        rewrite H1 in C1. simpl in C1.
        destruct (Z.ltb_spec 0 (board_get b (12 - index))); [discriminate|lia].
Qed.

(** The capture rule does not apply in a store. *)
Lemma capture_in_store b player :
  player = 0 \/ player = 1 -> capture b (store_of player) player = b.
Proof. intros [->| ->]; reflexivity. Qed.

(** One pass through the loop of [count_potential_captures] for a move from
    a pit: the move is counted exactly when its last stone is the first
    stone of the mover's own store. *)
Lemma potential_capture_pit game player i :
  wf_game game -> player = 0 \/ player = 1 ->
  Some i ∈ valid_moves game player ->
  exists hit,
    potential_capture game player (Some i) = Some hit
    /\ (hit = true
        <-> last_pit (perform_move game (Some i) player) = Some (store_of player)
            /\ get_store (perform_move game (Some i) player) player = 1).
Proof.
  intros Hwf Hp Hin.
  pose proof (perform_move_wf game (Some i) player Hwf Hp Hin) as Hwf'.
  destruct (perform_move_lands game player i Hwf Hp Hin)
    as (e & He & Hrange & Hoff & _).
  destruct Hwf as (Hlen & Hnn & _).
  apply valid_moves_some in Hin. destruct Hin as [Hi Hpos].
  unfold potential_capture.
  remember (perform_move game (Some i) player) as g' eqn:Hg'.
  rewrite He. simpl.
  assert (Hstore : get_store g' player = board_get (board g') (store_of player))
    by (destruct Hp as [->| ->]; reflexivity).
  assert (Hopp : get_opposite_pit e = Some (12 - e)).
  { unfold get_opposite_pit.
    destruct (Z.eqb_spec e 6), (Z.eqb_spec e 13); simpl; lia || reflexivity. }
  destruct (Z.eq_dec e (store_of player)) as [->|Hne].
  - (* the last stone fell in the mover's store *)
    assert (Hside : (if player =? 0
                     then (0 <=? store_of player) && (store_of player <=? 6)
                     else (7 <=? store_of player) && (store_of player <=? 13))
                    = true)
      by (destruct Hp as [->| ->]; reflexivity).
    rewrite Hside. simpl. unfold get_seeds. rewrite <- Hstore.
    destruct (Z.eqb_spec (get_store g' player) 1) as [E1|E1].
    + rewrite Hopp. simpl. eexists. split; [reflexivity|].
      assert (Hget : board_get (board g') (12 - store_of player) = 1).
      { destruct Hwf' as (Hl' & _ & _). rewrite <- E1, Hstore.
        destruct Hp as [->| ->]; [reflexivity|].
        change (12 - store_of 1) with (-1). change (store_of 1) with 13.
        unfold board_get. rewrite Hl'. reflexivity. }
      rewrite Hget. split; [auto|reflexivity].
    + exists false. split; [reflexivity|]. split; [discriminate|].
      intros [_ H1]. contradiction.
  - (* the last stone fell in a pit *)
    assert (Hfalse : forall hit : bool,
               (hit = true -> False) ->
               hit = true
               <-> Some e = Some (store_of player) /\ get_store g' player = 1).
    { intros hit Hh. split; [intros H; destruct (Hh H)|].
      intros [H _]. congruence. }
    destruct (if player =? 0 then (0 <=? e) && (e <=? 6)
              else (7 <=? e) && (e <=? 13)) eqn:Hside; simpl;
      [|exists false; split; [reflexivity|apply Hfalse; discriminate]].
    destruct (Z.eqb_spec (get_seeds g' e) 1) as [E1|E1];
      [|exists false; split; [reflexivity|apply Hfalse; discriminate]].
    rewrite Hopp. simpl. eexists. split; [reflexivity|]. apply Hfalse.
    intros Hpos'. apply Z.ltb_lt in Hpos'.
    assert (Hrow : player * 7 <= e < player * 7 + 6).
    { revert Hside Hne Hoff. unfold store_of.
      destruct Hp as [->| ->]; simpl; lia. }
    (* the board of [g'] is the sown board after the capture rule *)
    revert E1 Hpos' He. unfold get_seeds. subst g'.
    destruct (sow_loop (Z.to_nat (2 * board_get (board game) i))
                (board_set (board game) i 0) i (board_get (board game) i)
                (if player =? 1 then 6 else 13))
      as [[b' index'] stones'] eqn:E.
    rewrite (perform_move_unfold game i player b' index' stones' E).
    simpl. intros H1 H2 He. injection He as ->.
    pose proof (sow_loop_conserves _ _ _ _ _ _ _ _
                  ltac:(rewrite length_board_set; exact Hlen) E) as [Hl' _].
    pose proof (sow_loop_nonneg (Z.to_nat (2 * board_get (board game) i))
                  (board_set (board game) i 0) i (board_get (board game) i)
                  (if player =? 1 then 6 else 13)
                  ltac:(apply Forall_nonneg_board_set; [exact Hnn|lia])) as Hnn'.
    rewrite E in Hnn'. simpl in Hnn'.
    exact (capture_leaves_none b' e player Hl' Hnn' Hp Hrow H1 H2).
Qed.

End EvaluatorCounts.

Section EvaluatorTerms.

Implicit Types (game : KalahGame) (move : option Z) (player : Z) (b : list Z).

(** A move that ends in the mover's store adds a stone to it. *)
Lemma perform_move_store_gain game player i :
  wf_game game -> player = 0 \/ player = 1 ->
  Some i ∈ valid_moves game player ->
  last_pit (perform_move game (Some i) player) = Some (store_of player) ->
  get_store game player + 1 <= get_store (perform_move game (Some i) player) player.
Proof.
  intros (Hlen & Hnn & _) Hp Hin.
  apply valid_moves_some in Hin. destruct Hin as [Hi Hpos].
  set (skip := if player =? 1 then 6 else 13).
  pose proof (sow_loop_exits (board_set (board game) i 0) i
                (board_get (board game) i) skip ltac:(lia)) as Hexit.
  pose proof (sow_loop_last_gain (Z.to_nat (2 * board_get (board game) i))
                (board_set (board game) i 0) i (board_get (board game) i) skip
                ltac:(rewrite length_board_set; exact Hlen) ltac:(lia)
                Hpos Hexit) as Hgain.
  destruct (sow_loop (Z.to_nat (2 * board_get (board game) i))
              (board_set (board game) i 0) i (board_get (board game) i) skip)
    as [[b' index'] stones'] eqn:E.
  rewrite (perform_move_unfold game i player b' index' stones' E).
  simpl in *. intros He. injection He as ->.
  rewrite capture_in_store by exact Hp.
  rewrite board_get_set_ne in Hgain
    by (unfold store_of; destruct Hp as [->| ->]; simpl; lia).
  destruct Hp as [->| ->]; exact Hgain.
Qed.

Lemma potential_capture_pit_off game player i :
  wf_game game -> player = 0 \/ player = 1 ->
  Some i ∈ valid_moves game player ->
  0 < get_store game player ->
  potential_capture game player (Some i) = Some false.
Proof.
  intros Hwf Hp Hin Hstore.
  destruct (potential_capture_pit game player i Hwf Hp Hin) as (hit & -> & Hhit).
  destruct hit; [|reflexivity].
  destruct (proj1 Hhit eq_refl) as [He H1].
  pose proof (perform_move_store_gain game player i Hwf Hp Hin He). lia.
Qed.

Lemma count_potential_captures_from_off game player : forall moves acc,
  (forall m, m ∈ moves -> potential_capture game player m = Some false) ->
  count_potential_captures_from game player moves acc = Some acc.
Proof.
  induction moves as [|m ms IH]; intros acc Hall; simpl; [reflexivity|].
  rewrite (Hall m) by (left). simpl. apply IH.
  intros m' Hm'. apply Hall. right. exact Hm'.
Qed.

Lemma count_potential_captures_off game player :
  wf_game game -> player = 0 \/ player = 1 ->
  None ∉ valid_moves game player ->
  0 < get_store game player ->
  count_potential_captures game player = Some 0.
Proof.
  intros Hwf Hp Hnone Hstore. unfold count_potential_captures.
  apply count_potential_captures_from_off.
  intros [i|] Hm; [|contradiction].
  apply potential_capture_pit_off; auto.
Qed.

(** The player to move after a move played as [player] is [player] only if
    it was [player] before. *)
Lemma perform_move_keeps_turn game move player :
  current_player (perform_move game move player) = player ->
  current_player game = player.
Proof.
  destruct move as [i|]; [|auto].
  unfold perform_move. destruct (sow_loop _ _ _ _ _) as [[b' index'] stones'].
  simpl. destruct (index' =? _); [auto|lia].
Qed.

Lemma foldl_count_false {A : Type} (f : A -> bool) (l : list A) : forall acc,
  (forall x, x ∈ l -> f x = false) ->
  foldl (fun n x => if f x then n + 1 else n) acc l = acc.
Proof.
  induction l as [|x l IH]; intros acc Hall; simpl; [reflexivity|].
  rewrite (Hall x) by left. apply IH. intros y Hy. apply Hall. right. exact Hy.
Qed.

Lemma foldl_count_filter {A : Type} (f : A -> bool) (l : list A) : forall acc,
  foldl (fun n x => if f x then n + 1 else n) acc l
  = acc + Z.of_nat (length (List.filter f l)).
Proof.
  induction l as [|x l IH]; intros acc; simpl; [lia|].
  rewrite IH. destruct (f x); simpl; lia.
Qed.

Lemma count_extra_moves_off_turn game player :
  current_player game <> player -> count_extra_moves game player = 0.
Proof.
  intros Hcp. unfold count_extra_moves.
  apply (foldl_count_false
           (fun move => current_player (perform_move game move player) =? player)).
  intros m _. apply Z.eqb_neq. intros H.
  apply perform_move_keeps_turn in H. contradiction.
Qed.

End EvaluatorTerms.

(** X8. What [count_potential_captures] counts.  For a move from a pit, the
    test in its loop succeeds exactly when the last stone has landed in the
    mover's own store and is the only stone there: a pit of the mover's row
    that holds one stone opposite a non-empty pit has already been emptied
    by the capture rule of [perform_move].  A move of a player whose store
    holds a stone is therefore never counted. *)
Theorem potential_capture_counts_first_store_stone
    (game : KalahGame) (player i : Z) :
  wf_game game -> player = 0 \/ player = 1 ->
  Some i ∈ valid_moves game player ->
  exists hit,
    potential_capture game player (Some i) = Some hit
    /\ (hit = true
        <-> last_pit (perform_move game (Some i) player) = Some (store_of player)
            /\ get_store (perform_move game (Some i) player) player = 1)
    /\ (0 < get_store game player -> hit = false).
Proof.
  intros Hwf Hp Hin.
  destruct (potential_capture_pit game player i Hwf Hp Hin) as (hit & E & Hhit).
  exists hit. split; [exact E|]. split; [exact Hhit|].
  intros Hstore.
  pose proof (potential_capture_pit_off game player i Hwf Hp Hin Hstore) as E'.
  congruence.
Qed.

Lemma potential_capture_counts_first_store_stone_witness :
  exists hit,
    potential_capture new_game 0 (Some 2) = Some hit
    /\ (hit = true
        <-> last_pit (perform_move new_game (Some 2) 0) = Some (store_of 0)
            /\ get_store (perform_move new_game (Some 2) 0) 0 = 1)
    /\ (0 < get_store new_game 0 -> hit = false).
Proof.
  apply (potential_capture_counts_first_store_stone new_game 0 2).
  - repeat split; [|left; reflexivity]. simpl. repeat constructor; lia.
  - left; reflexivity.
  - vm_compute. apply list_elem_of_In. simpl. tauto.
Defined.

(** X9. Once both stores hold a stone the capture term of [evaluate] is
    zero: on a state that is not terminal the score is ten times the
    difference of the stores plus seven times the difference of the
    extra-move counts (in tenths), whatever the pits hold. *)
Theorem evaluate_without_capture_term (game : KalahGame) (player : Z) :
  wf_game game -> player = 0 \/ player = 1 ->
  is_terminal game = false ->
  0 < get_store game 0 -> 0 < get_store game 1 ->
  evaluate game player
  = Some (10 * (get_store game player - get_store game (1 - player))
          + 7 * (count_extra_moves game player
                 - count_extra_moves game (1 - player))).
Proof.
  intros Hwf Hp Hterm H0 H1.
  assert (Hq : 1 - player = 0 \/ 1 - player = 1) by lia.
  unfold evaluate.
  rewrite (count_potential_captures_off game player Hwf Hp),
          (count_potential_captures_off game (1 - player) Hwf Hq).
  - simpl. f_equal. lia.
  - apply valid_moves_no_sentinel; auto.
  - destruct Hp as [->| ->]; simpl; auto.
  - apply valid_moves_no_sentinel; auto.
  - destruct Hp as [->| ->]; simpl; auto.
Qed.

Lemma evaluate_without_capture_term_witness :
  evaluate (mkGame round_trip_board 0 None) 0
  = Some (10 * (get_store (mkGame round_trip_board 0 None) 0
                - get_store (mkGame round_trip_board 0 None) (1 - 0))
          + 7 * (count_extra_moves (mkGame round_trip_board 0 None) 0
                 - count_extra_moves (mkGame round_trip_board 0 None) (1 - 0))).
Proof.
  apply (evaluate_without_capture_term (mkGame round_trip_board 0 None) 0).
  - repeat split; [|left; reflexivity]. simpl. repeat constructor; lia.
  - left; reflexivity.
  - reflexivity.
  - reflexivity.
  - reflexivity.
Defined.

(** X10. What [count_extra_moves] counts.  For the player who is not to
    move the count is always zero.  For the player to move it is the number
    of legal moves whose last stone lands in that player's own store; when
    that player has no stone to play, the sentinel move is counted as one
    extra move. *)
Theorem count_extra_moves_on_turn_only (game : KalahGame) (player : Z) :
  wf_game game -> player = 0 \/ player = 1 ->
  (current_player game <> player -> count_extra_moves game player = 0)
  /\ (current_player game = player -> valid_moves game player = [None] ->
      count_extra_moves game player = 1)
  /\ (current_player game = player -> None ∉ valid_moves game player ->
      count_extra_moves game player
      = Z.of_nat (length (List.filter
                            (fun m => bool_decide
                               (last_pit (perform_move game m player)
                                = Some (store_of player)))
                            (valid_moves game player)))).
Proof.
  intros Hwf Hp. split; [apply count_extra_moves_off_turn|]. split.
  - intros Hcp Hnone. unfold count_extra_moves. rewrite Hnone. simpl.
    rewrite Hcp, Z.eqb_refl. reflexivity.
  - intros Hcp Hnone. unfold count_extra_moves.
    rewrite (foldl_count_filter
               (fun move => current_player (perform_move game move player)
                            =? player)).
    rewrite Z.add_0_l. f_equal. f_equal.
    apply List.filter_ext_in. intros [i|] Hm; apply list_elem_of_In in Hm;
      [|contradiction].
    destruct (perform_move_lands game player i Hwf Hp Hm)
      as (e & He & _ & _ & Hturn).
    rewrite Hturn, He, Hcp.
    destruct (Z.eqb_spec e (store_of player)) as [->|Hne].
    + rewrite Z.eqb_refl. symmetry. apply bool_decide_eq_true. reflexivity.
    + destruct (Z.eqb_spec (1 - player) player); [lia|].
      symmetry. apply bool_decide_eq_false. congruence.
Qed.

Lemma count_extra_moves_on_turn_only_witness :
  (current_player new_game <> 1 -> count_extra_moves new_game 1 = 0)
  /\ (current_player new_game = 1 -> valid_moves new_game 1 = [None] ->
      count_extra_moves new_game 1 = 1)
  /\ (current_player new_game = 1 -> None ∉ valid_moves new_game 1 ->
      count_extra_moves new_game 1
      = Z.of_nat (length (List.filter
                            (fun m => bool_decide
                               (last_pit (perform_move new_game m 1)
                                = Some (store_of 1)))
                            (valid_moves new_game 1)))).
Proof.
  apply (count_extra_moves_on_turn_only new_game 1).
  - repeat split; [|left; reflexivity]. simpl. repeat constructor; lia.
  - right; reflexivity.
Defined.

Section EvaluatorErrors.

Implicit Types (game : KalahGame) (move : option Z) (player : Z).

Lemma potential_capture_after_move game player move :
  is_Some (last_pit (perform_move game move player)) ->
  is_Some (potential_capture game player move).
Proof.
  intros [e He]. unfold potential_capture. rewrite He. simpl.
  destruct (_ && _); [|eauto].
  unfold get_opposite_pit.
  destruct (_ && _) eqn:E; simpl; [|eauto].
  apply andb_prop in E. destruct E as [E1 E2]. lia.
Qed.

Lemma count_potential_captures_from_pits game player : forall moves acc,
  (forall m, m ∈ moves -> exists i, m = Some i) ->
  is_Some (count_potential_captures_from game player moves acc).
Proof.
  induction moves as [|m ms IH]; intros acc Hall; simpl; [eauto|].
  destruct (Hall m ltac:(left)) as [i ->].
  destruct (potential_capture_after_move game player (Some i)
              (perform_move_some_last_pit game i player)) as [hit ->].
  simpl. apply IH. intros m' Hm'. apply Hall. right. exact Hm'.
Qed.

Lemma count_potential_captures_sentinel game player :
  last_pit game = None -> valid_moves game player = [None] ->
  count_potential_captures game player = None.
Proof.
  intros Hlast Hnone. unfold count_potential_captures. rewrite Hnone. simpl.
  unfold potential_capture. simpl. rewrite Hlast. reflexivity.
Qed.

End EvaluatorErrors.

(** X11. When [evaluate] raises.  On a well-formed state the evaluator fails
    (a [TypeError], from comparing the [last_pit] that is [None] with an
    integer) exactly when the state is terminal and its [last_pit] is [None],
    as in a terminal state rebuilt from a stored key; on every other state it
    returns a score. *)
Theorem evaluate_raises_iff (game : KalahGame) (player : Z) :
  wf_game game -> player = 0 \/ player = 1 ->
  evaluate game player = None
  <-> last_pit game = None /\ is_terminal game = true.
Proof.
  intros Hwf Hp. split.
  - intros Hnone.
    destruct (last_pit game) as [e|] eqn:Hlast.
    + destruct (evaluate_some game player) as [v Hv]; [rewrite Hlast; eauto|].
      congruence.
    + split; [reflexivity|].
      destruct (is_terminal game) eqn:Hterm; [reflexivity|]. exfalso.
      assert (Hpits : forall q, q = 0 \/ q = 1 ->
                forall m, m ∈ valid_moves game q -> exists i, m = Some i).
      { intros q Hq [i|] Hm; [eauto|].
        destruct (valid_moves_no_sentinel game q Hwf Hterm Hq Hm). }
      revert Hnone. unfold evaluate, count_potential_captures.
      destruct (count_potential_captures_from_pits game player
                  (valid_moves game player) 0 (Hpits player Hp)) as [c1 ->].
      destruct (count_potential_captures_from_pits game (1 - player)
                  (valid_moves game (1 - player)) 0
                  (Hpits (1 - player) ltac:(lia))) as [c2 ->].
      simpl. discriminate.
  - intros [Hlast Hterm].
    apply is_terminal_sentinel in Hterm; [|exact Hwf].
    unfold evaluate.
    assert (Hcases : valid_moves game player = [None]
                     \/ valid_moves game (1 - player) = [None])
      by (destruct Hp as [->| ->]; simpl; tauto).
    destruct Hcases as [Hn|Hn];
      rewrite (count_potential_captures_sentinel game _ Hlast Hn).
    + reflexivity.
    + destruct (count_potential_captures game player); reflexivity.
Qed.

Lemma evaluate_raises_iff_witness :
  evaluate (MCTSNode.get_game_copy_of (from_board_to_state finished_game)) 0 = None
  <-> last_pit (MCTSNode.get_game_copy_of (from_board_to_state finished_game)) = None
      /\ is_terminal (MCTSNode.get_game_copy_of (from_board_to_state finished_game))
         = true.
Proof.
  apply (evaluate_raises_iff
           (MCTSNode.get_game_copy_of (from_board_to_state finished_game)) 0).
  - repeat split; [|left; reflexivity]. vm_compute. repeat constructor; discriminate.
  - left; reflexivity.
Defined.

(** X12. The evaluator is antisymmetric: the score of a state for one player
    is the negation of its score for the other, and it fails for one exactly
    when it fails for the other. *)
Theorem evaluate_antisymmetric (game : KalahGame) (player : Z) :
  wf_game game -> player = 0 \/ player = 1 ->
  evaluate game (1 - player) = Z.opp <$> evaluate game player.
Proof.
  intros _ _. unfold evaluate.
  replace (1 - (1 - player)) with player by lia.
  destruct (count_potential_captures game player) as [c1|],
           (count_potential_captures game (1 - player)) as [c2|];
    simpl; try reflexivity.
  f_equal. lia.
Qed.

Lemma evaluate_antisymmetric_witness :
  evaluate new_game (1 - 0) = Z.opp <$> evaluate new_game 0.
Proof.
  apply (evaluate_antisymmetric new_game 0).
  - repeat split; [|left; reflexivity]. simpl. repeat constructor; lia.
  - left; reflexivity.
Defined.

(* --------------------------------------------------------------------- *)
(** ** The move chosen at the root *)
(* --------------------------------------------------------------------- *)

Section RootMove.

Import KalahMinimax.

Variables (rec : KalahGame -> ext -> ext -> option search_result)
          (brec : KalahGame -> option ext)
          (game : KalahGame) (cp : Z).

(** The maximizing loop under the full window: nothing is cut, the running
    maximum is exact, and the move kept is one whose full-width value is that
    maximum. *)
Lemma max_loop_root : forall moves acc best_move,
  Forall (child_sound rec brec game cp) moves ->
  Forall (fun move => exists z, brec (perform_move game move cp) = Some (Fin z))
         moves ->
  acc <> PosInf ->
  exists r bm vs,
    max_loop rec game cp moves acc PosInf acc best_move = Some (r, bm)
    /\ children_scores brec game cp moves = Some vs
    /\ r = foldl ext_max acc vs
    /\ ((bm = best_move /\ r = acc)
        \/ (bm ∈ moves /\ brec (perform_move game bm cp) = Some r)).
Proof.
  induction moves as [|move moves IH]; intros acc best_move Hch Hfin Hacc; simpl.
  - exists acc, best_move, [].
    split; [reflexivity|]. split; [reflexivity|]. split; [reflexivity|].
    left. split; reflexivity.
  - inversion Hch as [|? ? Hm Hms]; subst.
    inversion Hfin as [|? ? [z Hz] Hfs]; subst.
    assert (Hab : ext_ltb acc PosInf = true) by (destruct acc; try reflexivity; congruence).
    destruct (Hm acc PosInf Hab) as (r1 & bm1 & v1 & -> & Hb & Hw).
    rewrite Hz in Hb. injection Hb as <-.
    rewrite Hz. simpl.
    destruct Hw as (Hw1 & Hw2 & _).
    destruct (ext_ltb acc (Fin z)) eqn:Hlt.
    + (* the child beats the running maximum: its score is exact *)
      rewrite (Hw1 eq_refl eq_refl). rewrite Hlt.
      assert (Hmax : ext_max acc (Fin z) = Fin z) by (unfold ext_max; rewrite Hlt; reflexivity).
      rewrite Hmax. simpl.
      destruct (IH (Fin z) move Hms Hfs ltac:(discriminate))
        as (r & bm & vs & Hl & Hc & Hr & Hbm).
      rewrite Hl, Hc. simpl. exists r, bm, (Fin z :: vs).
      split; [reflexivity|]. split; [reflexivity|]. simpl. rewrite Hmax.
      split; [exact Hr|]. right.
      destruct Hbm as [[-> ->]|[Hin Hv]].
      * split; [left|exact Hz].
      * split; [right; exact Hin|exact Hv].
    + (* the child does not: neither the maximum nor the move changes *)
      specialize (Hw2 eq_refl).
      rewrite Hw2.
      assert (Hmax1 : ext_max acc r1 = acc) by (unfold ext_max; rewrite Hw2; reflexivity).
      assert (Hmax2 : ext_max acc (Fin z) = acc) by (unfold ext_max; rewrite Hlt; reflexivity).
      rewrite Hmax1.
      assert (Hcut : ext_leb PosInf acc = false) by (destruct acc; try reflexivity; congruence).
      rewrite Hcut.
      destruct (IH acc best_move Hms Hfs Hacc) as (r & bm & vs & Hl & Hc & Hr & Hbm).
      rewrite Hl, Hc. simpl. exists r, bm, (Fin z :: vs).
      split; [reflexivity|]. split; [reflexivity|]. simpl. rewrite Hmax2.
      split; [exact Hr|].
      destruct Hbm as [H|[Hin Hv]]; [left; exact H|right].
      split; [right; exact Hin|exact Hv].
Qed.

End RootMove.

(** X13. The move chosen by [minimax_move].  On a well-formed state that is
    not terminal, searched at least one ply deep, [minimax_move] returns a
    legal move from a pit, and the state that move leads to has the best
    full-width value among the legal moves: its value, one ply less deep, is
    the value of the root. *)
Theorem minimax_move_is_best (game : KalahGame) (depth : nat) :
  wf_game game -> is_terminal game = false ->
  exists i z,
    KalahMinimax.minimax_move game (S depth) = Some (Some i)
    /\ Some i ∈ valid_moves game (current_player game)
    /\ KalahMinimax.brute_force_minimax game (S depth) (current_player game)
       = Some (Fin z)
    /\ KalahMinimax.brute_force_minimax
         (perform_move game (Some i) (current_player game)) depth
         (current_player game)
       = Some (Fin z).
Proof.
  intros Hwf Hterm.
  set (p := current_player game).
  pose proof (children_sound_wf p game depth Hwf Hterm) as Hch.
  set (rec := fun g a b => KalahMinimax.minimax g depth a b p).
  set (brec := fun g => KalahMinimax.brute_force_minimax g depth p).
  assert (Hcs : Forall (child_sound rec brec game p) (valid_moves game p)).
  { apply Forall_forall. intros move Hin a b Hlt.
    destruct (Hch move Hin a b Hlt) as (r & bm & z & H1 & H2 & H3).
    exists r, bm, (Fin z). auto. }
  assert (Hfin : Forall (fun move => exists z,
                   brec (perform_move game move p) = Some (Fin z))
                   (valid_moves game p)).
  { apply Forall_forall. intros move Hin.
    destruct (Hch move Hin NegInf PosInf eq_refl) as (r & bm & z & _ & H2 & _).
    eauto. }
  destruct (max_loop_root rec brec game p (valid_moves game p) NegInf None
              Hcs Hfin ltac:(discriminate))
    as (r & bm & vs & Hl & Hc & Hr & Hbm).
  destruct (children_scores_fin _ _ _ _ _ Hfin Hc) as [Hf Hne].
  destruct (foldl_ext_max_fin vs NegInf Hf) as [z Hz].
  { right. split; [reflexivity|]. apply Hne, valid_moves_nonempty. }
  rewrite Hz in Hr. subst r.
  destruct Hbm as [[_ ?]|[Hin Hv]]; [discriminate|].
  destruct (valid_moves_not_terminal game bm Hwf Hterm Hin) as [i ->].
  exists i, z.
  assert (Hroot : KalahMinimax.minimax game (S depth) NegInf PosInf p
                  = Some (Fin z, Some i)).
  { simpl. rewrite Hterm. fold p. rewrite Z.eqb_refl. exact Hl. }
  split; [unfold KalahMinimax.minimax_move; fold p; rewrite Hroot; reflexivity|].
  split; [exact Hin|]. split; [|exact Hv].
  simpl. rewrite Hterm. fold p. rewrite Z.eqb_refl.
  fold brec. rewrite Hc. simpl. rewrite Hz. reflexivity.
Qed.

Lemma minimax_move_is_best_witness :
  exists i z,
    KalahMinimax.minimax_move new_game 2 = Some (Some i)
    /\ Some i ∈ valid_moves new_game (current_player new_game)
    /\ KalahMinimax.brute_force_minimax new_game 2 (current_player new_game)
       = Some (Fin z)
    /\ KalahMinimax.brute_force_minimax
         (perform_move new_game (Some i) (current_player new_game)) 1
         (current_player new_game)
       = Some (Fin z).
Proof.
  apply (minimax_move_is_best new_game 1).
  - repeat split; [|left; reflexivity]. simpl. repeat constructor; lia.
  - reflexivity.
Defined.

(* --------------------------------------------------------------------- *)
(** ** The move read off the transposition table *)
(* --------------------------------------------------------------------- *)

Section TableMove.

Import UBFM.

Lemma foldl_better_best player (d : actions) : forall x,
  foldl (better player) x d ∈ x :: d
  /\ forall y, y ∈ x :: d ->
       if player =? 0 then snd y <= snd (foldl (better player) x d)
       else snd (foldl (better player) x d) <= snd y.
Proof.
  induction d as [|e d IH]; intros x; simpl.
  - split; [left|]. intros y Hy. apply list_elem_of_singleton in Hy. subst y.
    destruct (player =? 0); lia.
  - destruct (IH (better player x e)) as [Hin Hbest]. split.
    + apply elem_of_cons in Hin. destruct Hin as [->|Hin].
      * unfold better.
        destruct (player =? 0);
          [destruct (snd x <? snd e)|destruct (snd e <? snd x)];
          (left; fail) || (right; left).
      * right; right; exact Hin.
    + intros y Hy.
      assert (Hstep : if player =? 0 then snd x <= snd (better player x e)
                                          /\ snd e <= snd (better player x e)
                      else snd (better player x e) <= snd x
                           /\ snd (better player x e) <= snd e).
      { unfold better. destruct (player =? 0);
          [destruct (Z.ltb_spec (snd x) (snd e))
          |destruct (Z.ltb_spec (snd e) (snd x))]; lia. }
      pose proof (Hbest (better player x e) ltac:(left)) as Hb.
      apply elem_of_cons in Hy. destruct Hy as [->|Hy].
      * destruct (player =? 0); lia.
      * apply elem_of_cons in Hy. destruct Hy as [->|Hy].
        -- destruct (player =? 0); lia.
        -- apply Hbest. right. exact Hy.
Qed.

Variable eval : KalahGame -> Z -> option Z.
Variable player : Z.
Hypothesis eval_defined : forall g p, is_Some (last_pit g) -> is_Some (eval g p).

(** An iteration from a state that is not terminal leaves an entry for that
    state in the table. *)
Lemma iteration_leaves_entry fuel T state T' v :
  is_terminal state = false ->
  unbounded_minimax_iteration eval fuel T state player = Return (T', v) ->
  is_Some (T' !! from_board_to_state state).
Proof.
  intros Hterm. destruct fuel as [|fuel]; [discriminate|].
  rewrite iteration_unfold, Hterm. cbv zeta.
  destruct (match T !! from_board_to_state state with
            | Some _ => _ | None => _ end) as [T1|e]; simpl; [|discriminate].
  unfold best_value.
  destruct (best_action T1 (from_board_to_state state) player) as [a|e];
    cbn [bind_outcome]; [|discriminate].
  destruct (T1 !! from_board_to_state state) as [d|] eqn:E; [|discriminate].
  destruct (actions_get d a); cbn [bind_outcome]; [|discriminate].
  intros H. injection H as <- _. rewrite E. eauto.
Qed.

Lemma run_loop_spec root :
  wf_game root -> is_terminal root = false ->
  forall passes fuel T,
    progress_measure root < Z.of_nat fuel ->
    table_ok T ->
    exists T',
      run_loop eval passes fuel T root player = Return T'
      /\ table_ok T'
      /\ ((0 < passes)%nat \/ is_Some (T !! from_board_to_state root) ->
          is_Some (T' !! from_board_to_state root)).
Proof.
  intros Hwf Hterm.
  induction passes as [|passes IH]; intros fuel T Hfuel Hok; simpl.
  - exists T. split; [reflexivity|]. split; [exact Hok|].
    intros [H|H]; [lia|exact H].
  - destruct (iteration_spec eval player eval_defined fuel root T Hfuel Hwf
                ltac:(congruence) Hok) as (T1 & v & E & Hgrows).
    rewrite E. simpl.
    destruct Hgrows as (Hok1 & _).
    destruct (IH fuel T1 Hfuel Hok1) as (T' & E' & Hok' & Hkeep).
    exists T'. split; [exact E'|]. split; [exact Hok'|].
    intros _. apply Hkeep. right.
    eapply iteration_leaves_entry; eauto.
Qed.

Lemma run_loop_fuel_le root fuel fuel' : (fuel <= fuel')%nat ->
  forall passes T T',
    run_loop eval passes fuel T root player = Return T' ->
    run_loop eval passes fuel' T root player = Return T'.
Proof.
  intros Hle. induction passes as [|passes IH]; intros T T' E; simpl in *.
  - exact E.
  - destruct (unbounded_minimax_iteration eval fuel T root player)
      as [r|e] eqn:Er; simpl in E; [|discriminate].
    rewrite (iteration_fuel_le eval player fuel fuel' T root r Hle Er).
    simpl. apply IH, E.
Qed.

End TableMove.

(** X14. [best_action].  With no entry for the state the call raises
    [KeyError]; with an entry that lists no action it raises [ValueError]
    (the [max] or [min] of an empty sequence); otherwise it returns an action
    of the entry whose stored value is the largest, for player 0, or the
    smallest, for the other player. *)
Theorem best_action_optimal (T : gmap state_key UBFM.actions)
    (key : state_key) (player : Z) :
  match T !! key with
  | None => UBFM.best_action T key player = Raise KeyError
  | Some [] => UBFM.best_action T key player = Raise ValueError
  | Some d =>
      exists a v,
        UBFM.best_action T key player = Return a
        /\ (a, v) ∈ d
        /\ forall a' v', (a', v') ∈ d ->
             if player =? 0 then v' <= v else v <= v'
  end.
Proof.
  unfold UBFM.best_action.
  destruct (T !! key) as [[|x d]|]; [reflexivity| |reflexivity].
  destruct (foldl_better_best player d x) as [Hin Hbest].
  exists (fst (foldl (UBFM.better player) x d)),
         (snd (foldl (UBFM.better player) x d)).
  split; [reflexivity|]. split.
  - rewrite <- surjective_pairing. exact Hin.
  - intros a' v' Hin'. exact (Hbest (a', v') Hin').
Qed.

(** X15. When [run] succeeds.  If the root is well formed and not terminal,
    the table lists for each known state its legal moves, the evaluation
    function is defined wherever a move has been played, and either the loop
    body runs at least once or the root already has an entry, then [run]
    returns, and what it returns is a legal move of the root from a pit. *)
Theorem run_returns_legal_move (eval : KalahGame -> Z -> option Z) (player : Z)
    (T : gmap state_key UBFM.actions) (root_game : KalahGame) (passes : nat) :
  (forall g p, is_Some (last_pit g) -> is_Some (eval g p)) ->
  wf_game root_game ->
  is_terminal root_game = false ->
  table_ok T ->
  (0 < passes)%nat \/ is_Some (T !! from_board_to_state root_game) ->
  exists fuel i,
    (forall fuel', (fuel <= fuel')%nat ->
       UBFM.run eval passes fuel' T root_game player = Return (Some i))
    /\ Some i ∈ valid_moves root_game (current_player root_game).
Proof.
  intros Hdef Hwf Hterm Hok Hrun.
  set (fuel := S (Z.to_nat (progress_measure root_game))).
  assert (Hfuel : progress_measure root_game < Z.of_nat fuel)
    by (subst fuel; lia).
  destruct (run_loop_spec eval player Hdef root_game Hwf Hterm passes fuel T
              Hfuel Hok) as (T' & E & Hok' & Hentry).
  destruct (Hentry Hrun) as [d Hd].
  pose proof (Hok' _ _ Hd) as Hkeys.
  rewrite legal_of_state in Hkeys.
  assert (Hne : d <> []).
  { intros ->. simpl in Hkeys. symmetry in Hkeys.
    exact (valid_moves_nonempty _ _ Hkeys). }
  destruct (best_action_in T' (from_board_to_state root_game) player d Hd Hne)
    as (a & Ea & Hin).
  rewrite Hkeys in Hin.
  destruct (valid_moves_not_terminal root_game a Hwf Hterm Hin) as [i ->].
  exists fuel, i. split; [|exact Hin].
  intros fuel' Hle. unfold UBFM.run.
  rewrite (run_loop_fuel_le eval player root_game fuel fuel' Hle passes T T' E).
  simpl. exact Ea.
Qed.

Lemma run_returns_legal_move_witness :
  exists fuel i,
    (forall fuel', (fuel <= fuel')%nat ->
       UBFM.run evaluate 1 fuel' ∅ new_game 0 = Return (Some i))
    /\ Some i ∈ valid_moves new_game (current_player new_game).
Proof.
  apply (run_returns_legal_move evaluate 0 ∅ new_game 1).
  - exact evaluate_some.
  - repeat split; [|left; reflexivity]. simpl. repeat constructor; lia.
  - reflexivity.
  - intros key d H. rewrite lookup_empty in H. discriminate.
  - left. lia.
Defined.

(* --------------------------------------------------------------------- *)
(** ** What backpropagation records *)
(* --------------------------------------------------------------------- *)

Section BackpropagationCounts.

Import MCTSNode.

Lemma occurrences_cons m m' ms :
  occurrences m (m' :: ms)
  = (if decide (m' = m) then 1 else 0) + occurrences m ms.
Proof.
  unfold occurrences. rewrite filter_cons.
  destruct (decide (m' = m)); simpl; lia.
Qed.

Lemma dd_add_fold (x : Z) (ms : list (option Z)) : forall d k,
  default 0 (foldl (fun d m => dd_add d m x) d ms !! k)
  = default 0 (d !! k) + x * occurrences k ms.
Proof.
  induction ms as [|m ms IH]; intros d k; simpl.
  - unfold occurrences. simpl. lia.
  - rewrite IH, occurrences_cons. unfold dd_add.
    destruct (decide (m = k)) as [->|Hne].
    + rewrite lookup_insert_eq. simpl. lia.
    + rewrite lookup_insert_ne by exact Hne. lia.
Qed.

Lemma backpropagate_fuel_path visited_moves use_rave :
  forall fuel tree self reward,
    wf_tree tree -> (self < length tree)%nat -> (self < fuel)%nat ->
    exists tree',
      backpropagate_fuel fuel tree self reward visited_moves use_rave = Some tree'
      /\ length tree' = length tree
      /\ forall i n, tree !! i = Some n ->
           (on_path tree self i ->
            exists r, (r = reward \/ r = - reward)
                      /\ tree' !! i
                         = Some (record_reward n r visited_moves use_rave))
           /\ (~ on_path tree self i -> tree' !! i = Some n).
Proof.
  induction fuel as [|fuel IH]; intros tree self reward Hwf Hlen Hfuel; [lia|].
  destruct (lookup_lt_is_Some_2 tree self Hlen) as [node Hnode].
  simpl. rewrite Hnode. simpl.
  set (node' := record_reward node reward visited_moves use_rave).
  set (tree1 := <[self := node']> tree).
  assert (Hpar : forall i, parent_of tree1 i = parent_of tree i)
    by (intros i; eapply parent_of_insert; eauto).
  assert (Hself1 : tree1 !! self = Some node')
    by (apply list_lookup_insert_eq; auto).
  assert (Hother1 : forall i, i <> self -> tree1 !! i = tree !! i)
    by (intros i Hi; apply list_lookup_insert_ne; auto).
  destruct (parent node) as [p|] eqn:Hp.
  - assert (Hpof : parent_of tree self = Some p)
      by (unfold parent_of; rewrite Hnode; exact Hp).
    pose proof (Hwf _ _ Hpof) as Hlt.
    destruct (lookup_lt_is_Some_2 tree p ltac:(lia)) as [pn Hpn].
    rewrite Hother1, Hpn by lia. simpl.
    set (reward' := if player pn =? player node then reward else - reward).
    assert (Hwf1 : wf_tree tree1)
      by (intros i q Hq; rewrite Hpar in Hq; eauto).
    destruct (IH tree1 p reward' Hwf1) as (tree' & Hrun & Hl' & Hnodes).
    { unfold tree1. rewrite length_insert. lia. }
    { lia. }
    exists tree'. split.
    { unfold reward' in Hrun. destruct (player pn =? player node); exact Hrun. }
    split; [unfold tree1 in Hl'; rewrite length_insert in Hl'; exact Hl'|].
    assert (Hoff : ~ on_path tree1 p self).
    { intros Hon. apply on_path_le in Hon; [lia|exact Hwf1]. }
    intros i n Hi. destruct (decide (i = self)) as [->|Hne].
    + rewrite Hnode in Hi. injection Hi as <-. split.
      * intros _. exists reward. split; [left; reflexivity|].
        apply (Hnodes self node' Hself1), Hoff.
      * intros Hno. exfalso. apply Hno. constructor.
    + rewrite <- Hother1 in Hi by exact Hne.
      destruct (Hnodes i n Hi) as [Hon Hno]. split.
      * intros Hpath.
        destruct (on_path_inv _ _ _ _ Hpof Hpath) as [->|Hp']; [contradiction|].
        destruct Hon as (r & Hr & Er).
        { eapply on_path_ext; [|exact Hp']. intros j. symmetry. apply Hpar. }
        exists r. split; [|exact Er].
        unfold reward' in Hr. destruct (player pn =? player node); lia.
      * intros Hpath. apply Hno. intros Hp'. apply Hpath.
        eapply on_path_above; [exact Hpof|].
        eapply on_path_ext; [|exact Hp']. exact Hpar.
  - assert (Hpof : parent_of tree self = None)
      by (unfold parent_of; rewrite Hnode; exact Hp).
    exists tree1. split; [reflexivity|].
    split; [apply length_insert|].
    intros i n Hi. destruct (decide (i = self)) as [->|Hne].
    + rewrite Hnode in Hi. injection Hi as <-. split.
      * intros _. exists reward. split; [left; reflexivity|exact Hself1].
      * intros Hno. exfalso. apply Hno. constructor.
    + split.
      * intros Hpath. apply (on_path_root _ _ _ Hpof) in Hpath. contradiction.
      * intros _. rewrite Hother1 by exact Hne. exact Hi.
Qed.

End BackpropagationCounts.

(** X16. What [backpropagate] records.  On a tree whose parents were created
    before their children the call returns and keeps the size of the tree.
    A node that is not on the way from the start node to the root is left as
    it was.  A node on the way has its visit count raised by one and its value
    changed by the reward or its negation; with [use_rave] its two
    all-moves-as-first tables grow, for every move, by the number of times the
    move occurs in [visited_moves] and by that number times the reward the
    node received, and without [use_rave] they are unchanged; its state, its
    children, its untried moves and its prior are kept. *)
Theorem backpropagate_updates_path (tree : list MCTSNode) (self : nat)
    (reward : Z) (visited_moves : list (option Z)) (use_rave : bool) :
  wf_tree tree -> (self < length tree)%nat ->
  exists tree',
    MCTSNode.backpropagate tree self reward visited_moves use_rave = Some tree'
    /\ length tree' = length tree
    /\ forall i n, tree !! i = Some n ->
         exists n',
           tree' !! i = Some n'
           /\ (~ on_path tree self i -> n' = n)
           /\ (on_path tree self i ->
               visits n' = visits n + 1
               /\ (value n' - value n = reward \/ value n' - value n = - reward)
               /\ (forall m,
                     default 0 (rave_visits n' !! m)
                     = default 0 (rave_visits n !! m)
                       + (if use_rave then occurrences m visited_moves else 0))
               /\ (forall m,
                     default 0 (rave_value n' !! m)
                     = default 0 (rave_value n !! m)
                       + (if use_rave
                          then (value n' - value n) * occurrences m visited_moves
                          else 0))
               /\ game_state n' = game_state n /\ children n' = children n
               /\ untried_moves n' = untried_moves n /\ prior n' = prior n).
Proof.
  intros Hwf Hlen.
  destruct (backpropagate_fuel_path visited_moves use_rave (S self) tree self
              reward Hwf Hlen ltac:(lia)) as (tree' & Hrun & Hl & Hnodes).
  exists tree'. split; [exact Hrun|]. split; [exact Hl|].
  intros i n Hi. destruct (Hnodes i n Hi) as [Hon Hoff].
  destruct (lookup_lt_is_Some_2 tree' i) as [n' Hn'].
  { rewrite Hl. eapply lookup_lt_Some; eauto. }
  exists n'. split; [exact Hn'|]. split.
  - intros Hno. rewrite (Hoff Hno) in Hn'. congruence.
  - intros Hpath. destruct (Hon Hpath) as (r & Hr & Er).
    rewrite Er in Hn'. injection Hn' as <-. simpl.
    split; [reflexivity|]. split; [lia|].
    replace (value n + r - value n) with r by lia.
    split; [|split].
    + intros m. destruct use_rave; [|lia].
      rewrite dd_add_fold. lia.
    + intros m. destruct use_rave; [|lia].
      rewrite dd_add_fold. lia.
    + auto.
Qed.

Lemma backpropagate_updates_path_witness :
  exists tree',
    MCTSNode.backpropagate sample_path 2 1 [Some 3; Some 3] true = Some tree'
    /\ length tree' = length sample_path
    /\ forall i n, sample_path !! i = Some n ->
         exists n',
           tree' !! i = Some n'
           /\ (~ on_path sample_path 2 i -> n' = n)
           /\ (on_path sample_path 2 i ->
               visits n' = visits n + 1
               /\ (value n' - value n = 1 \/ value n' - value n = - 1)
               /\ (forall m,
                     default 0 (rave_visits n' !! m)
                     = default 0 (rave_visits n !! m)
                       + (if true then occurrences m [Some 3; Some 3] else 0))
               /\ (forall m,
                     default 0 (rave_value n' !! m)
                     = default 0 (rave_value n !! m)
                       + (if true
                          then (value n' - value n)
                               * occurrences m [Some 3; Some 3]
                          else 0))
               /\ game_state n' = game_state n /\ children n' = children n
               /\ untried_moves n' = untried_moves n /\ prior n' = prior n).
Proof.
  apply (backpropagate_updates_path sample_path 2 1 [Some 3; Some 3] true).
  - exact sample_path_wf.
  - simpl. lia.
Defined.

(* --------------------------------------------------------------------- *)
(** ** Random playouts *)
(* --------------------------------------------------------------------- *)

Section Playouts.

Import MCTSNode.

Variable W : Type.
Variable randbelow : W -> nat -> nat * W.
Hypothesis randbelow_in_range : randbelow_ok randbelow.

Lemma random_choice_elem {A : Type} (w : W) (seq : list A) :
  seq <> [] ->
  exists x, fst (random_choice W randbelow w seq) = Some x /\ x ∈ seq.
Proof.
  intros Hne. unfold random_choice.
  pose proof (randbelow_in_range w (length seq)) as Hlt.
  destruct (randbelow w (length seq)) as [i w']. simpl in *.
  destruct (lookup_lt_is_Some_2 seq i) as [x Hx].
  { apply Hlt. destruct seq; [congruence|simpl; lia]. }
  exists x. split; [exact Hx|]. eapply list_elem_of_lookup_2; eauto.
Qed.

Lemma measure_positive game :
  wf_game game -> is_terminal game = false -> 0 < progress_measure game.
Proof.
  intros Hwf Hterm.
  pose proof (valid_moves_nonempty game (current_player game)) as Hne.
  destruct (valid_moves game (current_player game)) as [|m ms] eqn:E;
    [congruence|].
  pose proof (progress_measure_decreases game m Hwf Hterm
                ltac:(rewrite E; left)). lia.
Qed.

Lemma legal_line_app game ms1 ms2 :
  legal_line game ms1 -> legal_line (play game ms1) ms2 ->
  legal_line game (ms1 ++ ms2).
Proof.
  revert game. induction ms1 as [|m ms1 IH]; intros game H1 H2; simpl in *.
  - exact H2.
  - destruct H1 as (Hm & Hin & H1). split; [exact Hm|]. split; [exact Hin|].
    apply IH; assumption.
Qed.

Lemma measure_nonneg game : wf_game game -> 0 <= progress_measure game.
Proof.
  intros (Hlen & Hnn & _). unfold progress_measure.
  pose proof (potential_bounds (board game) Hlen Hnn). nia.
Qed.

Lemma rollout_loop_terminal fuel w game visited_moves :
  is_terminal game = true ->
  rollout_loop W randbelow fuel w game visited_moves
  = Finished (w, game, visited_moves).
Proof. intros Hterm. destruct fuel; simpl; rewrite Hterm; reflexivity. Qed.

(** With as much fuel as the measure of the state, the loop of a playout
    reaches a terminal state along a legal line. *)
Lemma rollout_loop_finishes : forall fuel w game visited_moves,
  wf_game game ->
  progress_measure game <= Z.of_nat fuel ->
  exists w' moves,
    rollout_loop W randbelow fuel w game visited_moves
    = Finished (w', play game moves, visited_moves ++ moves)
    /\ legal_line game moves
    /\ is_terminal (play game moves) = true
    /\ Z.of_nat (length moves) <= progress_measure game.
Proof.
  induction fuel as [|fuel IH]; intros w game visited Hwf Hfuel;
    destruct (is_terminal game) eqn:Hterm;
    try (exists w, []; rewrite rollout_loop_terminal, app_nil_r by exact Hterm;
         split; [reflexivity|]; split; [exact I|]; split; [exact Hterm|];
         pose proof (measure_nonneg game Hwf); simpl; lia).
  - pose proof (measure_positive game Hwf Hterm). lia.
  - cbn [rollout_loop]. rewrite Hterm.
    destruct (random_choice_elem w (valid_moves game (current_player game))
                (valid_moves_nonempty _ _)) as (m & Hm & Hin).
    destruct (random_choice W randbelow w
                (valid_moves game (current_player game))) as [mv w1].
    simpl in Hm. subst mv.
    pose proof (progress_measure_decreases game m Hwf Hterm Hin) as Hdec.
    destruct (valid_moves_not_terminal game m Hwf Hterm Hin) as [i Hi].
    assert (Hwf1 : wf_game (perform_move game m (current_player game)))
      by (apply perform_move_wf; [exact Hwf|apply Hwf|exact Hin]).
    destruct (IH w1 (perform_move game m (current_player game))
                 (visited ++ [m]) Hwf1 ltac:(lia))
      as (w' & moves & Hrun & Hline & Hend & Hlen).
    exists w', (m :: moves).
    rewrite Hrun, <- app_assoc.
    split; [reflexivity|]. split; [simpl; eauto|]. split; [exact Hend|].
    simpl length. lia.
Qed.

End Playouts.

(** X17. [rollout] ends.  From a node that holds a well-formed state, with a
    random generator that draws indices below the bound it is given, and with
    as many units of fuel as the measure of the state, [rollout] returns: the
    moves it reports are a line of legal moves from pits that leads from the
    state of the node to a terminal state, they are no more than the measure
    of the state, and the reward is the sign of the result of that terminal
    state. *)
Theorem rollout_terminates (W : Type) (randbelow : W -> nat -> nat * W)
    (fuel : nat) (w : W) (self : MCTSNode) :
  randbelow_ok randbelow ->
  wf_game (MCTSNode.get_game_copy self) ->
  progress_measure (MCTSNode.get_game_copy self) <= Z.of_nat fuel ->
  exists w' visited_moves,
    MCTSNode.rollout W randbelow fuel w self
    = Finished (w', (Z.sgn (result (play (MCTSNode.get_game_copy self)
                                         visited_moves)),
                     visited_moves))
    /\ legal_line (MCTSNode.get_game_copy self) visited_moves
    /\ is_terminal (play (MCTSNode.get_game_copy self) visited_moves) = true
    /\ Z.of_nat (length visited_moves)
       <= progress_measure (MCTSNode.get_game_copy self).
Proof.
  intros Hrand Hwf Hfuel.
  destruct (rollout_loop_finishes W randbelow Hrand fuel w
              (MCTSNode.get_game_copy self) [] Hwf Hfuel)
    as (w' & moves & Hrun & Hline & Hend & Hlen).
  exists w', moves. split; [|auto].
  unfold MCTSNode.rollout. rewrite Hrun. cbn [bind_loop app].
  f_equal. f_equal. f_equal.
  set (r := result (play (MCTSNode.get_game_copy self) moves)).
  destruct (Z.ltb_spec 0 r); [symmetry; apply Z.sgn_pos; lia|].
  destruct (Z.ltb_spec r 0); [symmetry; apply Z.sgn_neg; lia|].
  symmetry. apply Z.sgn_null_iff. lia.
Qed.

Lemma rollout_terminates_witness :
  exists w' visited_moves,
    MCTSNode.rollout unit first_index
      (Z.to_nat (progress_measure (MCTSNode.get_game_copy sample_root)))
      tt sample_root
    = Finished (w', (Z.sgn (result (play (MCTSNode.get_game_copy sample_root)
                                         visited_moves)),
                     visited_moves))
    /\ legal_line (MCTSNode.get_game_copy sample_root) visited_moves
    /\ is_terminal (play (MCTSNode.get_game_copy sample_root) visited_moves)
       = true
    /\ Z.of_nat (length visited_moves)
       <= progress_measure (MCTSNode.get_game_copy sample_root).
Proof.
  apply (rollout_terminates unit first_index
           (Z.to_nat (progress_measure (MCTSNode.get_game_copy sample_root)))
           tt sample_root).
  - intros w n Hn. exact Hn.
  - repeat split; [|left; reflexivity]. simpl. repeat constructor; lia.
  - vm_compute. discriminate.
Defined.

(* --------------------------------------------------------------------- *)
(** ** The tree of a search *)
(* --------------------------------------------------------------------- *)

Section SearchTree.

Import MCTSNode.

Lemma init_search_tree game p :
  wf_game game ->
  search_tree (progress_measure game)
              [init (from_board_to_state game) None None p].
Proof.
  intros Hwf. split.
  - intros i q. unfold parent_of.
    destruct i as [|i]; simpl; discriminate.
  - intros i n Hi. destruct i as [|i]; [|simpl in Hi; discriminate].
    injection Hi as <-.
    split; [exact Hwf|]. split; [unfold progress_measure; simpl; lia|].
    split; [intros m Hm; exact Hm|]. split.
    + intros Hnil. exfalso. simpl in Hnil.
      exact (valid_moves_nonempty _ _ Hnil).
    + intros c Hc. simpl in Hc. apply elem_of_nil in Hc. destruct Hc.
Qed.

(** What [expand] does to a tree that is kept as a search keeps it. *)
Lemma expand_spec M tree self node use_puct :
  search_tree M tree ->
  tree !! self = Some node ->
  is_terminal (get_game_copy node) = false ->
  exists i child node',
    last (match untried_moves node with
          | [] => legal_moves node
          | _ => untried_moves node
          end) = Some (Some i)
    /\ expand tree self use_puct
       = Some (<[self := node']> tree ++ [child], length tree)
    /\ search_tree M (<[self := node']> tree ++ [child])
    /\ node' = set_untried_children node
                 (removelast (match untried_moves node with
                              | [] => legal_moves node
                              | _ => untried_moves node
                              end))
                 (children node ++ [length tree])
    /\ game_state child
       = from_board_to_state
           (perform_move (get_game_copy node) (Some i)
                         (current_player (get_game_copy node)))
    /\ parent child = Some self /\ move child = Some i
    /\ player child
       = current_player (perform_move (get_game_copy node) (Some i)
                                      (current_player (get_game_copy node)))
    /\ visits child = 0 /\ value child = 0 /\ children child = []
    /\ untried_moves child = legal_moves child.
Proof.
  intros [Hpar Hnodes] Hnode Hterm.
  destruct (Hnodes self node Hnode) as (Hwf & HM & Hleg & Hexp & Hch).
  set (game := get_game_copy node) in *.
  set (untried := match untried_moves node with
                  | [] => legal_moves node
                  | _ => untried_moves node
                  end).
  assert (Hsub : forall m, m ∈ untried -> m ∈ legal_moves node).
  { unfold untried. destruct (untried_moves node); auto. }
  assert (Hne : untried <> []).
  { unfold untried. destruct (untried_moves node); [|discriminate].
    apply valid_moves_nonempty. }
  destruct (last untried) as [mv|] eqn:Hlast;
    [|apply last_None in Hlast; contradiction].
  pose proof (Hsub mv (last_Some_elem_of _ _ Hlast)) as Hmv.
  destruct (valid_moves_not_terminal game mv Hwf Hterm Hmv) as [i ->].
  set (game' := perform_move game (Some i) (current_player game)).
  assert (Hl' : is_Some (last_pit game')) by apply perform_move_some_last_pit.
  assert (Hwf' : wf_game game')
    by (apply perform_move_wf; [exact Hwf|apply Hwf|exact Hmv]).
  pose proof (progress_measure_decreases game (Some i) Hwf Hterm Hmv) as Hdec.
  set (fresh := init (from_board_to_state game') (Some self) (Some i)
                     (current_player game')).
  assert (Hprior : exists child,
             (if use_puct
              then p ← puct_prior game' (Some i); Some (set_prior fresh p)
              else Some fresh) = Some child
             /\ game_state child = game_state fresh
             /\ parent child = parent fresh /\ move child = move fresh
             /\ player child = player fresh /\ visits child = visits fresh
             /\ value child = value fresh /\ children child = children fresh
             /\ untried_moves child = untried_moves fresh).
  { destruct use_puct; [|exists fresh; repeat split; reflexivity].
    destruct (score_moves_spec game' (valid_moves game' (current_player game'))
                ∅ 0%float Hl' (valid_moves_NoDup _ _))
      as (ms & total & Hscore & _).
    unfold puct_prior. rewrite Hscore. cbn [mbind option_bind].
    destruct (0 <? total)%float; cbn [mbind option_bind];
      eexists; (split; [reflexivity|]); repeat split; reflexivity. }
  destruct Hprior as (child & Hchild & Hc1 & Hc2 & Hc3 & Hc4 & Hc5 & Hc6 & Hc7 & Hc8).
  set (node' := set_untried_children node (removelast untried)
                  (children node ++ [length tree])).
  pose proof (lookup_lt_Some _ _ _ Hnode) as Hself.
  exists i, child, node'.
  split; [reflexivity|]. split.
  { unfold expand. rewrite Hnode. cbn [mbind option_bind].
    fold game. fold (legal_moves node) in *.
    change (match untried_moves node with
            | [] => valid_moves game (current_player game)
            | _ :: _ => untried_moves node
            end) with untried.
    rewrite Hlast. cbn [mbind option_bind]. fold game'. fold fresh.
    rewrite Hchild. cbn [mbind option_bind]. reflexivity. }
  split; [|split; [reflexivity|];
           split; [rewrite Hc1; reflexivity|];
           split; [rewrite Hc2; reflexivity|];
           split; [rewrite Hc3; reflexivity|];
           split; [rewrite Hc4; reflexivity|];
           split; [rewrite Hc5; reflexivity|];
           split; [rewrite Hc6; reflexivity|];
           split; [rewrite Hc7; reflexivity|];
           unfold legal_moves; rewrite Hc8, Hc1; reflexivity].
  (* the tree is still as a search keeps it *)
  set (tree' := <[self := node']> tree ++ [child]).
  assert (Hnew : tree' !! length tree = Some child).
  { unfold tree'. rewrite lookup_app_r by (rewrite length_insert; lia).
    rewrite length_insert, Nat.sub_diag. reflexivity. }
  assert (Hsame : tree' !! self = Some node').
  { unfold tree'. rewrite lookup_app_l by (rewrite length_insert; exact Hself).
    apply list_lookup_insert_eq. exact Hself. }
  assert (Hold : forall j, j <> self -> (j < length tree)%nat ->
                           tree' !! j = tree !! j).
  { intros j Hj Hlt. unfold tree'.
    rewrite lookup_app_l by (rewrite length_insert; exact Hlt).
    apply list_lookup_insert_ne. auto. }
  assert (Hcases : forall j n, tree' !! j = Some n ->
             (j = length tree /\ n = child)
             \/ (j = self /\ n = node')
             \/ (j <> self /\ (j < length tree)%nat /\ tree !! j = Some n)).
  { intros j n Hj.
    destruct (decide (j = length tree)) as [->|Hj1];
      [left; split; [reflexivity|congruence]|].
    destruct (decide (j = self)) as [->|Hj2];
      [right; left; split; [reflexivity|congruence]|].
    right; right.
    assert (j < length tree)%nat.
    { apply lookup_lt_Some in Hj. unfold tree' in Hj.
      rewrite length_app, length_insert in Hj. simpl in Hj. lia. }
    split; [exact Hj2|]. split; [assumption|]. rewrite <- Hold by assumption.
    exact Hj. }
  assert (Hmove : forall c cn, tree !! c = Some cn ->
             exists cn', tree' !! c = Some cn' /\ move cn' = move cn).
  { intros c cn Hc. pose proof (lookup_lt_Some _ _ _ Hc) as Hlt.
    destruct (decide (c = self)) as [->|Hcs].
    - exists node'. split; [exact Hsame|]. rewrite Hnode in Hc.
      injection Hc as <-. reflexivity.
    - exists cn. rewrite Hold by assumption. auto. }
  split.
  - (* parents before children *)
    intros j q. unfold parent_of.
    destruct (tree' !! j) as [n|] eqn:Hj; [|discriminate]. simpl.
    destruct (Hcases j n Hj) as [[-> ->]|[[-> ->]|(Hj1 & Hj2 & Hj3)]].
    + rewrite Hc2. simpl. intros H. injection H as <-. exact Hself.
    + simpl. intros Hp. apply (Hpar self q). unfold parent_of.
      rewrite Hnode. exact Hp.
    + intros Hp. apply (Hpar j q). unfold parent_of. rewrite Hj3. exact Hp.
  - intros j n Hj.
    destruct (Hcases j n Hj) as [[-> ->]|[[-> ->]|(Hj1 & Hj2 & Hj3)]].
    + (* the new child *)
      unfold legal_moves, get_game_copy. rewrite Hc8, Hc7, Hc1. simpl.
      split; [exact Hwf'|]. split.
      { change (progress_measure game' <= M). fold game' in Hdec. lia. }
      split; [intros m Hm; exact Hm|]. split.
      * intros Hnil. exfalso. exact (valid_moves_nonempty _ _ Hnil).
      * intros c Hc. apply elem_of_nil in Hc. destruct Hc.
    + (* the expanded node *)
      split; [exact Hwf|]. split; [exact HM|]. split; [|split].
      * intros m Hm. simpl in Hm. apply Hsub.
        destruct untried as [|u us] using rev_ind; [congruence|].
        rewrite removelast_last in Hm. apply elem_of_app. left. exact Hm.
      * intros _. simpl. destruct (children node); discriminate.
      * intros c Hc. simpl in Hc. apply elem_of_app in Hc.
        destruct Hc as [Hc|Hc].
        -- destruct (Hch c Hc) as (Hlt & cn & Hcn & Hcm).
           split; [exact Hlt|].
           destruct (Hmove c cn Hcn) as (cn' & Hcn' & Hmv').
           exists cn'. split; [exact Hcn'|]. rewrite Hmv'. exact Hcm.
        -- apply list_elem_of_singleton in Hc. subst c.
           split; [exact Hself|]. exists child. split; [exact Hnew|].
           rewrite Hc3. exact Hmv.
    + (* another node *)
      destruct (Hnodes j n Hj3) as (Hw & Hm & Hl & He & Hc).
      split; [exact Hw|]. split; [exact Hm|]. split; [exact Hl|].
      split; [exact He|].
      intros c Hcin. destruct (Hc c Hcin) as (Hlt & cn & Hcn & Hcm).
      split; [exact Hlt|].
      destruct (Hmove c cn Hcn) as (cn' & Hcn' & Hmv').
      exists cn'. split; [exact Hcn'|]. rewrite Hmv'. exact Hcm.
Qed.

Lemma same_shape_refl n : same_shape n n.
Proof. repeat split. Qed.

Lemma same_shape_trans n1 n2 n3 :
  same_shape n1 n2 -> same_shape n2 n3 -> same_shape n1 n3.
Proof.
  intros (A1 & A2 & A3 & A4 & A5) (B1 & B2 & B3 & B4 & B5).
  repeat split; congruence.
Qed.

(** Backpropagation changes the statistics of nodes and nothing else. *)
Lemma backpropagate_fuel_shape visited_moves use_rave :
  forall fuel tree self reward tree',
    backpropagate_fuel fuel tree self reward visited_moves use_rave = Some tree' ->
    length tree' = length tree
    /\ forall i n, tree !! i = Some n ->
         exists n', tree' !! i = Some n' /\ same_shape n n'.
Proof.
  induction fuel as [|fuel IH]; intros tree self reward tree' Hrun;
    [discriminate|].
  simpl in Hrun.
  destruct (tree !! self) as [node|] eqn:Hnode; [|discriminate].
  simpl in Hrun.
  set (node' := record_reward node reward visited_moves use_rave) in *.
  set (tree1 := <[self := node']> tree) in *.
  assert (Hstep : length tree1 = length tree
                  /\ forall i n, tree !! i = Some n ->
                       exists n1, tree1 !! i = Some n1 /\ same_shape n n1).
  { split; [apply length_insert|]. intros i n Hi.
    destruct (decide (i = self)) as [->|Hne].
    - exists node'. split.
      + apply list_lookup_insert_eq. eapply lookup_lt_Some; eauto.
      + rewrite Hnode in Hi. injection Hi as <-. repeat split.
    - exists n. split; [|apply same_shape_refl].
      unfold tree1. rewrite list_lookup_insert_ne by auto. exact Hi. }
  destruct Hstep as [Hl1 Hs1].
  change (parent node') with (parent node) in Hrun.
  destruct (parent node) as [p|].
  - destruct (tree1 !! p) as [pn|]; [|discriminate]. simpl in Hrun.
    assert (Hrec : exists r, backpropagate_fuel fuel tree1 p r visited_moves
                               use_rave = Some tree')
      by (destruct (_ =? _); eauto).
    destruct Hrec as [r Hrec].
    destruct (IH tree1 p r tree' Hrec) as [Hl Hs].
    split; [congruence|]. intros i n Hi.
    destruct (Hs1 i n Hi) as (n1 & Hn1 & Hsh1).
    destruct (Hs i n1 Hn1) as (n' & Hn' & Hsh).
    exists n'. split; [exact Hn'|]. eapply same_shape_trans; eauto.
  - injection Hrun as <-. split; [exact Hl1|exact Hs1].
Qed.

(** A tree stays as a search keeps it when only statistics change. *)
Lemma search_tree_shape M tree tree' :
  search_tree M tree ->
  length tree' = length tree ->
  (forall i n, tree !! i = Some n ->
     exists n', tree' !! i = Some n' /\ same_shape n n') ->
  search_tree M tree'.
Proof.
  intros [Hpar Hnodes] Hlen Hshape.
  assert (Hback : forall i n', tree' !! i = Some n' ->
            exists n, tree !! i = Some n /\ same_shape n n').
  { intros i n' Hi.
    destruct (lookup_lt_is_Some_2 tree i) as [n Hn].
    { rewrite <- Hlen. eapply lookup_lt_Some; eauto. }
    destruct (Hshape i n Hn) as (n'' & Hn'' & Hsh).
    exists n. split; [exact Hn|]. congruence. }
  split.
  - intros i q. unfold parent_of.
    destruct (tree' !! i) as [n'|] eqn:Hi; [|discriminate]. simpl.
    destruct (Hback i n' Hi) as (n & Hn & (_ & Hp & _)).
    intros Hq. apply (Hpar i q). unfold parent_of. rewrite Hn. simpl. congruence.
  - intros i n' Hi.
    destruct (Hback i n' Hi) as (n & Hn & (Hg & Hp & Hm & Hc & Hu)).
    destruct (Hnodes i n Hn) as (Hw & HM & Hl & He & Hch).
    unfold legal_moves, get_game_copy in *. rewrite Hg, Hu, Hc.
    split; [exact Hw|]. split; [exact HM|]. split; [exact Hl|].
    split; [exact He|].
    intros c Hcin. destruct (Hch c Hcin) as (Hlt & cn & Hcn & Hcm).
    split; [exact Hlt|].
    destruct (Hshape c cn Hcn) as (cn' & Hcn' & (_ & _ & Hm' & _)).
    exists cn'. split; [exact Hcn'|]. rewrite Hm'. exact Hcm.
Qed.

Lemma backpropagate_search_tree M tree self reward visited_moves use_rave :
  search_tree M tree -> (self < length tree)%nat ->
  exists tree',
    backpropagate tree self reward visited_moves use_rave = Some tree'
    /\ search_tree M tree'
    /\ length tree' = length tree
    /\ forall i n, tree !! i = Some n ->
         exists n', tree' !! i = Some n' /\ same_shape n n'.
Proof.
  intros Hst Hself.
  destruct (backpropagate_fuel_path visited_moves use_rave (S self) tree self
              reward (proj1 Hst) Hself ltac:(lia)) as (tree' & Hrun & _).
  destruct (backpropagate_fuel_shape _ _ _ _ _ _ _ Hrun) as [Hl Hs].
  exists tree'. split; [exact Hrun|].
  split; [eapply search_tree_shape; eauto|]. split; [exact Hl|exact Hs].
Qed.

Section Descent.

Variable score : list MCTSNode -> nat -> nat -> R.

Lemma foldl_pick_in tree self (cs : list nat) : forall c,
  foldl (fun best c' =>
           if Rlt_dec (score tree self best) (score tree self c')
           then c' else best) c cs ∈ c :: cs.
Proof.
  induction cs as [|x cs IH]; intros c; simpl; [left|].
  destruct (Rlt_dec _ _).
  - right. apply IH.
  - specialize (IH c). apply elem_of_cons in IH.
    destruct IH as [->|IH]; [left|right; right; exact IH].
Qed.

Lemma best_child_in tree self node :
  tree !! self = Some node -> children node <> [] ->
  exists c, best_child score tree self = Some c /\ c ∈ children node.
Proof.
  intros Hnode Hne. unfold best_child. rewrite Hnode. simpl.
  destruct (children node) as [|c cs]; [congruence|].
  eexists. split; [reflexivity|]. apply foldl_pick_in.
Qed.

(** The descent of [tree_policy] ends at a terminal node of the tree or at a
    child it has just created. *)
Lemma tree_policy_spec M use_puct : forall fuel tree node,
  search_tree M tree ->
  (node < length tree)%nat ->
  (length tree - node <= fuel)%nat ->
  exists tree' node' n',
    KalahMCTS.tree_policy score fuel use_puct tree node
    = Finished (tree', node')
    /\ search_tree M tree'
    /\ tree' !! node' = Some n'
    /\ (forall i n, tree !! i = Some n ->
          exists m, tree' !! i = Some m
                    /\ game_state m = game_state n
                    /\ (children n <> [] -> children m <> []))
    /\ (forall n, tree !! node = Some n ->
          KalahMCTS.terminal_state n = false ->
          exists m, tree' !! node = Some m /\ children m <> [])
    /\ ((tree' = tree /\ KalahMCTS.terminal_state n' = true)
        \/ (node' = length tree /\ length tree' = S (length tree)
            /\ children n' = [] /\ visits n' = 0)).
Proof.
  induction fuel as [|fuel IH]; intros tree node Hst Hnode Hfuel.
  - lia.
  - destruct (lookup_lt_is_Some_2 tree node Hnode) as [n Hn].
    cbn [KalahMCTS.tree_policy]. rewrite Hn.
    destruct (KalahMCTS.terminal_state n) eqn:Hterm.
    + exists tree, node, n.
      split; [reflexivity|]. split; [exact Hst|]. split; [exact Hn|].
      split; [intros i m Hi; exists m; auto|].
      split; [intros m Hm; congruence|]. left. auto.
    + destruct (Hst) as [Hpar Hnodes].
      destruct (Hnodes node n Hn) as (Hw & HM & Hl & He & Hch).
      unfold is_fully_expanded.
      destruct (untried_moves n) as [|u us] eqn:Hun; simpl.
      * (* fully expanded: go down to the best child *)
        destruct (best_child_in tree node n Hn (He eq_refl)) as (c & Hbest & Hc).
        rewrite Hbest.
        destruct (Hch c Hc) as (Hlt & cn & Hcn & _).
        pose proof (lookup_lt_Some _ _ _ Hcn) as Hclt.
        destruct (IH tree c Hst Hclt ltac:(lia))
          as (tree' & node' & n' & Hrun & Hst' & Hn' & Hkeep & _ & Hend).
        exists tree', node', n'.
        split; [exact Hrun|]. split; [exact Hst'|]. split; [exact Hn'|].
        split; [exact Hkeep|]. split; [|exact Hend].
        intros m0 Hm0 _.
        destruct (Hkeep node n Hn) as (m & Hm & _ & Hcm).
        exists m. split; [exact Hm|]. apply Hcm, He. reflexivity.
      * (* an untried move is left: expand *)
        destruct (expand_spec M tree node n use_puct Hst Hn Hterm)
          as (i & child & node1 & _ & Hrun & Hst' & Hnode1 & _ & _ & _ & _
              & Hv & _ & Hc0 & _).
        rewrite Hrun.
        assert (Hnew : (<[node := node1]> tree ++ [child]) !! length tree
                       = Some child).
        { rewrite lookup_app_r by (rewrite length_insert; lia).
          rewrite length_insert, Nat.sub_diag. reflexivity. }
        assert (Hsame : (<[node := node1]> tree ++ [child]) !! node = Some node1).
        { rewrite lookup_app_l by (rewrite length_insert; exact Hnode).
          apply list_lookup_insert_eq. exact Hnode. }
        exists (<[node := node1]> tree ++ [child]), (length tree), child.
        split; [reflexivity|]. split; [exact Hst'|]. split; [exact Hnew|].
        split; [|split].
        -- intros j m Hj. pose proof (lookup_lt_Some _ _ _ Hj) as Hjlt.
           destruct (decide (j = node)) as [->|Hne].
           ++ exists node1. split; [exact Hsame|].
              assert (m = n) as -> by congruence. rewrite Hnode1. simpl.
              split; [reflexivity|]. intros _.
              destruct (children n); discriminate.
           ++ exists m. rewrite lookup_app_l by (rewrite length_insert; exact Hjlt).
              rewrite list_lookup_insert_ne by auto. auto.
        -- intros m Hm _. exists node1. split; [exact Hsame|].
           rewrite Hnode1. simpl. destruct (children n); discriminate.
        -- right. split; [reflexivity|]. split; [|auto].
           rewrite length_app, length_insert. simpl. lia.
Qed.

End Descent.

End SearchTree.

Section SearchLoop.

Import MCTSNode.

Variable W : Type.
Variable randbelow : W -> nat -> nat * W.
Hypothesis randbelow_in_range : randbelow_ok randbelow.
Variable score : list MCTSNode -> nat -> nat -> R.

Lemma search_iteration_spec M fuel use_puct use_rave w tree root :
  search_tree M tree ->
  (root < length tree)%nat ->
  (length tree <= fuel)%nat -> M <= Z.of_nat fuel ->
  exists w' tree',
    KalahMCTS.search_iteration W randbelow score fuel use_puct use_rave
                               w tree root
    = Finished (w', tree')
    /\ search_tree M tree'
    /\ (length tree <= length tree' <= S (length tree))%nat
    /\ kept tree tree'
    /\ (forall n, tree !! root = Some n ->
          KalahMCTS.terminal_state n = false ->
          exists m, tree' !! root = Some m /\ children m <> []).
Proof.
  intros Hst Hroot Hfuel HM.
  destruct (tree_policy_spec score M use_puct fuel tree root Hst Hroot
              ltac:(lia))
    as (tree1 & node1 & n1 & Hpol & Hst1 & Hn1 & Hkeep1 & Hroot1 & Hend).
  destruct Hst1 as [Hpar1 Hnodes1].
  destruct (Hnodes1 node1 n1 Hn1) as (Hw1 & HM1 & _).
  destruct (rollout_loop_finishes W randbelow randbelow_in_range fuel w
              (get_game_copy n1) [] Hw1 ltac:(lia))
    as (w' & moves & Hroll & _).
  set (r := result (play (get_game_copy n1) moves)).
  set (reward := if 0 <? r then 1 else if r <? 0 then -1 else 0).
  destruct (backpropagate_search_tree M tree1 node1 reward moves use_rave
              (conj Hpar1 Hnodes1) (lookup_lt_Some _ _ _ Hn1))
    as (tree2 & Hback & Hst2 & Hl2 & Hshape).
  exists w', tree2. split.
  { unfold KalahMCTS.search_iteration. rewrite Hpol. cbn [bind_loop].
    rewrite Hn1. unfold rollout. rewrite Hroll. cbn [bind_loop app].
    fold r. fold reward. rewrite Hback. reflexivity. }
  split; [exact Hst2|]. split.
  { rewrite Hl2. destruct Hend as [[-> _]|(_ & -> & _)]; lia. }
  split.
  - intros i n Hi. destruct (Hkeep1 i n Hi) as (m1 & Hm1 & Hg1 & Hc1).
    destruct (Hshape i m1 Hm1) as (m2 & Hm2 & (Hg2 & _ & _ & Hc2 & _)).
    exists m2. split; [exact Hm2|]. split; [congruence|].
    intros Hne. rewrite Hc2. apply Hc1, Hne.
  - intros n Hn Hterm. destruct (Hroot1 n Hn Hterm) as (m1 & Hm1 & Hc1).
    destruct (Hshape root m1 Hm1) as (m2 & Hm2 & (_ & _ & _ & Hc2 & _)).
    exists m2. split; [exact Hm2|]. rewrite Hc2. exact Hc1.
Qed.

Lemma search_loop_spec M use_puct use_rave root : forall iterations fuel w tree,
  search_tree M tree ->
  (root < length tree)%nat ->
  (length tree + iterations <= fuel)%nat -> M <= Z.of_nat fuel ->
  exists w' tree',
    KalahMCTS.search_loop W randbelow score iterations fuel use_puct use_rave
                          w tree root
    = Finished (w', tree')
    /\ search_tree M tree'
    /\ kept tree tree'
    /\ ((0 < iterations)%nat ->
        forall n, tree !! root = Some n ->
          KalahMCTS.terminal_state n = false ->
          exists m, tree' !! root = Some m /\ children m <> []).
Proof.
  induction iterations as [|iterations IH]; intros fuel w tree Hst Hroot Hfuel HM.
  - exists w, tree. split; [reflexivity|]. split; [exact Hst|].
    split; [intros i n Hi; exists n; auto|]. lia.
  - destruct (search_iteration_spec M fuel use_puct use_rave w tree root
                Hst Hroot ltac:(lia) HM)
      as (w1 & tree1 & Hit & Hst1 & Hlen1 & Hkeep1 & Hroot1).
    destruct (IH fuel w1 tree1 Hst1 ltac:(lia) ltac:(lia) HM)
      as (w' & tree' & Hloop & Hst' & Hkeep' & _).
    exists w', tree'. split.
    { cbn [KalahMCTS.search_loop]. rewrite Hit. cbn [bind_loop fst snd].
      exact Hloop. }
    split; [exact Hst'|]. split.
    + intros i n Hi. destruct (Hkeep1 i n Hi) as (m1 & Hm1 & Hg1 & Hc1).
      destruct (Hkeep' i m1 Hm1) as (m2 & Hm2 & Hg2 & Hc2).
      exists m2. split; [exact Hm2|]. split; [congruence|]. auto.
    + intros _ n Hn Hterm. destruct (Hroot1 n Hn Hterm) as (m1 & Hm1 & Hc1).
      destruct (Hkeep' root m1 Hm1) as (m2 & Hm2 & _ & Hc2).
      exists m2. split; [exact Hm2|]. apply Hc2, Hc1.
Qed.

End SearchLoop.

(** X18. What [expand] does.  On a tree kept as a search keeps it, expanding
    a node whose state is not terminal returns, with or without PUCT.  The
    move expanded is the last untried move of the node (the last legal move
    when no untried move is left, in which case the list is filled again
    first), and it is a legal move from a pit; the node loses that move from
    its untried moves and gains the new child as its last child; the child is
    appended to the tree with the node as its parent, the state and the
    player to move after the move, no visit, no value, no child, and all the
    legal moves of its state untried; every other node is untouched; and the
    tree is still kept as a search keeps it. *)
Theorem expand_keeps_search_tree (M : Z) (tree : list MCTSNode) (self : nat)
    (node : MCTSNode) (use_puct : bool) :
  search_tree M tree ->
  tree !! self = Some node ->
  is_terminal (MCTSNode.get_game_copy node) = false ->
  let untried := match untried_moves node with
                 | [] => legal_moves node
                 | _ => untried_moves node
                 end in
  exists i child node' tree',
    MCTSNode.expand tree self use_puct = Some (tree', length tree)
    /\ search_tree M tree'
    /\ length tree' = S (length tree)
    /\ last untried = Some (Some i)
    /\ Some i ∈ legal_moves node
    /\ tree' !! self = Some node'
    /\ untried_moves node' = removelast untried
    /\ children node' = children node ++ [length tree]
    /\ visits node' = visits node /\ value node' = value node
    /\ tree' !! length tree = Some child
    /\ game_state child
       = from_board_to_state
           (perform_move (MCTSNode.get_game_copy node) (Some i)
                         (current_player (MCTSNode.get_game_copy node)))
    /\ parent child = Some self /\ move child = Some i
    /\ player child
       = current_player
           (perform_move (MCTSNode.get_game_copy node) (Some i)
                         (current_player (MCTSNode.get_game_copy node)))
    /\ visits child = 0 /\ value child = 0 /\ children child = []
    /\ untried_moves child = legal_moves child
    /\ forall j, j <> self -> (j < length tree)%nat -> tree' !! j = tree !! j.
Proof.
  intros Hst Hnode Hterm untried.
  destruct (expand_spec M tree self node use_puct Hst Hnode Hterm)
    as (i & child & node' & Hlast & Hrun & Hst' & Hnode' & Hc).
  pose proof (lookup_lt_Some _ _ _ Hnode) as Hself.
  exists i, child, node', (<[self := node']> tree ++ [child]).
  split; [exact Hrun|]. split; [exact Hst'|].
  split; [rewrite length_app, length_insert; simpl; lia|].
  split; [exact Hlast|]. split.
  { destruct Hst as [_ Hnodes].
    destruct (Hnodes self node Hnode) as (_ & _ & Hleg & _).
    apply last_Some_elem_of in Hlast. revert Hlast. subst untried.
    destruct (untried_moves node); [auto|]. apply Hleg. }
  split.
  { rewrite lookup_app_l by (rewrite length_insert; exact Hself).
    apply list_lookup_insert_eq. exact Hself. }
  rewrite Hnode'. cbn [MCTSNode.set_untried_children untried_moves children
                       visits value].
  split; [reflexivity|]. split; [reflexivity|].
  split; [reflexivity|]. split; [reflexivity|]. split.
  { rewrite lookup_app_r by (rewrite length_insert; lia).
    rewrite length_insert, Nat.sub_diag. reflexivity. }
  destruct Hc as (H1 & H2 & H3 & H4 & H5 & H6 & H7 & H8).
  repeat (split; [assumption|]).
  intros j Hj Hlt. rewrite lookup_app_l by (rewrite length_insert; exact Hlt).
  apply list_lookup_insert_ne. auto.
Qed.

(** X19. [tree_policy] ends.  On a tree kept as a search keeps it, from any
    node of the tree and with as many units of fuel as the tree has nodes,
    [tree_policy] returns: either the tree is unchanged and the node returned
    is a node of it whose state is terminal, or the node returned is a child
    just created by [expand], appended to the tree, without visit or child.
    It never asks for the best child of a node that has none.  The tree is
    still kept as a search keeps it, every node stands for the state it
    stood for, and if the state of the start node is not terminal that node
    has a child afterwards. *)
Theorem tree_policy_terminates (score : list MCTSNode -> nat -> nat -> R)
    (M : Z) (use_puct : bool) (fuel : nat) (tree : list MCTSNode) (node : nat) :
  search_tree M tree ->
  (node < length tree)%nat ->
  (length tree <= fuel)%nat ->
  exists tree' node' n',
    KalahMCTS.tree_policy score fuel use_puct tree node
    = Finished (tree', node')
    /\ search_tree M tree'
    /\ tree' !! node' = Some n'
    /\ kept tree tree'
    /\ (forall n, tree !! node = Some n ->
          KalahMCTS.terminal_state n = false ->
          exists m, tree' !! node = Some m /\ children m <> [])
    /\ ((tree' = tree /\ KalahMCTS.terminal_state n' = true)
        \/ (node' = length tree /\ length tree' = S (length tree)
            /\ children n' = [] /\ visits n' = 0)).
Proof.
  intros Hst Hnode Hfuel.
  destruct (tree_policy_spec score M use_puct fuel tree node Hst Hnode
              ltac:(lia))
    as (tree' & node' & n' & H1 & H2 & H3 & H4 & H5 & H6).
  exists tree', node', n'. auto 10.
Qed.

(** X20. [best_move], when neither SHOT nor SHUSS is selected.  With no
    iteration the root has no child and the call raises (the [ValueError] of
    [max] on an empty list).  On a well-formed state that is not terminal,
    with at least one iteration, a random generator that draws indices below
    the bound it is given, and enough fuel, the call returns, and what it
    returns is a legal move of the state from a pit. *)
Theorem best_move_returns_legal_move (W : Type)
    (randbelow : W -> nat -> nat * W)
    (score root_score : list MCTSNode -> nat -> nat -> R)
    (iterations fuel : nat) (use_rave use_grave use_puct : bool)
    (w : W) (game : KalahGame) :
  KalahMCTS.best_move W randbelow score root_score 0 fuel
                      use_rave use_grave use_puct w game
  = Failed
  /\ (randbelow_ok randbelow ->
      wf_game game -> is_terminal game = false ->
      (0 < iterations)%nat ->
      (iterations < fuel)%nat -> progress_measure game <= Z.of_nat fuel ->
      exists i,
        KalahMCTS.best_move W randbelow score root_score iterations fuel
                            use_rave use_grave use_puct w game
        = Finished (Some i)
        /\ Some i ∈ valid_moves game (current_player game)).
Proof.
  split; [reflexivity|].
  intros Hrand Hwf Hterm Hit Hfuel HM.
  set (root := MCTSNode.init (from_board_to_state game) None None
                             (current_player game)).
  destruct (search_loop_spec W randbelow Hrand score (progress_measure game)
              use_puct (use_rave || use_grave) 0%nat iterations fuel w [root]
              (init_search_tree game (current_player game) Hwf)
              ltac:(simpl; lia) ltac:(simpl; lia) HM)
    as (w' & tree' & Hloop & Hst' & Hkeep & Hroot).
  destruct (Hroot Hit root eq_refl Hterm) as (m & Hm & Hch).
  destruct (Hkeep 0%nat root eq_refl) as (m' & Hm' & Hg & _).
  assert (m' = m) as -> by congruence.
  destruct (best_child_in root_score tree' 0%nat m Hm Hch) as (c & Hbest & Hc).
  destruct Hst' as [_ Hnodes].
  destruct (Hnodes 0%nat m Hm) as (_ & _ & _ & _ & Hchildren).
  destruct (Hchildren c Hc) as (_ & cn & Hcn & Hmove).
  unfold legal_moves in Hmove. rewrite Hg in Hmove.
  change (move cn ∈ valid_moves (MCTSNode.get_game_copy root)
                                (current_player game)) in Hmove.
  destruct (valid_moves_not_terminal (MCTSNode.get_game_copy root) (move cn)
              Hwf Hterm Hmove) as [i Hi].
  exists i. split.
  - unfold KalahMCTS.best_move. fold root. rewrite Hloop.
    cbn [bind_loop snd]. rewrite Hbest, Hcn, Hi. reflexivity.
  - rewrite Hi in Hmove. exact Hmove.
Qed.

Lemma expand_keeps_search_tree_witness :
  exists i child tree',
    MCTSNode.expand [sample_root] 0 true = Some (tree', 1%nat)
    /\ search_tree (progress_measure new_game) tree'
    /\ tree' !! 1%nat = Some child
    /\ move child = Some i
    /\ Some i ∈ legal_moves sample_root.
Proof.
  destruct (expand_keeps_search_tree (progress_measure new_game) [sample_root]
              0 sample_root true)
    as (i & child & node' & tree' & H).
  - apply (init_search_tree new_game 0).
    repeat split; [|left; reflexivity]. simpl. repeat constructor; lia.
  - reflexivity.
  - reflexivity.
  - exists i, child, tree'. simpl in H. intuition.
Defined.

Lemma tree_policy_terminates_witness :
  exists tree' node' n',
    KalahMCTS.tree_policy flat_score 1 false [sample_root] 0
    = Finished (tree', node')
    /\ search_tree (progress_measure new_game) tree'
    /\ tree' !! node' = Some n'
    /\ kept [sample_root] tree'
    /\ (forall n, [sample_root] !! 0%nat = Some n ->
          KalahMCTS.terminal_state n = false ->
          exists m, tree' !! 0%nat = Some m /\ children m <> [])
    /\ ((tree' = [sample_root] /\ KalahMCTS.terminal_state n' = true)
        \/ (node' = length [sample_root]
            /\ length tree' = S (length [sample_root])
            /\ children n' = [] /\ visits n' = 0)).
Proof.
  apply (tree_policy_terminates flat_score (progress_measure new_game) false 1
           [sample_root] 0).
  - apply (init_search_tree new_game 0).
    repeat split; [|left; reflexivity]. simpl. repeat constructor; lia.
  - simpl. lia.
  - simpl. lia.
Defined.

Lemma best_move_returns_legal_move_witness :
  exists i,
    KalahMCTS.best_move unit first_index flat_score flat_score 1 40
                        false false true tt two_stone_game
    = Finished (Some i)
    /\ Some i ∈ valid_moves two_stone_game (current_player two_stone_game).
Proof.
  apply (best_move_returns_legal_move unit first_index flat_score flat_score
           1 40 false false true tt two_stone_game).
  - intros w n Hn. exact Hn.
  - repeat split; [|left; reflexivity]. simpl. repeat constructor; lia.
  - reflexivity.
  - lia.
  - lia.
  - vm_compute. discriminate.
Defined.

(* --------------------------------------------------------------------- *)
(** ** The softmax under a shift of the weights *)
(* --------------------------------------------------------------------- *)

Section SoftmaxShift.

Import NRPA.
Local Open Scope R_scope.

Lemma foldl_Rmax_shift (c : R) (ws : list R) : forall w,
  foldl Rmax (w + c) (map (fun x => x + c) ws) = foldl Rmax w ws + c.
Proof.
  induction ws as [|x ws IH]; intros w; simpl; [reflexivity|].
  rewrite <- IH. f_equal.
  unfold Rmax. destruct (Rle_dec (w + c) (x + c)), (Rle_dec w x); lra.
Qed.

Lemma softmax_probs_shift policy policy' game moves c :
  (forall move, move ∈ moves ->
     policy_get policy' (from_board_to_state game, move)
     = policy_get policy (from_board_to_state game, move) + c) ->
  softmax_probs policy' game moves = softmax_probs policy game moves.
Proof.
  intros Hshift. unfold softmax_probs.
  set (state := from_board_to_state game) in *.
  assert (Hws : map (fun move => policy_get policy' (state, move)) moves
                = map (fun x => x + c)
                      (map (fun move => policy_get policy (state, move)) moves)).
  { rewrite List.map_map. apply List.map_ext_in. intros m Hm.
    apply Hshift, list_elem_of_In, Hm. }
  rewrite Hws.
  destruct (map (fun move => policy_get policy (state, move)) moves)
    as [|w ws]; [reflexivity|].
  cbn [map]. cbv zeta. rewrite foldl_Rmax_shift.
  set (M := foldl Rmax w ws).
  assert (Hhead : exp (w + c - (M + c)) = exp (w - M)) by (f_equal; lra).
  assert (Htail : map (fun x => exp (x - (M + c))) (map (fun x => x + c) ws)
                  = map (fun x => exp (x - M)) ws).
  { rewrite List.map_map. apply List.map_ext. intros x. f_equal. lra. }
  rewrite Hhead, Htail. reflexivity.
Qed.

End SoftmaxShift.

(** X21. The softmax does not depend on the level of the weights.  If every
    weight that a policy gives to the moves of a state is raised by the same
    amount, [softmax_probs] returns the same probabilities: only the
    differences between the weights of a state matter (weights taken as real
    numbers). *)
Theorem softmax_probs_shift_invariant (policy policy' : gmap NRPA.policy_key R)
    (game : KalahGame) (moves : list (option Z)) (c : R) :
  (forall move, move ∈ moves ->
     NRPA.policy_get policy' (from_board_to_state game, move)
     = (NRPA.policy_get policy (from_board_to_state game, move) + c)%R) ->
  NRPA.softmax_probs policy' game moves = NRPA.softmax_probs policy game moves
  /\ (moves <> [] ->
      exists probs, NRPA.softmax_probs policy game moves = Some probs
                    /\ length probs = length moves).
Proof.
  intros Hshift. split; [eapply softmax_probs_shift; eauto|].
  intros Hne.
  destruct (softmax_probs_normalised policy game moves Hne)
    as (M & total & _ & _ & Hrun & _).
  eexists. split; [exact Hrun|]. apply length_map.
Qed.

Lemma softmax_probs_shift_invariant_witness :
  NRPA.softmax_probs raised_policy new_game (valid_moves new_game 0)
  = NRPA.softmax_probs uneven_policy new_game (valid_moves new_game 0)
  /\ (valid_moves new_game 0 <> [] ->
      exists probs,
        NRPA.softmax_probs uneven_policy new_game (valid_moves new_game 0)
        = Some probs
        /\ length probs = length (valid_moves new_game 0)).
Proof.
  apply (softmax_probs_shift_invariant uneven_policy raised_policy new_game
           (valid_moves new_game 0) 1%R).
  intros move Hm. unfold NRPA.policy_get, uneven_policy, raised_policy.
  change (valid_moves new_game 0)
    with [Some 0; Some 1; Some 2; Some 3; Some 4; Some 5] in Hm.
  repeat (apply elem_of_cons in Hm; destruct Hm as [->|Hm]);
    [..|inversion Hm];
    repeat (rewrite lookup_insert_eq
            || (rewrite lookup_insert_ne by (intros [=])));
    rewrite ?lookup_empty; simpl; lra.
Defined.

(* --------------------------------------------------------------------- *)
(** ** Nested rollouts *)
(* --------------------------------------------------------------------- *)

Section NestedRollouts.

Import NRPA.

Lemma adapt_total : forall sequence policy, is_Some (adapt policy sequence).
Proof.
  induction sequence as [|[move state] sequence IH]; intros policy; simpl;
    [eauto|].
  unfold adapt_pair.
  destruct (softmax_defined_on_legal_moves policy
              (mkGame (fst state) (snd state) None)
              (valid_moves (mkGame (fst state) (snd state) None)
                           (current_player (mkGame (fst state) (snd state) None)))
              eq_refl) as (probs & -> & _).
  simpl. apply IH.
Qed.

Variable W : Type.
Variable weighted_index : W -> list R -> nat * W.
Hypothesis weighted_index_in_range : weighted_index_ok weighted_index.

Lemma recorded_line_app game seq1 seq2 :
  recorded_line game seq1 ->
  recorded_line (play game (map fst seq1)) seq2 ->
  recorded_line game (seq1 ++ seq2).
Proof.
  revert game. induction seq1 as [|[m st] seq1 IH]; intros game H1 H2;
    simpl in *; [exact H2|].
  destruct H1 as (Hst & Hm & Hin & H1).
  split; [exact Hst|]. split; [exact Hm|]. split; [exact Hin|].
  apply IH; assumption.
Qed.

Lemma nrpa_rollout_loop_terminal fuel w policy game sequence :
  is_terminal game = true ->
  nrpa_rollout_loop W weighted_index fuel w policy game sequence
  = Finished (w, game, sequence).
Proof. intros Hterm. destruct fuel; simpl; rewrite Hterm; reflexivity. Qed.

Lemma nrpa_rollout_loop_finishes policy : forall fuel w game sequence,
  wf_game game ->
  progress_measure game <= Z.of_nat fuel ->
  exists w' rest,
    nrpa_rollout_loop W weighted_index fuel w policy game sequence
    = Finished (w', play game (map fst rest), sequence ++ rest)
    /\ recorded_line game rest
    /\ is_terminal (play game (map fst rest)) = true.
Proof.
  induction fuel as [|fuel IH]; intros w game sequence Hwf Hfuel;
    destruct (is_terminal game) eqn:Hterm;
    try (exists w, []; rewrite nrpa_rollout_loop_terminal, app_nil_r by exact Hterm;
         split; [reflexivity|]; split; [exact I|exact Hterm]).
  - pose proof (measure_positive game Hwf Hterm). lia.
  - cbn [nrpa_rollout_loop]. rewrite Hterm. cbv zeta.
    destruct (softmax_defined_on_legal_moves policy game
                (valid_moves game (current_player game)) eq_refl)
      as (probs & -> & Hlen).
    pose proof (weighted_index_in_range w probs) as Hidx.
    destruct (weighted_index w probs) as [i w1]. simpl in Hidx.
    destruct (lookup_lt_is_Some_2 (valid_moves game (current_player game)) i)
      as [m Hm].
    { rewrite <- Hlen. apply Hidx. intros ->.
      pose proof (valid_moves_nonempty game (current_player game)) as Hne.
      destruct (valid_moves game (current_player game)); [congruence|].
      discriminate. }
    rewrite Hm.
    pose proof (list_elem_of_lookup_2 _ _ _ Hm) as Hin.
    pose proof (progress_measure_decreases game m Hwf Hterm Hin) as Hdec.
    destruct (valid_moves_not_terminal game m Hwf Hterm Hin) as [j Hj].
    assert (Hwf1 : wf_game (perform_move game m (current_player game)))
      by (apply perform_move_wf; [exact Hwf|apply Hwf|exact Hin]).
    destruct (IH w1 (perform_move game m (current_player game))
                 (sequence ++ [(m, from_board_to_state game)]) Hwf1 ltac:(lia))
      as (w' & rest & Hrun & Hline & Hend).
    exists w', ((m, from_board_to_state game) :: rest).
    rewrite Hrun, <- app_assoc.
    split; [reflexivity|]. split; [simpl; eauto|exact Hend].
Qed.

Lemma nrpa_rollout_spec fuel w root policy :
  wf_game (MCTSNode.get_game_copy root) ->
  progress_measure (MCTSNode.get_game_copy root) <= Z.of_nat fuel ->
  exists w' r,
    nrpa_rollout W weighted_index fuel w root policy = Finished (w', r)
    /\ finished_line (MCTSNode.get_game_copy root) r.
Proof.
  intros Hwf Hfuel.
  destruct (nrpa_rollout_loop_finishes policy fuel w
              (MCTSNode.get_game_copy root) [] Hwf Hfuel)
    as (w' & rest & Hrun & Hline & Hend).
  unfold nrpa_rollout. rewrite Hrun. cbn [bind_loop app].
  eexists _, (_, _). split; [reflexivity|].
  eexists. split; [reflexivity|]. split; [exact Hline|]. split; [exact Hend|].
  cbn [fst].
  set (r := result (play (MCTSNode.get_game_copy root) (map fst rest))).
  destruct (Z.ltb_spec 0 r); [symmetry; apply Z.sgn_pos; lia|].
  destruct (Z.ltb_spec r 0); [symmetry; apply Z.sgn_neg; lia|].
  symmetry. apply Z.sgn_null_iff. lia.
Qed.

Lemma nrpa_loop_spec (game : KalahGame)
    (rec : W -> gmap policy_key R
           -> loop_result (W * (list (option Z * state_key) * ext))) :
  (forall w policy, exists w' r,
      rec w policy = Finished (w', r) /\ finished_line game r) ->
  forall iterations w policy best_seq best_score,
    (best_score = NegInf /\ best_seq = [])
    \/ finished_line game (best_seq, best_score) ->
    exists w' r,
      nrpa_loop W rec iterations w policy best_seq best_score = Finished (w', r)
      /\ ((iterations = 0%nat /\ r = (best_seq, best_score))
          \/ finished_line game r).
Proof.
  intros Hrec.
  induction iterations as [|iterations IH];
    intros w policy best_seq best_score Hbest.
  - exists w, (best_seq, best_score). split; [reflexivity|]. left. auto.
  - cbn [nrpa_loop].
    destruct (Hrec w policy) as (w1 & [sequence score] & -> & Hline).
    cbn [bind_loop].
    set (best := if ext_ltb best_score score then (score, sequence)
                 else (best_score, best_seq)).
    assert (Hgood : finished_line game (snd best, fst best)).
    { unfold best. destruct (ext_ltb best_score score) eqn:Hlt; [exact Hline|].
      destruct Hbest as [[-> _]|Hb]; [|exact Hb].
      destruct Hline as (s & Hs & _). simpl in Hs. subst score. discriminate. }
    destruct best as [best_score' best_seq'].
    destruct (adapt_total best_seq' policy) as [policy' ->].
    destruct (IH w1 policy' best_seq' best_score' (or_intror Hgood))
      as (w' & r & Hrun & Hr).
    exists w', r. split; [exact Hrun|]. right.
    destruct Hr as [[_ ->]|Hr]; [exact Hgood|exact Hr].
Qed.

Lemma nrpa_spec fuel iterations root :
  wf_game (MCTSNode.get_game_copy root) ->
  progress_measure (MCTSNode.get_game_copy root) <= Z.of_nat fuel ->
  forall level w policy,
    level = 0%nat \/ (0 < iterations)%nat ->
    exists w' r,
      nrpa W weighted_index level fuel w policy iterations root
      = Finished (w', r)
      /\ finished_line (MCTSNode.get_game_copy root) r.
Proof.
  intros Hwf Hfuel.
  induction level as [|level IH]; intros w policy Hit.
  - apply nrpa_rollout_spec; assumption.
  - destruct Hit as [?|Hit]; [discriminate|].
    cbn [nrpa].
    destruct (nrpa_loop_spec (MCTSNode.get_game_copy root)
                (fun w policy =>
                   nrpa W weighted_index level fuel w policy iterations root)
                ltac:(intros w0 policy0; apply IH; right; exact Hit)
                iterations w policy [] NegInf ltac:(left; auto))
      as (w' & r & Hrun & Hr).
    exists w', r. split; [exact Hrun|].
    destruct Hr as [[-> _]|Hr]; [lia|exact Hr].
Qed.

End NestedRollouts.

(** X22. What [nrpa] returns.  At a level above 0 with no iteration it
    returns the empty sequence and minus infinity.  At level 0, or with at
    least one iteration, from a root that holds a well-formed state, with a
    weighted draw that yields an index of the list of weights and as much
    fuel as the measure of the state, it returns, for any policy: the
    sequence returned records a line of legal moves from pits that leads from
    the state of the root to a terminal state, each move with the key of the
    state in which it is played; the score is the sign of the result of that
    terminal state; and the sequence is not empty when the state of the root
    is not terminal. *)
Theorem nrpa_returns_finished_line (W : Type)
    (weighted_index : W -> list R -> nat * W)
    (level fuel : nat) (w : W) (policy : gmap NRPA.policy_key R)
    (iterations : nat) (root : MCTSNode) :
  NRPA.nrpa W weighted_index (S level) fuel w policy 0 root
  = Finished (w, ([], NegInf))
  /\ (weighted_index_ok weighted_index ->
      wf_game (MCTSNode.get_game_copy root) ->
      progress_measure (MCTSNode.get_game_copy root) <= Z.of_nat fuel ->
      level = 0%nat \/ (0 < iterations)%nat ->
      exists w' sequence s,
        NRPA.nrpa W weighted_index level fuel w policy iterations root
        = Finished (w', (sequence, Fin s))
        /\ recorded_line (MCTSNode.get_game_copy root) sequence
        /\ is_terminal (play (MCTSNode.get_game_copy root) (map fst sequence))
           = true
        /\ s = Z.sgn (result (play (MCTSNode.get_game_copy root)
                                   (map fst sequence)))
        /\ (is_terminal (MCTSNode.get_game_copy root) = false ->
            sequence <> [])).
Proof.
  split; [reflexivity|].
  intros Hidx Hwf Hfuel Hit.
  destruct (nrpa_spec W weighted_index Hidx fuel iterations root Hwf Hfuel
              level w policy Hit)
    as (w' & [sequence score] & Hrun & (s & Hs & Hline & Hend & Hsgn)).
  simpl in Hs, Hline, Hend, Hsgn. subst score.
  exists w', sequence, s.
  split; [exact Hrun|]. split; [exact Hline|]. split; [exact Hend|].
  split; [exact Hsgn|].
  intros Hterm ->. simpl in Hend. congruence.
Qed.

Lemma nrpa_returns_finished_line_witness :
  exists w' sequence s,
    NRPA.nrpa unit first_weighted 1 40 tt ∅ 2
              (MCTSNode.init (from_board_to_state two_stone_game) None None 0)
    = Finished (w', (sequence, Fin s))
    /\ sequence <> [].
Proof.
  destruct (nrpa_returns_finished_line unit first_weighted 1 40 tt ∅ 2
              (MCTSNode.init (from_board_to_state two_stone_game) None None 0))
    as [_ H].
  destruct H as (w' & sequence & s & Hrun & _ & _ & _ & Hne).
  - intros w ps Hne. destruct ps; [congruence|simpl; lia].
  - repeat split; [|left; reflexivity]. simpl. repeat constructor; lia.
  - vm_compute. discriminate.
  - right. lia.
  - exists w', sequence, s. split; [exact Hrun|]. apply Hne. reflexivity.
Defined.

(* --------------------------------------------------------------------- *)
(** ** Nested search *)
(* --------------------------------------------------------------------- *)

Section NestedSearch.

Import NMCS.

Variable W : Type.
Variable shuffle : W -> list (option Z) -> list (option Z) * W.

(** The loop does not look at [bound] or [prune_on_depth]. *)
Lemma nested_loop_unpruned
    (cv1 cv2 : W -> KalahGame -> qext -> option (W * qext))
    (game : KalahGame) (player : Z) (bound1 bound2 : option qext)
    (discounting prune1 prune2 cut_on_win : bool) :
  (forall w g v, cv1 w g v = cv2 w g v) ->
  forall moves w best_move best_value,
    nested_loop W cv1 game player bound1 discounting prune1 cut_on_win
                moves w best_move best_value
    = nested_loop W cv2 game player bound2 discounting prune2 cut_on_win
                  moves w best_move best_value.
Proof.
  intros Hcv. induction moves as [|move moves IH];
    intros w best_move best_value; [reflexivity|].
  cbn [nested_loop]. rewrite Hcv.
  destruct (cv2 w (perform_move game move player) best_value) as [[w1 val]|];
    [|reflexivity].
  cbn [mbind option_bind]. cbv zeta.
  rewrite !(IH w1 move val), !(IH w1 best_move best_value).
  repeat match goal with
         | |- context [if ?c then ?x else ?x] =>
             replace (if c then x else x) with x by (destruct c; reflexivity)
         end.
  reflexivity.
Qed.

Lemma nested_unpruned discounting cut_on_win :
  forall level w game depth bound1 bound2 prune1 prune2,
    nested W shuffle level w game depth bound1 discounting prune1 cut_on_win
    = nested W shuffle level w game depth bound2 discounting prune2 cut_on_win.
Proof.
  induction level as [|level IH]; intros w game depth bound1 bound2 prune1 prune2;
    cbn [nested]; destruct (is_terminal game); try reflexivity;
    destruct (shuffle w (valid_moves game (current_player game))) as [moves w1];
    apply nested_loop_unpruned.
  - reflexivity.
  - intros w0 g v.
    rewrite (IH w0 g (depth + 1) (if prune1 then Some v else None)
                (if prune2 then Some v else None) prune1 prune2).
    reflexivity.
Qed.

End NestedSearch.

(** X23. The pruning of nested search prunes nothing.  The test on [bound]
    at the end of the loop body of [nested] only leads to a [continue] where
    the body ends anyway, so the result of [nested] is the same for every
    [bound] and for both values of [prune_on_depth], at every level, for
    every state and every state of the random generator. *)
Theorem nested_ignores_bound (W : Type)
    (shuffle : W -> list (option Z) -> list (option Z) * W)
    (level : nat) (w : W) (game : KalahGame) (depth : Z)
    (bound1 bound2 : option qext)
    (discounting prune1 prune2 cut_on_win : bool) :
  NMCS.nested W shuffle level w game depth bound1 discounting prune1 cut_on_win
  = NMCS.nested W shuffle level w game depth bound2 discounting prune2 cut_on_win
  /\ NMCS.nmcs W shuffle level w game discounting prune1 cut_on_win
     = NMCS.nmcs W shuffle level w game discounting prune2 cut_on_win.
Proof.
  split; [apply nested_unpruned|].
  unfold NMCS.nmcs. apply nested_unpruned.
Qed.

(* --------------------------------------------------------------------- *)
(** ** The early exit of nested search *)
(* --------------------------------------------------------------------- *)

Lemma evaluate_terminal_discounted game depth :
  depth <> 0 ->
  exists r, (r = -1 \/ r = 0 \/ r = 1)
            /\ NMCS.evaluate_terminal game true depth
               = Some (inject_Z r / inject_Z depth)%Q.
Proof.
  intros Hd. unfold NMCS.evaluate_terminal.
  apply Z.eqb_neq in Hd. rewrite Hd.
  destruct (0 <? result game); [exists 1; auto|].
  destruct (result game <? 0); [exists (-1); auto|exists 0; auto].
Qed.

Lemma discounted_from_mono d1 d2 v :
  d1 <= d2 -> discounted_from d2 v -> discounted_from d1 v.
Proof.
  intros Hle. destruct v as [|q|]; simpl; auto.
  intros (r & d & Hr & Hd & ->). exists r, d. repeat split; auto. lia.
Qed.

Lemma discounted_not_a_win depth v :
  2 <= depth -> discounted_from depth v -> not_a_win v.
Proof.
  intros Hd. destruct v as [|q|]; simpl; [split; reflexivity| |split; reflexivity].
  intros (r & d & Hr & Hle & ->).
  assert (Hne : forall z, z = 1 \/ z = -1 ->
            Qeq_bool (inject_Z r / inject_Z d) (inject_Z z) = false).
  { intros z Hz. destruct (Qeq_bool _ _) eqn:E; [|reflexivity]. exfalso.
    apply Qeq_bool_iff in E. revert E.
    destruct d as [|p|p]; try lia.
    unfold Qeq, Qdiv, Qmult, Qinv, inject_Z. simpl.
    destruct Hr as [->|[->| ->]], Hz as [->| ->]; simpl; lia. }
  split; [apply (Hne 1)|apply (Hne (-1))]; auto.
Qed.

Section NestedValues.

Import NMCS.

Variable W : Type.
Variable shuffle : W -> list (option Z) -> list (option Z) * W.

(** The two branches of the pruning test are the same call. *)
Ltac same_branches :=
  repeat match goal with
         | |- context [if ?c then ?x else ?x] =>
             replace (if c then x else x) with x by (destruct c; reflexivity)
         | H : context [if ?c then ?x else ?x] |- _ =>
             replace (if c then x else x) with x in H by (destruct c; reflexivity)
         end.

(** The loop keeps the values it is given and those of the children. *)
Lemma nested_loop_discounted
    (cv : W -> KalahGame -> qext -> option (W * qext))
    (game : KalahGame) (player depth : Z) (bound : option qext)
    (discounting prune cut : bool) :
  (forall w g v r, cv w g v = Some r -> discounted_from depth (snd r)) ->
  forall moves w best_move best_value w' m v,
    discounted_from depth best_value ->
    nested_loop W cv game player bound discounting prune cut
                moves w best_move best_value = Some (w', (m, v)) ->
    discounted_from depth v.
Proof.
  intros Hcv. induction moves as [|move moves IH];
    intros w best_move best_value w' m v Hbv; cbn [nested_loop].
  - intros [= _ _ <-]. exact Hbv.
  - destruct (cv w (perform_move game move player) best_value) as [[w1 val]|] eqn:E;
      [|discriminate].
    pose proof (Hcv _ _ _ _ E) as Hval. simpl in Hval.
    cbn [mbind option_bind]. cbv zeta. same_branches.
    destruct (_ || _).
    + destruct (cut && _).
      * intros [= _ _ <-]. exact Hval.
      * apply IH. exact Hval.
    + apply IH. exact Hbv.
Qed.

Lemma nested_discounted prune cut :
  forall level w game depth bound w' m v,
    1 <= depth ->
    nested W shuffle level w game depth bound true prune cut = Some (w', (m, v)) ->
    discounted_from depth v.
Proof.
  induction level as [|level IH]; intros w game depth bound w' m v Hd;
    cbn [nested]; (destruct (is_terminal game);
    [ destruct (evaluate_terminal_discounted game depth ltac:(lia)) as (r & Hr & ->);
      cbn [mbind option_bind]; intros [= _ _ <-];
      exists r, depth; repeat split; auto; lia |]);
    destruct (shuffle w (valid_moves game (current_player game))) as [moves w1];
    apply nested_loop_discounted.
  - intros w0 g v0 r.
    destruct (evaluate_terminal_discounted g (depth + 1) ltac:(lia)) as (r0 & Hr & ->).
    cbn [mbind option_bind]. intros [= <-]. simpl.
    exists r0, (depth + 1). repeat split; auto. lia.
  - destruct (current_player game =? 0); exact I.
  - intros w0 g v0 r.
    destruct (nested W shuffle level w0 g (depth + 1) _ true prune cut)
      as [[w2 [m2 v2]]|] eqn:E; [|discriminate].
    cbn [mbind option_bind]. intros [= <-]. simpl.
    apply (discounted_from_mono depth (depth + 1)); [lia|].
    eapply IH; [|exact E]. lia.
  - destruct (current_player game =? 0); exact I.
Qed.

(** When no child is worth 1 or -1, the loop does not look at
    [cut_on_win]. *)
Lemma nested_loop_uncut
    (cv1 cv2 : W -> KalahGame -> qext -> option (W * qext))
    (game : KalahGame) (player : Z) (bound : option qext)
    (discounting prune cut1 cut2 : bool) :
  (forall w g v, cv1 w g v = cv2 w g v) ->
  (forall w g v r, cv1 w g v = Some r -> not_a_win (snd r)) ->
  forall moves w best_move best_value,
    nested_loop W cv1 game player bound discounting prune cut1
                moves w best_move best_value
    = nested_loop W cv2 game player bound discounting prune cut2
                  moves w best_move best_value.
Proof.
  intros Hcv Hwin. induction moves as [|move moves IH];
    intros w best_move best_value; [reflexivity|].
  cbn [nested_loop]. rewrite <- Hcv.
  destruct (cv1 w (perform_move game move player) best_value) as [[w1 val]|] eqn:E;
    [|reflexivity].
  destruct (Hwin _ _ _ _ E) as [H1 H2]. simpl in H1, H2.
  cbn [mbind option_bind]. cbv zeta.
  rewrite H1, H2, !andb_false_r. cbn [orb andb].
  rewrite !(IH w1 move val), !(IH w1 best_move best_value).
  reflexivity.
Qed.

Lemma nested_uncut prune cut1 cut2 :
  forall level w game depth bound,
    1 <= depth ->
    nested W shuffle level w game depth bound true prune cut1
    = nested W shuffle level w game depth bound true prune cut2.
Proof.
  induction level as [|level IH]; intros w game depth bound Hd;
    cbn [nested]; destruct (is_terminal game); try reflexivity;
    destruct (shuffle w (valid_moves game (current_player game))) as [moves w1];
    apply nested_loop_uncut.
  - reflexivity.
  - intros w0 g v0 r.
    destruct (evaluate_terminal_discounted g (depth + 1) ltac:(lia)) as (r0 & Hr & ->).
    cbn [mbind option_bind]. intros [= <-]. simpl.
    apply (discounted_not_a_win (depth + 1)); [lia|].
    exists r0, (depth + 1). repeat split; auto. lia.
  - intros w0 g v0. rewrite (IH w0 g (depth + 1) _ ltac:(lia)). reflexivity.
  - intros w0 g v0 r.
    destruct (nested W shuffle level w0 g (depth + 1) _ true prune cut1)
      as [[w2 [m2 v2]]|] eqn:E; [|discriminate].
    cbn [mbind option_bind]. intros [= <-]. simpl.
    apply (discounted_not_a_win (depth + 1)); [lia|].
    eapply nested_discounted; [|exact E]. lia.
Qed.

(* --------------------------------------------------------------------- *)
(** ** The move that nested search returns *)
(* --------------------------------------------------------------------- *)

(** With children that all have a finite value, the loop ends, and it
    returns what it was given or one of its moves with a finite value. *)
Lemma nested_loop_spec
    (cv : W -> KalahGame -> qext -> option (W * qext))
    (game : KalahGame) (player : Z) (bound : option qext)
    (discounting prune cut : bool) :
  forall moves,
    Forall (fun move => forall w v, exists w' q,
              cv w (perform_move game move player) v = Some (w', QFin q)) moves ->
    forall w best_move best_value,
    exists w' m v,
      nested_loop W cv game player bound discounting prune cut
                  moves w best_move best_value = Some (w', (m, v))
      /\ ((m = best_move /\ v = best_value)
          \/ (m ∈ moves /\ exists q, v = QFin q)).
Proof.
  induction moves as [|move moves IH]; intros Hall w best_move best_value.
  - exists w, best_move, best_value. split; [reflexivity|]. left. auto.
  - inversion Hall as [|? ? Hm Hms]; subst.
    destruct (Hm w best_value) as (w1 & q & Hq).
    cbn [nested_loop]. rewrite Hq. cbn [mbind option_bind]. cbv zeta.
    same_branches.
    destruct (_ || _).
    + destruct (cut && _).
      * exists w1, move, (QFin q). split; [reflexivity|]. right.
        split; [left|eauto].
      * destruct (IH Hms w1 move (QFin q)) as (w' & m & v & -> & Hr).
        exists w', m, v. split; [reflexivity|]. right.
        destruct Hr as [[-> ->]|[Hin Hv]]; [split; [left|eauto]|].
        split; [right; exact Hin|exact Hv].
    + destruct (IH Hms w1 best_move best_value) as (w' & m & v & -> & Hr).
      exists w', m, v. split; [reflexivity|].
      destruct Hr as [H|[Hin Hv]]; [left; exact H|right].
      split; [right; exact Hin|exact Hv].
Qed.

(** From the infinity it starts with, the loop takes its first move. *)
Lemma nested_loop_first
    (cv : W -> KalahGame -> qext -> option (W * qext))
    (game : KalahGame) (player : Z) (bound : option qext)
    (discounting prune cut : bool) (moves : list (option Z)) (w : W) :
  player = 0 \/ player = 1 ->
  moves <> [] ->
  Forall (fun move => forall w v, exists w' q,
            cv w (perform_move game move player) v = Some (w', QFin q)) moves ->
  exists w' m q,
    nested_loop W cv game player bound discounting prune cut
                moves w None (if player =? 0 then QNegInf else QPosInf)
    = Some (w', (m, QFin q))
    /\ m ∈ moves.
Proof.
  intros Hp Hne Hall. destruct moves as [|move moves]; [congruence|].
  inversion Hall as [|? ? Hm Hms]; subst.
  destruct (Hm w (if player =? 0 then QNegInf else QPosInf)) as (w1 & q & Hq).
  cbn [nested_loop]. rewrite Hq. cbn [mbind option_bind]. cbv zeta.
  same_branches.
  assert (Hbetter :
    (player =? 0) && qext_ltb (if player =? 0 then QNegInf else QPosInf) (QFin q)
    || (player =? 1) && qext_ltb (QFin q) (if player =? 0 then QNegInf else QPosInf)
    = true) by (destruct Hp as [->| ->]; reflexivity).
  rewrite Hbetter.
  destruct (cut && _).
  - exists w1, move, q. split; [reflexivity|left].
  - destruct (nested_loop_spec cv game player bound discounting prune cut
                moves Hms w1 move (QFin q)) as (w' & m & v & -> & Hr).
    destruct Hr as [[-> ->]|[Hin [q' ->]]].
    + exists w', move, q. split; [reflexivity|left].
    + exists w', m, q'. split; [reflexivity|right; exact Hin].
Qed.

Hypothesis shuffle_permutes : shuffle_ok shuffle.

Lemma nested_spec discounting prune cut :
  forall level w game depth bound,
    1 <= depth -> wf_game game ->
    exists w' m q,
      nested W shuffle level w game depth bound discounting prune cut
      = Some (w', (m, QFin q))
      /\ (if is_terminal game then m = None
          else m ∈ valid_moves game (current_player game)).
Proof.
  assert (Heval : forall g d, 1 <= d ->
            exists q, evaluate_terminal g discounting d = Some q).
  { intros g d Hd. unfold evaluate_terminal.
    destruct discounting; [|eauto].
    destruct (d =? 0) eqn:E; [lia|eauto]. }
  induction level as [|level IH]; intros w game depth bound Hd Hwf;
    cbn [nested]; (destruct (is_terminal game) eqn:Hterm;
    [ destruct (Heval game depth Hd) as [q ->]; cbn [mbind option_bind];
      exists w, None, q; split; reflexivity |]);
    pose proof (shuffle_permutes w (valid_moves game (current_player game))) as Hperm;
    destruct (shuffle w (valid_moves game (current_player game))) as [moves w1];
    simpl in Hperm;
    (assert (Hne : moves <> [])
       by (intros ->; apply Permutation_nil in Hperm;
           exact (valid_moves_nonempty _ _ Hperm)));
    (assert (Hp : current_player game = 0 \/ current_player game = 1)
       by (destruct Hwf as (_ & _ & H); exact H)).
  - destruct (nested_loop_first
                (fun w g_copy _ =>
                   q ← evaluate_terminal g_copy discounting (depth + 1);
                   Some (w, QFin q))
                game (current_player game) bound discounting prune cut moves w1
                Hp Hne) as (w' & m & q & -> & Hin).
    + apply Forall_forall. intros move _ w0 v0.
      destruct (Heval (perform_move game move (current_player game)) (depth + 1)
                  ltac:(lia)) as [q ->].
      cbn [mbind option_bind]. eauto.
    + exists w', m, q. split; [reflexivity|]. rewrite <- Hperm. exact Hin.
  - destruct (nested_loop_first
                (fun w g_copy best_value =>
                   r ← nested W shuffle level w g_copy (depth + 1)
                              (if prune then Some best_value else None)
                              discounting prune cut;
                   Some (fst r, snd (snd r)))
                game (current_player game) bound discounting prune cut moves w1
                Hp Hne) as (w' & m & q & -> & Hin).
    + apply Forall_forall. intros move Hmove w0 v0.
      assert (Hwf' : wf_game (perform_move game move (current_player game))).
      { apply perform_move_wf; auto. rewrite <- Hperm. exact Hmove. }
      destruct (IH w0 (perform_move game move (current_player game)) (depth + 1)
                  (if prune then Some v0 else None) ltac:(lia) Hwf')
        as (w2 & m2 & q2 & -> & _).
      cbn [mbind option_bind]. simpl. eauto.
    + exists w', m, q. split; [reflexivity|]. rewrite <- Hperm. exact Hin.
Qed.

End NestedValues.

(** X24. With discounting, the early exit on a win is dead code.  The
    values that [nested] compares with 1 and -1 come from states one level
    deeper, where the reward is divided by a depth of at least two, so with
    [discounting] set and a depth of at least one the [break] of
    [cut_on_win] is never taken: [nested] returns the same result, and
    leaves the random generator in the same state, for both values of
    [cut_on_win], and so does [nmcs], which starts at depth one. *)
Theorem discounting_disables_cut_on_win (W : Type)
    (shuffle : W -> list (option Z) -> list (option Z) * W)
    (level : nat) (w : W) (game : KalahGame) (depth : Z)
    (bound : option qext) (prune_on_depth cut1 cut2 : bool) :
  1 <= depth ->
  NMCS.nested W shuffle level w game depth bound true prune_on_depth cut1
  = NMCS.nested W shuffle level w game depth bound true prune_on_depth cut2
  /\ NMCS.nmcs W shuffle level w game true prune_on_depth cut1
     = NMCS.nmcs W shuffle level w game true prune_on_depth cut2.
Proof.
  intros Hd. split; [apply nested_uncut; exact Hd|].
  unfold NMCS.nmcs. apply nested_uncut. lia.
Qed.

Lemma discounting_disables_cut_on_win_witness :
  NMCS.nested unit no_shuffle 1 tt new_game 1 None true true true
  = NMCS.nested unit no_shuffle 1 tt new_game 1 None true true false
  /\ NMCS.nmcs unit no_shuffle 1 tt new_game true true true
     = NMCS.nmcs unit no_shuffle 1 tt new_game true true false.
Proof.
  apply (discounting_disables_cut_on_win unit no_shuffle 1 tt new_game 1 None
           true true false).
  lia.
Defined.

(** X25. What [nmcs] returns.  With a shuffle that returns the moves it was
    given in some order, on a well-formed state, [nmcs] raises nothing and
    returns a finite value, at every level and for every setting of its three
    switches; the move is [None] on a terminal state, and otherwise one of
    the valid moves of the player to move, which on such a state is a pit of
    that player. *)
Theorem nmcs_returns_legal_move (W : Type)
    (shuffle : W -> list (option Z) -> list (option Z) * W)
    (level : nat) (w : W) (game : KalahGame)
    (discounting prune_on_depth cut_on_win : bool) :
  shuffle_ok shuffle -> wf_game game ->
  exists w' m q,
    NMCS.nmcs W shuffle level w game discounting prune_on_depth cut_on_win
    = Some (w', (m, QFin q))
    /\ (if is_terminal game then m = None
        else m ∈ valid_moves game (current_player game)
             /\ exists i, m = Some i).
Proof.
  intros Hsh Hwf. unfold NMCS.nmcs.
  destruct (nested_spec W shuffle Hsh discounting prune_on_depth cut_on_win
              level w game 1 None ltac:(lia) Hwf) as (w' & m & q & Heq & Hm).
  exists w', m, q. split; [exact Heq|].
  destruct (is_terminal game) eqn:Hterm; [exact Hm|].
  split; [exact Hm|].
  exact (valid_moves_not_terminal game m Hwf Hterm Hm).
Qed.

Lemma nmcs_returns_legal_move_witness :
  exists w' m q,
    NMCS.nmcs unit no_shuffle 1 tt new_game true true true
    = Some (w', (m, QFin q))
    /\ (if is_terminal new_game then m = None
        else m ∈ valid_moves new_game (current_player new_game)
             /\ exists i, m = Some i).
Proof.
  apply (nmcs_returns_legal_move unit no_shuffle 1 tt new_game true true true).
  - intros w moves. reflexivity.
  - repeat split; [|left; reflexivity]. simpl. repeat constructor; lia.
Defined.

(* --------------------------------------------------------------------- *)
(** ** The greedy player of the tuning script *)
(* --------------------------------------------------------------------- *)

Lemma evaluate_weighted_default game player :
  evaluate_weighted game player 10 7 2 = evaluate game player.
Proof. reflexivity. Qed.

(** Under the full window the maximizing loop over leaves is the loop of the
    greedy player. *)
Lemma max_loop_greedy game cp : forall moves acc best_move,
  acc <> PosInf ->
  fmap snd (KalahMinimax.max_loop
              (fun g a b => KalahMinimax.minimax g 0 a b cp)
              game cp moves acc PosInf acc best_move)
  = greedy_loop game cp 10 7 2 moves best_move acc.
Proof.
  induction moves as [|move moves IH]; intros acc best_move Hacc;
    [reflexivity|].
  cbn [KalahMinimax.max_loop greedy_loop KalahMinimax.minimax].
  rewrite evaluate_weighted_default. unfold KalahMinimax.leaf.
  destruct (evaluate (perform_move game move cp) cp) as [score|]; [|reflexivity].
  cbn [mbind option_bind fst]. cbv zeta.
  unfold ext_max.
  assert (Hcut : forall a, a <> PosInf -> ext_leb PosInf a = false)
    by (intros [| |]; try reflexivity; congruence).
  destruct (ext_ltb acc (Fin score)).
  - rewrite Hcut by discriminate. apply IH. discriminate.
  - rewrite Hcut by exact Hacc. apply IH. exact Hacc.
Qed.

(** X26. The greedy player is a one-ply minimax.  On a state that is not
    terminal, [greedy_move] with the weights that [evaluate] has by default
    (1.0, 0.7 and 0.2) returns what [minimax_move] returns at depth 1: the
    same move when the evaluator returns a score for every move, and the same
    exception when it raises.  (On a terminal state they differ:
    [minimax_move] returns [None] without trying a move.) *)
Theorem greedy_move_is_one_ply_minimax (game : KalahGame) :
  is_terminal game = false ->
  greedy_move game 10 7 2 = KalahMinimax.minimax_move game 1.
Proof.
  intros Hterm. unfold greedy_move, KalahMinimax.minimax_move.
  cbn [KalahMinimax.minimax]. rewrite Hterm, Z.eqb_refl.
  rewrite <- (max_loop_greedy game (current_player game)
                (valid_moves game (current_player game)) NegInf None
                ltac:(discriminate)).
  destruct (KalahMinimax.max_loop _ _ _ _ _ _ _ _) as [[r bm]|]; reflexivity.
Qed.

Lemma greedy_move_is_one_ply_minimax_witness :
  greedy_move new_game 10 7 2 = KalahMinimax.minimax_move new_game 1.
Proof.
  apply (greedy_move_is_one_ply_minimax new_game). reflexivity.
Defined.


Section Greedy.

Variables (game : KalahGame) (cp w1 w2 w3 : Z).

(** The score that [greedy_move] gives a move. *)
Let score (move : option Z) : option Z :=
  evaluate_weighted (perform_move game move cp) cp w1 w2 w3.


End Greedy.


